(** * ofunc/ga: a genetic-algorithm engine

    Shallow embedding of the two variants of the engine found in the
    repository:

    - [GaSeq]: [src/ga.go], the sequential engine (running mean recurrence,
      mutation probability recomputed every generation, two-argument
      crossover, elite compared by identity in [Evolve]);
    - [GaPar]: [src/unnamed/part_000], the fork-join engine ([NC] workers over
      strided slots, persistent clamped mutation probability, weighted
      crossover, elite compared by fitness in [Evolve]).

    Both engines are written once over an interface [FloatOps] of the
    [float64] operations the code uses.  Two instances are given:

    - [binary64]: the kernel's IEEE-754 binary64 numbers (the arithmetic Go's
      [float64] has), on which the definitions run;
    - [exact]: IEEE-754's special values (NaN and the two infinities) around
      exact real arithmetic, with neither rounding nor overflow, on which the
      numeric statements of the specification (means, variances, ranges of
      the logistic weights and of the mutation probability) are proved.

    [math.Exp] is a parameter [Exp] of the engines; the entity capabilities
    [Fitness], [Mutate], [Crossover] and Go's [==] on entities are parameters
    too.  A runtime panic (index out of range, negative [make]) is [None]. *)

From Stdlib Require Import Reals Floats ZArith List Lia Lra Bool Arith.
From Stdlib Require Import Permutation.
Import ListNotations.

Set Implicit Arguments.
Set Default Proof Using "Type".

(* ================================================================== *)
(** * The [float64] interface *)
(* ================================================================== *)

Declare Scope fl_scope.
Delimit Scope fl_scope with fl.

(** The operations of [float64] used in the sources. [fltb x y] is Go's
    [x < y] (and [y > x]), [fleb x y] is [x <= y], [of_int i] is the
    conversion [float64(i)], [neg_inf] is [math.Inf(-1)]. *)
Class FloatOps (F : Type) : Type := {
  fadd : F -> F -> F;
  fsub : F -> F -> F;
  fmul : F -> F -> F;
  fdiv : F -> F -> F;
  fsqrt : F -> F;
  fltb : F -> F -> bool;
  fleb : F -> F -> bool;
  of_int : Z -> F;
  neg_inf : F
}.

Infix "+" := fadd : fl_scope.
Infix "-" := fsub : fl_scope.
Infix "*" := fmul : fl_scope.
Infix "/" := fdiv : fl_scope.
Infix "<?" := fltb : fl_scope.
Infix "<=?" := fleb : fl_scope.

Section Constants.
Context {F : Type} {num : FloatOps F}.

  (** The literals of the sources. A decimal literal such as [0.1] denotes
      the [float64] nearest to 1/10, which is what the correctly rounded
      quotient of the two exactly representable integers gives. *)
Definition f0 : F := of_int 0.
Definition f1 : F := of_int 1.
Definition c0_1 : F := (of_int 1 / of_int 10)%fl.
Definition c0_0001 : F := (of_int 1 / of_int 10000)%fl.
Definition c0_2 : F := (of_int 2 / of_int 10)%fl.
Definition c0_9 : F := (of_int 9 / of_int 10)%fl.
End Constants.

(* ------------------------------------------------------------------ *)
(** ** Instance 1: IEEE-754 binary64 *)
(* ------------------------------------------------------------------ *)

(** [float64(i)] for an [int] of magnitude below 2^63. *)
Definition Z2float (z : Z) : float :=
  match z with
  | Z0 => PrimFloat.zero
  | Zpos _ => PrimFloat.of_uint63 (Uint63.of_Z z)
  | Zneg p => PrimFloat.opp (PrimFloat.of_uint63 (Uint63.of_Z (Zpos p)))
  end.

#[export] Instance binary64 : FloatOps float := {
  fadd := PrimFloat.add;
  fsub := PrimFloat.sub;
  fmul := PrimFloat.mul;
  fdiv := PrimFloat.div;
  fsqrt := PrimFloat.sqrt;
  fltb := PrimFloat.ltb;
  fleb := PrimFloat.leb;
  of_int := Z2float;
  neg_inf := PrimFloat.neg_infinity
}.

(* ------------------------------------------------------------------ *)
(** ** Instance 2: special values around exact reals *)
(* ------------------------------------------------------------------ *)

Inductive xreal : Type :=
| XNaN : xreal
| XNegInf : xreal
| XFin (r : R) : xreal
| XPosInf : xreal.

Module Exact.

Definition Rltb (a b : R) : bool := if Rlt_dec a b then true else false.
Definition Rleb (a b : R) : bool := if Rle_dec a b then true else false.
Definition Reqb (a b : R) : bool := if Req_dec_T a b then true else false.

  (** Infinity of the sign of [r] (zero counts as positive). *)
Definition inf_of_sign (r : R) : xreal :=
    if Rltb r 0 then XNegInf else XPosInf.

Definition neg (x : xreal) : xreal :=
    match x with
    | XNaN => XNaN
    | XNegInf => XPosInf
    | XFin r => XFin (- r)
    | XPosInf => XNegInf
    end.

Definition add (x y : xreal) : xreal :=
    match x, y with
    | XNaN, _ | _, XNaN => XNaN
    | XFin a, XFin b => XFin (a + b)
    | XPosInf, XNegInf | XNegInf, XPosInf => XNaN
    | XPosInf, _ | _, XPosInf => XPosInf
    | XNegInf, _ | _, XNegInf => XNegInf
    end.

Definition sub (x y : xreal) : xreal := add x (neg y).

  (** An infinity times a finite number: NaN at zero, else by sign. *)
Definition inf_times (pos : bool) (r : R) : xreal :=
    if Reqb r 0 then XNaN
    else if xorb pos (Rltb 0 r) then XNegInf else XPosInf.

Definition mul (x y : xreal) : xreal :=
    match x, y with
    | XNaN, _ | _, XNaN => XNaN
    | XFin a, XFin b => XFin (a * b)
    | XPosInf, XFin r | XFin r, XPosInf => inf_times true r
    | XNegInf, XFin r | XFin r, XNegInf => inf_times false r
    | XPosInf, XPosInf | XNegInf, XNegInf => XPosInf
    | XPosInf, XNegInf | XNegInf, XPosInf => XNegInf
    end.

Definition div (x y : xreal) : xreal :=
    match x, y with
    | XNaN, _ | _, XNaN => XNaN
    | XFin a, XFin b =>
        if Reqb b 0 then (if Reqb a 0 then XNaN else inf_of_sign a)
        else XFin (a / b)
    | XFin _, (XPosInf | XNegInf) => XFin 0
    | XPosInf, XFin r => inf_of_sign r
    | XNegInf, XFin r => neg (inf_of_sign r)
    | (XPosInf | XNegInf), (XPosInf | XNegInf) => XNaN
    end.

Definition sqrt (x : xreal) : xreal :=
    match x with
    | XNaN | XNegInf => XNaN
    | XFin r => if Rltb r 0 then XNaN else XFin (R_sqrt.sqrt r)
    | XPosInf => XPosInf
    end.

Definition ltb (x y : xreal) : bool :=
    match x, y with
    | XNaN, _ | _, XNaN => false
    | XFin a, XFin b => Rltb a b
    | XNegInf, (XFin _ | XPosInf) => true
    | XFin _, XPosInf => true
    | _, _ => false
    end.

Definition leb (x y : xreal) : bool :=
    match x, y with
    | XNaN, _ | _, XNaN => false
    | XFin a, XFin b => Rleb a b
    | XNegInf, _ => true
    | _, XPosInf => true
    | _, _ => false
    end.

  (** [math.Exp] in exact arithmetic. *)
Definition exp (x : xreal) : xreal :=
    match x with
    | XNaN => XNaN
    | XNegInf => XFin 0
    | XFin r => XFin (Rtrigo_def.exp r)
    | XPosInf => XPosInf
    end.

End Exact.

#[export] Instance exact : FloatOps xreal := {
  fadd := Exact.add;
  fsub := Exact.sub;
  fmul := Exact.mul;
  fdiv := Exact.div;
  fsqrt := Exact.sqrt;
  fltb := Exact.ltb;
  fleb := Exact.leb;
  of_int := fun z => XFin (IZR z);
  neg_inf := XNegInf
}.

(* ================================================================== *)
(** * Slices *)
(* ================================================================== *)

(** [l[i] = v]: Go panics when [i] is out of range. *)
Fixpoint store {A : Type} (l : list A) (i : nat) (v : A) : option (list A) :=
  match l, i with
  | [], _ => None
  | _ :: l', O => Some (v :: l')
  | a :: l', S i' =>
      match store l' i' v with
      | Some r => Some (a :: r)
      | None => None
      end
  end.

(** [l[z]] for an [int] index: Go panics when [z] is negative or too big. *)
Definition index {A : Type} (l : list A) (z : Z) : option A :=
  if (z <? 0)%Z then None else nth_error l (Z.to_nat z).

(** [make([]T, n)]: Go panics on a negative length. *)
Definition make {A : Type} (zero : A) (n : Z) : option (list A) :=
  if (n <? 0)%Z then None else Some (repeat zero (Z.to_nat n)).

(** The entities of a buffer, when no slot is nil. *)
Fixpoint filled {A : Type} (l : list (option A)) : option (list A) :=
  match l with
  | [] => Some []
  | None :: _ => None
  | Some a :: l' =>
      match filled l' with
      | Some r => Some (a :: r)
      | None => None
      end
  end.

(* ================================================================== *)
(** * [src/ga.go]: the sequential engine *)
(* ================================================================== *)

Module GaSeq.
Section Engine.
Context {F : Type} {num : FloatOps F}.
Variable Exp : F -> F.                       (* math.Exp *)
Variable Entity : Type.
Variable Fitness : Entity -> F.              (* x.Fitness() *)
Variable Mutate : Entity -> Entity.          (* x.Mutate() *)
Variable Crossover : Entity -> Entity -> Entity.  (* x.Crossover(y) *)
Variable same : Entity -> Entity -> bool.    (* x == y on interface values *)

Local Open Scope fl_scope.

  (** [type GA struct]. [elite] is [None] for the nil interface; a slot of
      the working buffer [tentities] is [None] until it is first written;
      [rnd] is the stream of numbers the generator will deliver. *)
Record GA : Type := mkGA {
    n : Z;
    elite : option Entity;
    felite : F;
    entities : list Entity;
    rnd : nat -> F;
    fsum : F;
    mean : F;
    std : F;
    std0 : F;
    fentities : list F;
    tentities : list (option Entity)
  }.

Definition set_elite (m : GA) (x : option Entity) (f : F) : GA :=
    mkGA (n m) x f (entities m) (rnd m) (fsum m) (mean m) (std m) (std0 m)
         (fentities m) (tentities m).
Definition set_rnd (m : GA) (r : nat -> F) : GA :=
    mkGA (n m) (elite m) (felite m) (entities m) r (fsum m) (mean m) (std m)
         (std0 m) (fentities m) (tentities m).
Definition set_fsum (m : GA) (s : F) : GA :=
    mkGA (n m) (elite m) (felite m) (entities m) (rnd m) s (mean m) (std m)
         (std0 m) (fentities m) (tentities m).
Definition set_mean (m : GA) (x : F) : GA :=
    mkGA (n m) (elite m) (felite m) (entities m) (rnd m) (fsum m) x (std m)
         (std0 m) (fentities m) (tentities m).
Definition set_std (m : GA) (x : F) : GA :=
    mkGA (n m) (elite m) (felite m) (entities m) (rnd m) (fsum m) (mean m) x
         (std0 m) (fentities m) (tentities m).
Definition set_std0 (m : GA) (x : F) : GA :=
    mkGA (n m) (elite m) (felite m) (entities m) (rnd m) (fsum m) (mean m)
         (std m) x (fentities m) (tentities m).
Definition set_fentities (m : GA) (fs : list F) : GA :=
    mkGA (n m) (elite m) (felite m) (entities m) (rnd m) (fsum m) (mean m)
         (std m) (std0 m) fs (tentities m).
Definition set_tentities (m : GA) (t : list (option Entity)) : GA :=
    mkGA (n m) (elite m) (felite m) (entities m) (rnd m) (fsum m) (mean m)
         (std m) (std0 m) (fentities m) t.
  (** [m.entities, m.tentities = a, b]. *)
Definition set_buffers (m : GA) (a : list Entity)
             (b : list (option Entity)) : GA :=
    mkGA (n m) (elite m) (felite m) a (rnd m) (fsum m) (mean m) (std m)
         (std0 m) (fentities m) b.

  (** [m.rnd.Float64()]. *)
Definition Float64 (m : GA) : F * GA :=
    (rnd m O, set_rnd m (fun k => rnd m (S k))).

  (** [func (m *GA) sigmoid()]: the loop over the slots of [m.fentities],
      [fs] being the values still to be read and [i] the current index. *)
Fixpoint sigmoid_loop (fs : list F) (i : nat) (m : GA) : option GA :=
    match fs with
    | [] => Some m
    | f :: fs' =>
        let f := f1 / (f1 + Exp ((mean m - f) / std m)) in
        match store (fentities m) i f with
        | None => None
        | Some ws =>
            sigmoid_loop fs' (S i) (set_fsum (set_fentities m ws) (fsum m + f))
        end
    end.

Definition sigmoid (m : GA) : option GA :=
    sigmoid_loop (fentities m) O (set_fsum m f0).

  (** [func (m *GA) fitness()]: the loop over [m.entities]. *)
Fixpoint fitness_loop (xs : list Entity) (i : nat) (mean std2 : F) (m : GA)
    : option (F * F * GA) :=
    match xs with
    | [] => Some (mean, std2, m)
    | x :: xs' =>
        let f := Fitness x in
        match store (fentities m) i f with
        | None => None
        | Some fs =>
            let m := set_fentities m fs in
            let k1 := f1 / of_int (Z.of_nat i + 1) in
            let k2 := f1 - k1 in
            let mean := k1 * f + k2 * mean in
            let std2 := k1 * f * f + k2 * std2 in
            let m := if felite m <? f then set_elite m (Some x) f else m in
            fitness_loop xs' (S i) mean std2 m
        end
    end.

Definition fitness (m : GA) : option GA :=
    match fitness_loop (entities m) O f0 f0 m with
    | None => None
    | Some (mean, std2, m) =>
        let m := set_mean m mean in
        let std2 := std2 - mean * mean in
        let m := if f0 <? std2 then set_std m (fsqrt std2) else set_std m f1 in
        sigmoid m
    end.

  (** [func (m *GA) select2()]: the scan of [m.fentities]. *)
Fixpoint select2_loop (m : GA) (fs : list F) (i : nat) (f0 d r2 : F)
           (x y : Entity) : option (Entity * Entity) :=
    match fs with
    | [] => Some (x, y)
    | f :: fs' =>
        if f0 <=? f then
          match nth_error (entities m) O with
          | None => None
          | Some e0 =>
              if same x e0 then
                match nth_error (entities m) i with
                | None => None
                | Some xi => select2_loop m fs' (S i) (f0 + d - f * r2) d r2 xi y
                end
              else
                match nth_error (entities m) i with
                | None => None
                | Some yi => Some (x, yi)
                end
          end
        else select2_loop m fs' (S i) (f0 - f) d r2 x y
    end.

Definition select2 (m : GA) : option (Entity * Entity * GA) :=
    let '(r1, m) := Float64 m in
    let '(r2, m) := Float64 m in
    let '(r1, r2) := if r2 <? r1 then (r2, r1) else (r1, r2) in
    let t := fsum m * r1 in
    let d := fsum m * (r2 - r1) in
    match nth_error (entities m) O, index (entities m) (n m - 1) with
    | Some x, Some y =>
        match select2_loop m (fentities m) O t d r2 x y with
        | Some (x, y) => Some (x, y, m)
        | None => None
        end
    | _, _ => None
    end.

  (** The mutation probability of a generation:
      [pm := math.Exp(-10 * m.std / m.std0)]. *)
Definition mutation_probability (m : GA) : F :=
    Exp (of_int (-10) * std m / std0 m).

  (** The body of [Next]'s loop, for the slots [slots] still to be filled. *)
Fixpoint Next_loop (pm : F) (slots : list nat) (m : GA) : option GA :=
    match slots with
    | [] => Some m
    | i :: slots' =>
        match select2 m with
        | None => None
        | Some (x, y, m) =>
            let z := Crossover x y in
            let '(r, m) := Float64 m in
            let z := if r <? pm then Mutate z else z in
            match store (tentities m) i (Some z) with
            | None => None
            | Some t => Next_loop pm slots' (set_tentities m t)
            end
        end
    end.

  (** [func (m *GA) Next() Entity]. The swap installs the working buffer as
      the population; a nil slot there would make [fitness] panic. *)
Definition Next (m : GA) : option (option Entity * GA) :=
    let pm := mutation_probability m in
    match Next_loop pm (seq O (length (tentities m))) m with
    | None => None
    | Some m =>
        match filled (tentities m) with
        | None => None
        | Some ents =>
            let m := set_buffers m ents (map Some (entities m)) in
            match fitness m with
            | None => None
            | Some m => Some (elite m, m)
            end
        end
    end.

  (** [x != elite] on two interface values, either of which may be nil. *)
Definition differs (x y : option Entity) : bool :=
    match x, y with
    | None, None => false
    | Some a, Some b => negb (same a b)
    | _, _ => true
    end.

  (** What [Evolve]'s loop leaves: the counters [i] and [j], the local
      [elite] and the engine. [j] counts the calls of [Next]. *)
Record run : Type := mkRun {
    run_i : Z;
    run_j : Z;
    run_elite : option Entity;
    run_ga : GA
  }.

  (** [for j := 0; i < k && j < max; i, j = i+1, j+1 { ... }]. The loop runs
      at most [max] times; [fuel] bounds the unfolding. *)
Fixpoint Evolve_loop (fuel : nat) (k max i j : Z) (elite : option Entity)
           (m : GA) : option run :=
    if ((i <? k) && (j <? max))%Z then
      match fuel with
      | O => None
      | S fuel' =>
          match Next m with
          | None => None
          | Some (x, m) =>
              if differs x elite
              then Evolve_loop fuel' k max (0 + 1)%Z (j + 1)%Z x m
              else Evolve_loop fuel' k max (i + 1)%Z (j + 1)%Z elite m
          end
      end
    else Some (mkRun i j elite m).

Definition Evolve_run (k max : Z) (m : GA) : option run :=
    Evolve_loop (Z.to_nat max) k max 0%Z 0%Z (elite m) m.

  (** [func (m *GA) Evolve(k int, max int) (Entity, bool)], with the engine
      it leaves. *)
Definition Evolve (k max : Z) (m : GA) : option (option Entity * bool * GA) :=
    match Evolve_run k max m with
    | None => None
    | Some r => Some (run_elite r, (k <=? run_i r)%Z, run_ga r)
    end.

  (** [func New(n int, g func() Entity) *GA]. [g k] is the entity the
      [k]-th call of the factory returns and [seed] the stream of the
      generator. The three [make] panic on a negative [n]. *)
Definition New (nn : Z) (g : nat -> Entity) (seed : nat -> F) : option GA :=
    match make (@None Entity) nn, make f0 nn, make (@None Entity) nn with
    | Some ents, Some fents, Some tents =>
        (* for i := range m.entities { m.entities[i] = g() } *)
        let ents := map g (seq O (length ents)) in
        let m := mkGA nn None neg_inf ents seed f0 f0 f0 f0 fents tents in
        match fitness m with
        | None => None
        | Some m => Some (set_std0 m (std m))
        end
    | _, _, _ => None
    end.

End Engine.
End GaSeq.


(* ================================================================== *)
(** * [src/unnamed/part_000]: the fork-join engine *)
(* ================================================================== *)

Module GaPar.
Section Engine.
Context {F : Type} {num : FloatOps F}.
Variable Exp : F -> F.                       (* math.Exp *)
Variable NC : nat.                           (* var NC = runtime.GOMAXPROCS(0) *)
Variable Entity : Type.
Variable Fitness : Entity -> F.              (* x.Fitness() *)
Variable Mutate : Entity -> Entity.          (* x.Mutate() *)
Variable Crossover : Entity -> Entity -> F -> Entity.  (* x.Crossover(y, w) *)

Local Open Scope fl_scope.

(** [type GA struct]. The generator is shared by the workers of a
    generation, which draw from it under the mutex in an order the
    scheduler decides: [rnd m g i] holds the three numbers that the
    callback of slot [i] receives in the [g]-th coming generation (the two
    of [select2], then the one compared with [pm]). *)
Record GA : Type := mkGA {
  n : Z;
  fitness : F;
  elite : option Entity;
  pm : F;
  base : F;
  fsum : F;
  rnd : nat -> nat -> F * F * F;
  fentities : list F;
  entities : list Entity;
  tentities : list (option Entity)
}.

Definition set_elite (m : GA) (f : F) (x : option Entity) : GA :=
  mkGA (n m) f x (pm m) (base m) (fsum m) (rnd m) (fentities m) (entities m)
       (tentities m).
Definition set_pm (m : GA) (p : F) : GA :=
  mkGA (n m) (fitness m) (elite m) p (base m) (fsum m) (rnd m) (fentities m)
       (entities m) (tentities m).
Definition set_base (m : GA) (b : F) : GA :=
  mkGA (n m) (fitness m) (elite m) (pm m) b (fsum m) (rnd m) (fentities m)
       (entities m) (tentities m).
Definition set_fsum (m : GA) (s : F) : GA :=
  mkGA (n m) (fitness m) (elite m) (pm m) (base m) s (rnd m) (fentities m)
       (entities m) (tentities m).
Definition set_rnd (m : GA) (r : nat -> nat -> F * F * F) : GA :=
  mkGA (n m) (fitness m) (elite m) (pm m) (base m) (fsum m) r (fentities m)
       (entities m) (tentities m).
Definition set_fentities (m : GA) (fs : list F) : GA :=
  mkGA (n m) (fitness m) (elite m) (pm m) (base m) (fsum m) (rnd m) fs
       (entities m) (tentities m).
Definition set_tentities (m : GA) (t : list (option Entity)) : GA :=
  mkGA (n m) (fitness m) (elite m) (pm m) (base m) (fsum m) (rnd m)
       (fentities m) (entities m) t.
(** [m.entities, m.tentities = a, b]. *)
Definition set_buffers (m : GA) (a : list Entity)
           (b : list (option Entity)) : GA :=
  mkGA (n m) (fitness m) (elite m) (pm m) (base m) (fsum m) (rnd m)
       (fentities m) a b.

(** [for i := c; i < m.n; i += NC]: the slots worker [c] visits, in order.
    [fuel] bounds the unfolding; [nn] slots are never exceeded. *)
Fixpoint worker_slots (fuel : nat) (i : nat) (nn : nat) : list nat :=
  match fuel with
  | O => []
  | S fuel' => if (i <? nn)%nat then i :: worker_slots fuel' (i + NC) nn else []
  end.

(** The callbacks of one worker, in its own order. *)
Fixpoint run_slots {S : Type} (f : nat -> nat -> S -> option S) (c : nat)
         (slots : list nat) (s : S) : option S :=
  match slots with
  | [] => Some s
  | i :: slots' =>
      match f c i s with
      | None => None
      | Some s' => run_slots f c slots' s'
      end
  end.

Fixpoint run_workers {S : Type} (f : nat -> nat -> S -> option S) (nn : nat)
         (cs : list nat) (s : S) : option S :=
  match cs with
  | [] => Some s
  | c :: cs' =>
      match run_slots f c (worker_slots nn c nn) s with
      | None => None
      | Some s' => run_workers f nn cs' s'
      end
  end.

(** [func (m *GA) do(f func(c, i int))], on a state [s] holding the engine
    and the locals the callback captures. The [NC] goroutines run
    concurrently; in every use below the callbacks of distinct workers write
    distinct cells (slot [i] of a slice, cell [c] of a per-worker array) and
    read nothing another worker writes, so all interleavings leave the state
    that running the workers one after the other leaves. *)
Definition do {S : Type} (nn : Z) (f : nat -> nat -> S -> option S) (s : S)
  : option S :=
  run_workers f (Z.to_nat nn) (seq O NC) s.

(** [func sum(xs []float64) float64]. *)
Definition sum (xs : list F) : F := fold_left fadd xs f0.

(** [func max(xs []float64) (int, float64)]. *)
Fixpoint max_loop (xs : list F) (i : nat) (k : nat) (m : F) : nat * F :=
  match xs with
  | [] => (k, m)
  | x :: xs' => if m <? x then max_loop xs' (S i) i x else max_loop xs' (S i) k m
  end.

Definition max (xs : list F) : nat * F := max_loop xs O O neg_inf.

(** The per-worker arrays of [adjust]. *)
Record partial : Type := mkPartial {
  sms : list F;
  svs : list F;
  mfs : list F;
  mes : list (option Entity)
}.

(** [xs[c] += v]. *)
Definition bump (xs : list F) (c : nat) (v : F) : option (list F) :=
  match nth_error xs c with
  | None => None
  | Some a => store xs c (a + v)
  end.

(** First callback of [adjust]. *)
Definition adjust_eval (c i : nat) (s : GA * partial) : option (GA * partial) :=
  let '(m, p) := s in
  match nth_error (entities m) i with
  | None => None
  | Some e =>
      let f := Fitness e in
      match store (fentities m) i f, bump (sms p) c f, bump (svs p) c (f * f),
            nth_error (mfs p) c with
      | Some fs, Some sms', Some svs', Some mf =>
          let m := set_fentities m fs in
          if mf <? f then
            match store (mfs p) c f, store (mes p) c (Some e) with
            | Some mfs', Some mes' => Some (m, mkPartial sms' svs' mfs' mes')
            | _, _ => None
            end
          else Some (m, mkPartial sms' svs' (mfs p) (mes p))
      | _, _, _, _ => None
      end
  end.

(** Second callback of [adjust]. *)
Definition adjust_weigh (mean std : F) (c i : nat) (s : GA * list F)
  : option (GA * list F) :=
  let '(m, fsums) := s in
  match nth_error (fentities m) i with
  | None => None
  | Some fi =>
      let f := f1 / (f1 + Exp ((mean - fi) / std)) in
      match store (fentities m) i f, bump fsums c f with
      | Some fs, Some fsums' => Some (set_fentities m fs, fsums')
      | _, _ => None
      end
  end.

(** The update of [m.pm] in [adjust]. *)
Definition adjust_pm (m : GA) (std : F) : GA :=
  if f0 <? base m then
    let p := pm m * (c0_2 * Exp (of_int (-5) * std / base m) + c0_9) in
    if c0_1 <? p then set_pm m c0_1
    else if p <? c0_0001 then set_pm m c0_0001
    else set_pm m p
  else m.

(** The mean and the standard deviation [adjust] derives from the sums. *)
Definition adjust_mean (m : GA) (p : partial) : F := sum (sms p) / of_int (n m).
Definition adjust_var (m : GA) (p : partial) : F :=
  sum (svs p) / of_int (n m) - adjust_mean m p * adjust_mean m p.
Definition adjust_std (m : GA) (p : partial) : F :=
  if f0 <? adjust_var m p then fsqrt (adjust_var m p) else f1.

(** [func (m *GA) adjust() float64]. *)
Definition adjust (m : GA) : option (F * GA) :=
  let p := mkPartial (repeat f0 NC) (repeat f0 NC) (repeat neg_inf NC)
                     (repeat None NC) in
  match do (n m) adjust_eval (m, p) with
  | None => None
  | Some (m, p) =>
      let '(c, f) := max (mfs p) in
      let updated :=
        if fitness m <? f then
          match nth_error (mes p) c with
          | None => None
          | Some e => Some (set_elite m f e)
          end
        else Some m in
      match updated with
      | None => None
      | Some m' =>
          let mean := adjust_mean m p in
          let std := adjust_std m p in
          let m' := adjust_pm m' std in
          match do (n m') (adjust_weigh mean std) (m', repeat f0 NC) with
          | None => None
          | Some (m', fsums) => Some (std, set_fsum m' (sum fsums))
          end
      end
  end.

(** [func (m *GA) select2()]: the scan of [m.fentities]. *)
Fixpoint select2_loop (m : GA) (fs : list F) (i : nat) (fz d ry : F)
         (isx : bool) (x y : Entity) (wx wy : F)
  : option (Entity * Entity * F * F) :=
  match fs with
  | [] => Some (x, y, wx, wy)
  | f :: fs' =>
      if fz <=? f then
        if isx then
          match nth_error (entities m) i with
          | None => None
          | Some xi =>
              select2_loop m fs' (S i) (fz + d - f * ry) d ry false xi y f wy
          end
        else
          match nth_error (entities m) i with
          | None => None
          | Some yi => Some (x, yi, wx, f)
          end
      else select2_loop m fs' (S i) (fz - f) d ry isx x y wx wy
  end.

(** [select2], given the two numbers [m.rand()] delivers. *)
Definition select2 (m : GA) (rx ry : F) : option (Entity * Entity * F) :=
  let '(rx, ry) := if ry <? rx then (ry, rx) else (rx, ry) in
  let fz := fsum m * rx in
  let d := fsum m * (ry - rx) in
  match nth_error (entities m) O, index (entities m) (n m - 1) with
  | Some x, Some y =>
      match select2_loop m (fentities m) O fz d ry true x y f0 f0 with
      | Some (x, y, wx, wy) => Some (x, y, wx / (wx + wy))
      | None => None
      end
  | _, _ => None
  end.

(** The callback of [Next]; [draws i] are the numbers slot [i] receives. *)
Definition Next_slot (draws : nat -> F * F * F) (c i : nat) (m : GA)
  : option GA :=
  let '(rx, ry, r) := draws i in
  match select2 m rx ry with
  | None => None
  | Some (x, y, w) =>
      let z := Crossover x y w in
      let z := if r <? pm m then Mutate z else z in
      match store (tentities m) i (Some z) with
      | None => None
      | Some t => Some (set_tentities m t)
      end
  end.

(** [func (m *GA) Next() (Entity, float64)]. *)
Definition Next (m : GA) : option (option Entity * F * GA) :=
  let draws := rnd m O in
  let m := set_rnd m (fun g => rnd m (S g)) in
  match do (n m) (Next_slot draws) m with
  | None => None
  | Some m =>
      match filled (tentities m) with
      | None => None
      | Some ents =>
          let m := set_buffers m ents (map Some (entities m)) in
          match adjust m with
          | None => None
          | Some (_, m) => Some (elite m, fitness m, m)
          end
      end
  end.

(** What [Evolve]'s loop leaves: the counters [i] and [j], the local
    [fitness] and the engine. [j] counts the calls of [Next]. *)
Record run : Type := mkRun {
  run_i : Z;
  run_j : Z;
  run_fitness : F;
  run_ga : GA
}.

(** [for j := 0; i < k && j < max; i, j = i+1, j+1 { ... }]. *)
Fixpoint Evolve_loop (fuel : nat) (k max i j : Z) (fit : F) (m : GA)
  : option run :=
  if ((i <? k) && (j <? max))%Z then
    match fuel with
    | O => None
    | S fuel' =>
        match Next m with
        | None => None
        | Some (_, f, m) =>
            if fit <? f
            then Evolve_loop fuel' k max (0 + 1)%Z (j + 1)%Z f m
            else Evolve_loop fuel' k max (i + 1)%Z (j + 1)%Z fit m
        end
    end
  else Some (mkRun i j fit m).

Definition Evolve_run (k max : Z) (m : GA) : option run :=
  Evolve_loop (Z.to_nat max) k max 0%Z 0%Z (fitness m) m.

(** [func (m *GA) Evolve(k int, max int) (Entity, float64, bool)], with the
    engine it leaves. *)
Definition Evolve (k max : Z) (m : GA)
  : option (option Entity * F * bool * GA) :=
  match Evolve_run k max m with
  | None => None
  | Some r =>
      Some (elite (run_ga r), run_fitness r, (k <=? run_i r)%Z, run_ga r)
  end.

(** The callback of [New]: [m.entities[i] = g()], [g i] being the entity the
    call made for slot [i] returns. *)
Definition New_slot (g : nat -> Entity) (c i : nat)
           (ents : list (option Entity)) : option (list (option Entity)) :=
  store ents i (Some (g i)).

(** [func New(n int, g func() Entity) *GA]. The three [make] panic on a
    negative [n]. With [NC = 0] (the variable overwritten by the caller) no
    slot would be written and the population would stay nil; that engine is
    not represented here and counts as a fault. *)
Definition New (nn : Z) (g : nat -> Entity) (seed : nat -> nat -> F * F * F)
  : option GA :=
  match make f0 nn, make (@None Entity) nn, make (@None Entity) nn with
  | Some fents, Some ents, Some tents =>
      match do nn (New_slot g) ents with
      | None => None
      | Some ents =>
          match filled ents with
          | None => None
          | Some ents =>
              let m := mkGA nn neg_inf None c0_1 f0 f0 seed fents ents tents in
              match adjust m with
              | None => None
              | Some (std, m) => Some (set_base m std)
              end
          end
      end
  | _, _, _ => None
  end.

End Engine.
End GaPar.


(* ================================================================== *)
(** * Facts about slices *)
(* ================================================================== *)

Section SliceFacts.
Context {A : Type}.

Lemma store_length (l : list A) i v l' :
  store l i v = Some l' -> length l' = length l.
Proof.
  revert i l'; induction l as [|a l IH]; intros [|i] l' H; simpl in H;
    try discriminate.
  - now inversion H.
  - destruct (store l i v) eqn:E; [|discriminate].
    inversion H; subst; simpl; f_equal; eauto.
Qed.

Lemma store_in_range (l : list A) i v :
  (i < length l)%nat -> exists l', store l i v = Some l'.
Proof.
  revert i; induction l as [|a l IH]; intros [|i] H; simpl in *; try lia.
  - eauto.
  - destruct (IH i) as [l' E]; [lia|]. rewrite E; eauto.
Qed.

Lemma store_out_of_range (l : list A) i v :
  (length l <= i)%nat -> store l i v = None.
Proof.
  revert i; induction l as [|a l IH]; intros [|i] H; simpl in *;
    try reflexivity; try lia.
  rewrite IH; [reflexivity|lia].
Qed.

Lemma store_app (pre : list A) a post v :
  store (pre ++ a :: post) (length pre) v = Some (pre ++ v :: post).
Proof.
  induction pre as [|b pre IH]; simpl; [reflexivity|now rewrite IH].
Qed.

Lemma nth_error_store (l : list A) i v l' j :
  store l i v = Some l' ->
  nth_error l' j = if Nat.eqb j i then Some v else nth_error l j.
Proof.
  revert i l' j; induction l as [|a l IH]; intros [|i] l' j H; simpl in H;
    try discriminate.
  - inversion H; subst. destruct j; reflexivity.
  - destruct (store l i v) eqn:E; [|discriminate].
    inversion H; subst. destruct j as [|j]; simpl; [reflexivity|].
    now apply IH.
Qed.

Lemma list_ext (l1 l2 : list A) :
  (forall i, nth_error l1 i = nth_error l2 i) -> l1 = l2.
Proof.
  revert l2; induction l1 as [|a l1 IH]; intros [|b l2] H.
  - reflexivity.
  - specialize (H O); discriminate.
  - specialize (H O); discriminate.
  - f_equal.
    + specialize (H O); now inversion H.
    + apply IH; intro i; exact (H (S i)).
Qed.

Lemma make_some (zero : A) nn l :
  make zero nn = Some l -> (0 <= nn)%Z /\ l = repeat zero (Z.to_nat nn).
Proof.
  unfold make; destruct (Z.ltb_spec nn 0); intro H'; inversion H'; split;
    [lia|reflexivity].
Qed.

Lemma make_none (zero : A) nn : make zero nn = None <-> (nn < 0)%Z.
Proof.
  unfold make; destruct (Z.ltb_spec nn 0); split; intro H';
    try discriminate; try lia; reflexivity.
Qed.

Lemma filled_map_Some (l : list A) : filled (map Some l) = Some l.
Proof. induction l as [|a l IH]; simpl; [reflexivity|now rewrite IH]. Qed.

Lemma filled_length (l : list (option A)) r :
  filled l = Some r -> length r = length l.
Proof.
  revert r; induction l as [|[a|] l IH]; intros r H; simpl in H;
    try discriminate.
  - now inversion H.
  - destruct (filled l); [|discriminate]. inversion H; subst; simpl; eauto.
Qed.

Lemma filled_spec (l : list (option A)) r :
  filled l = Some r -> l = map Some r.
Proof.
  revert r; induction l as [|[a|] l IH]; intros r H; simpl in H;
    try discriminate.
  - now inversion H.
  - destruct (filled l); [|discriminate]. inversion H; subst; simpl.
    f_equal; eauto.
Qed.

Lemma index_last (l : list A) (a : A) :
  index (l ++ [a]) (Z.of_nat (length (l ++ [a])) - 1) = Some a.
Proof.
  unfold index. rewrite length_app; simpl.
  destruct (Z.ltb_spec (Z.of_nat (length l + 1) - 1) 0); [lia|].
  replace (Z.to_nat (Z.of_nat (length l + 1) - 1)) with (length l) by lia.
  rewrite nth_error_app2 by lia. now rewrite Nat.sub_diag.
Qed.

Lemma index_in_range (l : list A) z :
  (0 <= z < Z.of_nat (length l))%Z -> exists a, index l z = Some a.
Proof.
  intros H. unfold index. destruct (Z.ltb_spec z 0); [lia|].
  destruct (nth_error l (Z.to_nat z)) eqn:E; [eauto|].
  apply nth_error_None in E; lia.
Qed.

End SliceFacts.


(* ================================================================== *)
(** * The sequential engine: what its loops compute *)
(* ================================================================== *)

Module SeqFacts.
Import GaSeq.

Section Generic.
Context {F : Type} {num : FloatOps F}.
Variable Exp : F -> F.
Variable Entity : Type.
Variable Fitness : Entity -> F.
Variable Mutate : Entity -> Entity.
Variable Crossover : Entity -> Entity -> Entity.
Variable same : Entity -> Entity -> bool.

Local Open Scope fl_scope.
Local Abbreviation GA := (@GA F Entity).

(** The three slices have the length [n]: what [New] establishes. *)
Definition wf (m : GA) : Prop :=
  n m = Z.of_nat (length (entities m)) /\
  length (fentities m) = length (entities m) /\
  length (tentities m) = length (entities m).

(** The logistic weight of a raw fitness. *)
Definition weight (mean std f : F) : F :=
  f1 / (f1 + Exp ((mean - f) / std)).

(** The running mean and second moment after the fitness values [fs],
    the first of which has index [i]. *)
Fixpoint moments (fs : list F) (i : nat) (mean std2 : F) : F * F :=
  match fs with
  | [] => (mean, std2)
  | f :: fs' =>
      let k1 := f1 / of_int (Z.of_nat i + 1) in
      let k2 := f1 - k1 in
      moments fs' (S i) (k1 * f + k2 * mean) (k1 * f * f + k2 * std2)
  end.

(** The elite and its fitness after the entities [xs] have been seen. *)
Fixpoint champion (xs : list Entity) (e : option Entity) (fe : F)
  : option Entity * F :=
  match xs with
  | [] => (e, fe)
  | x :: xs' =>
      if fe <? Fitness x then champion xs' (Some x) (Fitness x)
      else champion xs' e fe
  end.

(** Statistics of a population. *)
Definition mean_of (xs : list Entity) : F :=
  fst (moments (map Fitness xs) O f0 f0).
Definition variance_of (xs : list Entity) : F :=
  snd (moments (map Fitness xs) O f0 f0) - mean_of xs * mean_of xs.
Definition std_of (xs : list Entity) : F :=
  if f0 <? variance_of xs then fsqrt (variance_of xs) else f1.
Definition weights_of (xs : list Entity) : list F :=
  map (weight (mean_of xs) (std_of xs)) (map Fitness xs).

(** The engine [fitness] leaves. *)
Definition fitness_result (m : GA) : GA :=
  let xs := entities m in
  mkGA (n m)
       (fst (champion xs (elite m) (felite m)))
       (snd (champion xs (elite m) (felite m)))
       xs (rnd m)
       (fold_left fadd (weights_of xs) f0)
       (mean_of xs) (std_of xs) (std0 m)
       (weights_of xs) (tentities m).

(** The fitness cache, the weights and the statistics are those of the
    current population. *)
Definition consistent (m : GA) : Prop :=
  fentities m = weights_of (entities m) /\
  fsum m = fold_left fadd (weights_of (entities m)) f0 /\
  mean m = mean_of (entities m) /\
  std m = std_of (entities m).

Lemma sigmoid_loop_spec (fs : list F) :
  forall (m : GA) pre,
    fentities m = pre ++ fs ->
    sigmoid_loop Exp fs (length pre) m =
    Some (set_fsum
            (set_fentities m (pre ++ map (weight (mean m) (std m)) fs))
            (fold_left fadd (map (weight (mean m) (std m)) fs) (fsum m))).
Proof.
  induction fs as [|f fs IH]; intros m pre Hm; simpl.
  - destruct m; simpl in *; subst; now rewrite app_nil_r.
  - rewrite Hm, store_app.
    specialize (IH (set_fsum (set_fentities m
                      (pre ++ weight (mean m) (std m) f :: fs))
                      (fsum m + weight (mean m) (std m) f))
                   (pre ++ [weight (mean m) (std m) f])).
    rewrite length_app, Nat.add_comm in IH; simpl in IH.
    fold (weight (mean m) (std m) f).
    rewrite IH by (destruct m; simpl; now rewrite <- app_assoc).
    destruct m; simpl. now rewrite <- app_assoc.
Qed.

Lemma sigmoid_spec (m : GA) :
  sigmoid Exp m =
  Some (set_fsum
          (set_fentities m (map (weight (mean m) (std m)) (fentities m)))
          (fold_left fadd (map (weight (mean m) (std m)) (fentities m)) f0)).
Proof.
  unfold sigmoid.
  rewrite (sigmoid_loop_spec (fentities m) (set_fsum m f0) []);
    destruct m; reflexivity.
Qed.

Lemma fitness_loop_spec (xs : list Entity) :
  forall (m : GA) mu s2 pre post,
    fentities m = pre ++ post ->
    length post = length xs ->
    fitness_loop Fitness xs (length pre) mu s2 m =
    Some (moments (map Fitness xs) (length pre) mu s2,
          set_elite (set_fentities m (pre ++ map Fitness xs))
                    (fst (champion xs (elite m) (felite m)))
                    (snd (champion xs (elite m) (felite m)))).
Proof.
  induction xs as [|x xs IH]; intros m mu s2 pre post Hm Hlen; simpl.
  - destruct post; [|discriminate].
    destruct m; simpl in *; subst; reflexivity.
  - destruct post as [|p post]; [discriminate|].
    rewrite Hm, store_app.
    assert (Hpre : length (pre ++ [Fitness x]) = S (length pre))
      by (rewrite length_app; simpl; lia).
    rewrite <- Hpre.
    destruct m as [n0 e0 fe0 ents r0 fs0 mu0 sd0 sd00 fents tents];
      simpl in *.
    destruct (fe0 <? Fitness x); simpl.
    + erewrite IH with (post := post);
        [ | simpl; now rewrite <- app_assoc | lia ].
      simpl. now rewrite <- app_assoc, Hpre.
    + erewrite IH with (post := post);
        [ | simpl; now rewrite <- app_assoc | lia ].
      simpl. now rewrite <- app_assoc, Hpre.
Qed.

Lemma fitness_spec (m : GA) :
  length (fentities m) = length (entities m) ->
  fitness Exp Fitness m = Some (fitness_result m).
Proof.
  intros Hlen. unfold fitness.
  rewrite (fitness_loop_spec (entities m) m f0 f0 [] (fentities m) eq_refl Hlen).
  simpl length.
  destruct (moments (map Fitness (entities m)) 0 f0 f0) as [mu s2] eqn:E.
  assert (Hmu : mean_of (entities m) = mu) by (unfold mean_of; now rewrite E).
  assert (Hvar : variance_of (entities m) = s2 - mu * mu)
    by (unfold variance_of; now rewrite Hmu, E).
  assert (Hstd : std_of (entities m) =
                 if f0 <? s2 - mu * mu then fsqrt (s2 - mu * mu) else f1)
    by (unfold std_of; now rewrite Hvar).
  unfold fitness_result, weights_of. rewrite Hmu, Hstd.
  destruct (f0 <? s2 - mu * mu); rewrite sigmoid_spec; destruct m; reflexivity.
Qed.

Lemma fitness_result_consistent (m : GA) : consistent (fitness_result m).
Proof. unfold consistent, fitness_result; simpl; auto. Qed.

Lemma fitness_result_wf (m : GA) :
  n m = Z.of_nat (length (entities m)) ->
  length (tentities m) = length (entities m) ->
  wf (fitness_result m).
Proof.
  intros Hn Ht. unfold wf, fitness_result, weights_of; simpl.
  now rewrite !length_map.
Qed.

(** Whatever the arithmetic: the standard deviation is the square root of
    the computed variance when that is strictly positive, and 1 when it is
    not (zero, negative or NaN). *)
Lemma fitness_std_guard (m : GA) :
  length (fentities m) = length (entities m) ->
  exists m',
    fitness Exp Fitness m = Some m' /\
    std m' = if f0 <? variance_of (entities m)
             then fsqrt (variance_of (entities m)) else f1.
Proof.
  intros Hlen. rewrite fitness_spec by assumption.
  eexists. split; reflexivity.
Qed.

(** ** Selection and the generation step *)

(** The two parents [select2] returns for the numbers [r1] and [r2]. *)
Definition parents (m : GA) (r1 r2 : F) : option (Entity * Entity) :=
  let '(r1, r2) := if r2 <? r1 then (r2, r1) else (r1, r2) in
  match nth_error (entities m) O, index (entities m) (n m - 1) with
  | Some x, Some y =>
      select2_loop same m (fentities m) O
                   (fsum m * r1) (fsum m * (r2 - r1)) r2 x y
  | _, _ => None
  end.

(** The entity a slot receives, from the three numbers it draws. *)
Definition child (m : GA) (pm r1 r2 r : F) : option Entity :=
  match parents m r1 r2 with
  | Some (x, y) =>
      let z := Crossover x y in Some (if r <? pm then Mutate z else z)
  | None => None
  end.

(** The children of [k] consecutive slots, three numbers each. *)
Fixpoint offspring (m : GA) (pm : F) (r : nat -> F) (k : nat)
  : option (list Entity) :=
  match k with
  | O => Some []
  | S k' =>
      match child m pm (r 0%nat) (r 1%nat) (r 2%nat) with
      | None => None
      | Some z =>
          match offspring m pm (fun j => r (S (S (S j)))) k' with
          | None => None
          | Some zs => Some (z :: zs)
          end
      end
  end.

(** The generator after [k] slots. *)
Fixpoint drop3 (k : nat) (r : nat -> F) : nat -> F :=
  match k with
  | O => r
  | S k' => drop3 k' (fun j => r (S (S (S j))))
  end.

(** Two engines with the same population, weights and weight sum. *)
Definition same_population (m0 m : GA) : Prop :=
  entities m = entities m0 /\ fentities m = fentities m0 /\
  fsum m = fsum m0 /\ n m = n m0.

Lemma seq_select2_loop_frame (m0 m : GA) fs :
  entities m = entities m0 ->
  forall i t d r2 x y,
    select2_loop same m fs i t d r2 x y = select2_loop same m0 fs i t d r2 x y.
Proof.
  intros He. induction fs as [|f fs IH]; intros; cbn [select2_loop];
    [reflexivity|].
  rewrite He. destruct (t <=? f); [|apply IH].
  destruct (nth_error (entities m0) 0); [|reflexivity].
  destruct (same x e); [|reflexivity].
  destruct (nth_error (entities m0) i); [apply IH|reflexivity].
Qed.

Lemma parents_frame (m0 m : GA) r1 r2 :
  same_population m0 m -> parents m r1 r2 = parents m0 r1 r2.
Proof.
  intros (He & Hf & Hs & Hn). unfold parents.
  rewrite He, Hf, Hs, Hn. destruct (r2 <? r1);
    destruct (nth_error (entities m0) 0); try reflexivity;
    destruct (index (entities m0) (n m0 - 1)); try reflexivity;
    now apply seq_select2_loop_frame.
Qed.

Lemma select2_spec (m : GA) :
  select2 same m =
  match parents m (rnd m 0%nat) (rnd m 1%nat) with
  | Some (x, y) => Some (x, y, set_rnd m (fun k => rnd m (S (S k))))
  | None => None
  end.
Proof.
  unfold select2, parents, Float64.
  cbn [rnd entities fentities fsum n set_rnd].
  destruct (rnd m 1%nat <? rnd m 0%nat);
    destruct (nth_error (entities m) 0); try reflexivity;
    destruct (index (entities m) (n m - 1)); try reflexivity;
    rewrite (@seq_select2_loop_frame m) by reflexivity;
    match goal with
    | |- context [select2_loop same m ?a ?b ?c ?d ?e ?f ?g] =>
        destruct (select2_loop same m a b c d e f g) as [[? ?]|]
    end; try reflexivity; destruct m; reflexivity.
Qed.

Lemma Next_loop_spec (m0 : GA) (pm : F) (k : nat) :
  forall (m : GA) pre post,
    same_population m0 m ->
    tentities m = pre ++ post ->
    length post = k ->
    Next_loop Mutate Crossover same pm (seq (length pre) k) m =
    match offspring m0 pm (rnd m) k with
    | None => None
    | Some zs =>
        Some (set_rnd (set_tentities m (pre ++ map Some zs))
                      (drop3 k (rnd m)))
    end.
Proof.
  induction k as [|k IH]; intros m pre post Hpop Ht Hlen.
  - destruct post; [|discriminate]. simpl.
    destruct m; simpl in *; subst; now rewrite app_nil_r.
  - destruct post as [|p post]; [discriminate|].
    simpl seq. cbn [Next_loop offspring].
    rewrite select2_spec. unfold child.
    rewrite (parents_frame (rnd m 0%nat) (rnd m 1%nat) Hpop).
    destruct (parents m0 (rnd m 0%nat) (rnd m 1%nat)) as [[x y]|];
      [|reflexivity].
    unfold Float64. cbn [rnd tentities set_rnd].
    rewrite Ht, store_app.
    assert (Hpre : length (pre ++ [Some (if rnd m 2%nat <? pm
                                         then Mutate (Crossover x y)
                                         else Crossover x y)])
                   = S (length pre))
      by (rewrite length_app; simpl; lia).
    rewrite <- Hpre.
    erewrite IH with (post := post).
    + cbn [rnd set_rnd set_tentities].
      destruct (offspring m0 pm (fun j => rnd m (S (S (S j)))) k);
        [|reflexivity].
      destruct m; cbn. now rewrite <- app_assoc.
    + destruct Hpop as (He & Hf & Hs & Hn). destruct m; cbn in *.
      repeat split; assumption.
    + destruct m; cbn. now rewrite <- app_assoc.
    + simpl in Hlen; lia.
Qed.

Lemma offspring_length (m : GA) pm k :
  forall r zs, offspring m pm r k = Some zs -> length zs = k.
Proof.
  induction k as [|k IH]; intros r zs H; simpl in H.
  - now inversion H.
  - destruct (child m pm (r 0%nat) (r 1%nat) (r 2%nat)); [|discriminate].
    destruct (offspring m pm (fun j => r (S (S (S j)))) k) eqn:E;
      [|discriminate].
    inversion H; subst; simpl; f_equal; eauto.
Qed.

(** The engine [Next] leaves when the children are [zs]. *)
Definition Next_result (m : GA) (zs : list Entity) : GA :=
  fitness_result
    (set_buffers (set_rnd m (drop3 (length (tentities m)) (rnd m)))
                 zs (map Some (entities m))).

Lemma Next_spec (m : GA) :
  wf m ->
  Next Exp Fitness Mutate Crossover same m =
  match offspring m (mutation_probability Exp m) (rnd m)
                  (length (tentities m)) with
  | None => None
  | Some zs => Some (elite (Next_result m zs), Next_result m zs)
  end.
Proof.
  intros (Hn & Hf & Ht). unfold Next.
  rewrite (@Next_loop_spec m (mutation_probability Exp m)
             (length (tentities m)) m [] (tentities m));
    [ | repeat split | reflexivity | reflexivity ].
  destruct (offspring m (mutation_probability Exp m) (rnd m)
                      (length (tentities m))) as [zs|] eqn:E;
    [|reflexivity].
  apply offspring_length in E.
  cbn [app tentities set_rnd set_tentities].
  rewrite filled_map_Some.
  rewrite fitness_spec.
  - unfold Next_result. destruct m; reflexivity.
  - destruct m; cbn in *. congruence.
Qed.

(** ** No fault on a well-formed engine *)

Lemma seq_select2_loop_total (m : GA) e0 ents fs :
  entities m = e0 :: ents ->
  forall i t d r2 x y,
    (i + length fs <= length (entities m))%nat ->
    exists x' y', select2_loop same m fs i t d r2 x y = Some (x', y').
Proof.
  intros He. induction fs as [|f fs IH]; intros i t d r2 x y Hi;
    cbn [select2_loop].
  - eauto.
  - simpl in Hi.
    assert (Hnth : exists xi, nth_error (entities m) i = Some xi).
    { destruct (nth_error (entities m) i) eqn:E; [eauto|].
      apply nth_error_None in E; lia. }
    destruct Hnth as [xi Hxi].
    assert (H0 : nth_error (entities m) 0 = Some e0) by now rewrite He.
    destruct (t <=? f); [|apply IH; lia].
    rewrite H0. destruct (same x e0); rewrite Hxi; [apply IH; lia|eauto].
Qed.

Lemma parents_total (m : GA) r1 r2 :
  wf m -> entities m <> [] ->
  exists x y, parents m r1 r2 = Some (x, y).
Proof.
  intros (Hn & Hf & Ht) Hne. unfold parents.
  destruct (entities m) as [|e0 ents] eqn:He; [congruence|].
  cbn [nth_error].
  destruct (@index_in_range _ (e0 :: ents) (n m - 1)) as [y Hy].
  { rewrite Hn. simpl length. lia. }
  rewrite Hy.
  destruct (r2 <? r1);
    eapply seq_select2_loop_total; eauto; rewrite Hf, He; simpl; lia.
Qed.

Lemma offspring_total (m : GA) pm k :
  wf m -> (k = O \/ entities m <> []) ->
  forall r, exists zs, offspring m pm r k = Some zs.
Proof.
  intros Hwf Hk. induction k as [|k IH]; intros r; simpl; [eauto|].
  destruct Hk as [Hk|Hne]; [discriminate|].
  unfold child.
  destruct (parents_total (r 0%nat) (r 1%nat) Hwf Hne) as (x & y & Hp).
  rewrite Hp.
  destruct (IH (or_intror Hne) (fun j => r (S (S (S j))))) as [zs Hzs].
  rewrite Hzs. eauto.
Qed.

Lemma Next_result_wf (m : GA) zs :
  wf m -> length zs = length (tentities m) -> wf (Next_result m zs).
Proof.
  intros (Hn & Hf & Ht) Hz. unfold Next_result.
  apply fitness_result_wf; destruct m; cbn in *.
  - rewrite Hn. f_equal. congruence.
  - rewrite length_map. congruence.
Qed.

Lemma seq_Next_total (m : GA) :
  wf m ->
  exists zs,
    offspring m (mutation_probability Exp m) (rnd m)
              (length (tentities m)) = Some zs /\
    Next Exp Fitness Mutate Crossover same m =
      Some (elite (Next_result m zs), Next_result m zs) /\
    wf (Next_result m zs).
Proof.
  intros Hwf.
  destruct (@offspring_total m (mutation_probability Exp m)
              (length (tentities m)) Hwf) with (r := rnd m) as [zs Hzs].
  { destruct Hwf as (Hn & Hf & Ht).
    destruct (entities m); [left; simpl in Ht; exact Ht|right; discriminate]. }
  exists zs. rewrite Next_spec, Hzs by assumption.
  split; [reflexivity|]. split; [reflexivity|].
  apply Next_result_wf; [assumption|].
  now apply offspring_length in Hzs.
Qed.

(** ** Construction *)

(** The engine [New] starts [fitness] on. *)
Definition New_blank (nn : Z) (g : nat -> Entity) (seed : nat -> F) : GA :=
  mkGA nn None neg_inf (map g (seq O (Z.to_nat nn))) seed f0 f0 f0 f0
       (repeat f0 (Z.to_nat nn)) (repeat None (Z.to_nat nn)).

Lemma seq_New_spec (nn : Z) g seed :
  New Exp Fitness nn g seed =
  if (nn <? 0)%Z then None
  else Some (set_std0 (fitness_result (New_blank nn g seed))
                      (std (fitness_result (New_blank nn g seed)))).
Proof.
  unfold New, make. destruct (nn <? 0)%Z; [reflexivity|].
  rewrite repeat_length. fold (New_blank nn g seed).
  rewrite fitness_spec; [reflexivity|].
  unfold New_blank; cbn. now rewrite repeat_length, length_map, length_seq.
Qed.

Lemma seq_New_blank_wf nn g seed : (0 <= nn)%Z -> wf (New_blank nn g seed).
Proof.
  intros H. unfold wf, New_blank; cbn.
  rewrite !repeat_length, length_map, length_seq. repeat split; lia.
Qed.

Lemma seq_New_wf nn g seed m :
  New Exp Fitness nn g seed = Some m -> wf m.
Proof.
  rewrite seq_New_spec. destruct (Z.ltb_spec nn 0); [discriminate|].
  intros E; inversion E; subst; clear E.
  destruct (@fitness_result_wf (New_blank nn g seed)) as (Hn & Hf & Ht).
  - unfold New_blank; cbn. rewrite length_map, length_seq; lia.
  - unfold New_blank; cbn. now rewrite repeat_length, length_map, length_seq.
  - repeat split; assumption.
Qed.

(** ** The evolution loop *)

Lemma seq_Evolve_loop_total (k max : Z) (fuel : nat) :
  forall i j e (m : GA),
    wf m ->
    (Z.to_nat (max - j) <= fuel)%nat ->
    (0 <= i <= j)%Z ->
    exists r,
      Evolve_loop Exp Fitness Mutate Crossover same fuel k max i j e m
        = Some r /\
      wf (run_ga r) /\
      (j <= run_j r)%Z /\ (run_j r <= Z.max j max)%Z /\
      (0 <= run_i r <= run_j r)%Z /\ (run_i r <= Z.max i k)%Z /\
      (k <= run_i r \/ max <= run_j r)%Z /\
      (k <= i \/ max <= j -> r = mkRun i j e m)%Z.
Proof.
  induction fuel as [|fuel IH]; intros i j e m Hwf Hfuel Hij;
    cbn [Evolve_loop];
    destruct (Z.ltb_spec i k); destruct (Z.ltb_spec j max);
    cbn [andb];
    try (eexists; split; [reflexivity|]; cbn [run_ga run_i run_j];
         split; [assumption|]; repeat split; try lia; fail).
  - lia.
  - destruct (seq_Next_total Hwf) as (zs & _ & HN & Hwf').
    rewrite HN.
    destruct (differs same (elite (Next_result m zs)) e).
    + destruct (IH (0 + 1)%Z (j + 1)%Z (elite (Next_result m zs))
                   (Next_result m zs) Hwf')
        as (r & Hr & Hw & H1 & H2 & H3 & H4 & H5 & _); try lia.
      exists r. split; [exact Hr|]. split; [exact Hw|]. repeat split; lia.
    + destruct (IH (i + 1)%Z (j + 1)%Z e (Next_result m zs) Hwf')
        as (r & Hr & Hw & H1 & H2 & H3 & H4 & H5 & _); try lia.
      exists r. split; [exact Hr|]. split; [exact Hw|]. repeat split; lia.
Qed.

Lemma seq_Evolve_run_total (k max : Z) (m : GA) :
  wf m ->
  exists r,
    Evolve_run Exp Fitness Mutate Crossover same k max m = Some r /\
    wf (run_ga r) /\
    (0 <= run_j r <= Z.max 0 max)%Z /\
    (0 <= run_i r <= run_j r)%Z /\ (run_i r <= Z.max 0 k)%Z /\
    (k <= run_i r \/ max <= run_j r)%Z /\
    (k <= 0 \/ max <= 0 -> r = mkRun 0 0 (elite m) m)%Z.
Proof.
  intros Hwf. unfold Evolve_run.
  destruct (@seq_Evolve_loop_total k max (Z.to_nat max) 0%Z 0%Z (elite m) m Hwf)
    as (r & Hr & Hw & H1 & H2 & H3 & H4 & H5 & H6); try lia.
  exists r. split; [exact Hr|]. split; [exact Hw|].
  repeat split; try lia. intros; apply H6; lia.
Qed.

End Generic.
End SeqFacts.


(* ================================================================== *)
(** * The fork-join engine: the slots the workers visit *)
(* ================================================================== *)

Module ParFacts.
Import GaPar.

Section Visits.
Variable NC : nat.
Hypothesis HNC : (1 <= NC)%nat.

(** The pairs (worker, slot) in the order in which [do] is taken to run
    them. *)
Definition visits (nn : nat) : list (nat * nat) :=
  flat_map (fun c => map (pair c) (worker_slots NC nn c nn)) (seq O NC).

(** The slots of worker [c] in a list of visits. *)
Definition slots_in (vs : list (nat * nat)) (c : nat) : list nat :=
  map snd (filter (fun v => Nat.eqb (fst v) c) vs).

(** Whether slot [i] is visited. *)
Definition visited (vs : list (nat * nat)) (i : nat) : bool :=
  existsb (fun v => Nat.eqb (snd v) i) vs.

Fixpoint run_visits {S : Type} (f : nat -> nat -> S -> option S)
         (vs : list (nat * nat)) (s : S) : option S :=
  match vs with
  | [] => Some s
  | (c, i) :: vs' =>
      match f c i s with
      | None => None
      | Some s' => run_visits f vs' s'
      end
  end.

Lemma run_visits_app {S : Type} (f : nat -> nat -> S -> option S) a b s :
  run_visits f (a ++ b) s =
  match run_visits f a s with
  | None => None
  | Some s' => run_visits f b s'
  end.
Proof.
  revert s; induction a as [|[c i] a IH]; intros s; simpl; [reflexivity|].
  destruct (f c i s); [apply IH|reflexivity].
Qed.

Lemma run_slots_visits {S : Type} (f : nat -> nat -> S -> option S) c slots s :
  run_slots f c slots s = run_visits f (map (pair c) slots) s.
Proof.
  revert s; induction slots as [|i slots IH]; intros s; simpl; [reflexivity|].
  destruct (f c i s); [apply IH|reflexivity].
Qed.

Lemma run_workers_visits {S : Type} (f : nat -> nat -> S -> option S) nn cs s :
  run_workers NC f nn cs s =
  run_visits f (flat_map (fun c => map (pair c) (worker_slots NC nn c nn)) cs) s.
Proof.
  revert s; induction cs as [|c cs IH]; intros s; simpl; [reflexivity|].
  rewrite run_visits_app, run_slots_visits.
  destruct (run_visits f (map (pair c) (worker_slots NC nn c nn)) s);
    [apply IH|reflexivity].
Qed.

Lemma do_visits {S : Type} (f : nat -> nat -> S -> option S) nn s :
  do NC nn f s = run_visits f (visits (Z.to_nat nn)) s.
Proof. unfold do, visits. apply run_workers_visits. Qed.

(** *** The slots of one worker *)

Lemma worker_slots_in fuel nn : forall s i,
  In i (worker_slots NC fuel s nn) ->
  (s <= i < nn)%nat /\ exists k, i = (s + k * NC)%nat.
Proof. clear HNC.
  induction fuel as [|fuel IH]; intros s i H; simpl in H; [contradiction|].
  destruct (Nat.ltb_spec s nn); [|contradiction].
  destruct H as [H|H].
  - subst. split; [lia|]. exists O; lia.
  - apply IH in H. destruct H as (H1 & k & Hk).
    split; [lia|]. exists (S k); lia.
Qed.

Lemma worker_slots_complete fuel nn : forall s k,
  (k < fuel)%nat -> (s + k * NC < nn)%nat ->
  In (s + k * NC)%nat (worker_slots NC fuel s nn).
Proof. clear HNC.
  induction fuel as [|fuel IH]; intros s k Hk Hn; [lia|].
  simpl. destruct (Nat.ltb_spec s nn); [|lia].
  destruct k as [|k]; [left; lia|].
  right. replace (s + S k * NC)%nat with ((s + NC) + k * NC)%nat by lia.
  apply IH; lia.
Qed.

Lemma worker_slots_NoDup fuel nn : forall s,
  NoDup (worker_slots NC fuel s nn).
Proof using HNC.
  induction fuel as [|fuel IH]; intros s; simpl; [constructor|].
  destruct (Nat.ltb_spec s nn); [|constructor].
  constructor; [|apply IH].
  intros H'. apply worker_slots_in in H'. lia.
Qed.

Lemma worker_slots_mod nn c i :
  (c < NC)%nat -> In i (worker_slots NC nn c nn) -> (i mod NC = c)%nat.
Proof.
  intros Hc H. apply worker_slots_in in H. destruct H as (_ & k & Hk).
  subst. rewrite Nat.Div0.mod_add. now apply Nat.mod_small.
Qed.

Lemma worker_slots_cover nn i :
  (i < nn)%nat -> In i (worker_slots NC nn (i mod NC) nn).
Proof using HNC.
  intros Hi.
  assert (E : i = (i mod NC + (i / NC) * NC)%nat).
  { rewrite (Nat.div_mod i NC) at 1 by lia. lia. }
  rewrite E at 1. apply worker_slots_complete.
  - assert (i / NC <= i)%nat by (apply Nat.Div0.div_le_upper_bound; nia).
    lia.
  - rewrite <- E. exact Hi.
Qed.

(** *** All the visits of a generation *)

Lemma visits_in nn c i :
  In (c, i) (visits nn) <->
  (c < NC)%nat /\ In i (worker_slots NC nn c nn).
Proof. clear HNC.
  unfold visits. rewrite in_flat_map. split.
  - intros (c' & Hc' & H). apply in_map_iff in H.
    destruct H as (i' & E & Hi'). inversion E; subst.
    apply in_seq in Hc'. split; [lia|assumption].
  - intros (Hc & Hi). exists c. split; [apply in_seq; lia|].
    apply in_map. assumption.
Qed.

Lemma visits_bound nn c i :
  In (c, i) (visits nn) -> (c < NC)%nat /\ (i < nn)%nat.
Proof. clear HNC.
  intros H. apply visits_in in H. destruct H as (Hc & Hi).
  apply worker_slots_in in Hi. lia.
Qed.

Lemma visited_true vs i :
  visited vs i = true <-> exists c, In (c, i) vs.
Proof.
  unfold visited. rewrite existsb_exists. split.
  - intros ([c j] & H & E). apply Nat.eqb_eq in E. simpl in E; subst. eauto.
  - intros (c & H). exists (c, i). split; [assumption|apply Nat.eqb_refl].
Qed.

Lemma visits_cover nn i : (i < nn)%nat -> visited (visits nn) i = true.
Proof using HNC.
  intros Hi. apply visited_true. exists (i mod NC)%nat.
  apply visits_in. split; [apply Nat.mod_upper_bound; lia|].
  now apply worker_slots_cover.
Qed.

Lemma slots_in_flat_map nn c cs :
  NoDup cs ->
  slots_in (flat_map (fun c => map (pair c) (worker_slots NC nn c nn)) cs) c =
  if existsb (Nat.eqb c) cs then worker_slots NC nn c nn else [].
Proof.
  unfold slots_in.
  assert (Hsame : forall l : list nat,
            map snd (filter (fun v => Nat.eqb (fst v) c) (map (pair c) l)) = l).
  { induction l as [|a l IH]; simpl; [reflexivity|].
    rewrite Nat.eqb_refl. simpl. now rewrite IH. }
  assert (Hother : forall c' (l : list nat), c' <> c ->
            filter (fun v => Nat.eqb (fst v) c) (map (pair c') l) = []).
  { intros c' l Hc. induction l as [|a l IH]; simpl; [reflexivity|].
    destruct (Nat.eqb_spec c' c); [contradiction|assumption]. }
  induction cs as [|c' cs IH]; intros Hnd; simpl; [reflexivity|].
  inversion Hnd as [|? ? Hnotin Hnd']; subst.
  rewrite filter_app, map_app, IH by assumption.
  destruct (Nat.eqb_spec c c') as [E|E].
  - subst c'. rewrite Hsame. simpl.
    destruct (existsb (Nat.eqb c) cs) eqn:Ex.
    + apply existsb_exists in Ex. destruct Ex as (x & Hx & Hxc).
      apply Nat.eqb_eq in Hxc; subst. contradiction.
    + now rewrite app_nil_r.
  - rewrite Hother by congruence. reflexivity.
Qed.

Lemma slots_in_visits nn c :
  (c < NC)%nat -> slots_in (visits nn) c = worker_slots NC nn c nn.
Proof. clear HNC.
  intros Hc. unfold visits. rewrite slots_in_flat_map by apply seq_NoDup.
  destruct (existsb (Nat.eqb c) (seq 0 NC)) eqn:E; [reflexivity|].
  exfalso. assert (Ht : existsb (Nat.eqb c) (seq 0 NC) = true).
  { apply existsb_exists. exists c. split; [apply in_seq; lia|].
    apply Nat.eqb_refl. }
  congruence.
Qed.

Lemma visits_NoDup nn : NoDup (map snd (visits nn)).
Proof using HNC.
  unfold visits.
  assert (H : forall cs, NoDup cs -> (forall c, In c cs -> (c < NC)%nat) ->
            NoDup (map snd (flat_map (fun c => map (pair c)
                               (worker_slots NC nn c nn)) cs)) /\
            (forall i, In i (map snd (flat_map (fun c => map (pair c)
                               (worker_slots NC nn c nn)) cs)) ->
                       In (i mod NC)%nat cs)).
  { induction cs as [|c cs IH]; intros Hnd Hlt; simpl.
    - split; [constructor|intros i []].
    - inversion Hnd as [|? ? Hnotin Hnd']; subst.
      destruct IH as [IH1 IH2]; [assumption|intros; apply Hlt; now right|].
      assert (Hmap : forall l : list nat, map snd (map (pair c) l) = l).
      { induction l as [|a l IHl]; simpl; [reflexivity|now rewrite IHl]. }
      rewrite map_app, Hmap. split.
      + apply NoDup_app.
        * apply worker_slots_NoDup.
        * assumption.
        * intros i Hi Hi'. apply IH2 in Hi'.
          pose proof (@worker_slots_mod nn c i (Hlt c (or_introl eq_refl)) Hi).
          subst. contradiction.
      + intros i Hi. apply in_app_or in Hi. destruct Hi as [Hi|Hi].
        * left. symmetry.
          exact (@worker_slots_mod nn c i (Hlt c (or_introl eq_refl)) Hi).
        * right. now apply IH2. }
  apply H; [apply seq_NoDup|]. intros c Hc. apply in_seq in Hc. lia.
Qed.

End Visits.

(** ** What the callbacks of [adjust] compute *)

Section Generic.
Context {F : Type} {num : FloatOps F}.
Variable Exp : F -> F.
Variable NC : nat.
Hypothesis HNC : (1 <= NC)%nat.
Variable Entity : Type.
Variable Fitness : Entity -> F.
Variable Mutate : Entity -> Entity.
Variable Crossover : Entity -> Entity -> F -> Entity.

Local Open Scope fl_scope.
Local Abbreviation GA := (@GA F Entity).

(** The three slices have the length [n]: what [New] establishes. *)
Definition wf (m : GA) : Prop :=
  n m = Z.of_nat (length (entities m)) /\
  length (fentities m) = length (entities m) /\
  length (tentities m) = length (entities m).

(** The logistic weight of a raw fitness. *)
Definition weight (mean std f : F) : F :=
  f1 / (f1 + Exp ((mean - f) / std)).

(** The raw fitness of slot [i]. *)
Definition raw (ents : list Entity) (i : nat) : F :=
  match nth_error ents i with
  | Some e => Fitness e
  | None => f0
  end.

(** The best fitness and entity of a worker after the slots [slots]. *)
Fixpoint best (ents : list Entity) (slots : list nat) (mf : F)
         (me : option Entity) : F * option Entity :=
  match slots with
  | [] => (mf, me)
  | i :: rest =>
      match nth_error ents i with
      | None => (mf, me)
      | Some e =>
          if mf <? Fitness e then best ents rest (Fitness e) (Some e)
          else best ents rest mf me
      end
  end.

(** What worker [c] adds up of the values [g i] of its slots. *)
Definition worker_total (g : nat -> F) (nn c : nat) : F :=
  fold_left fadd (map g (worker_slots NC nn c nn)) f0.

(** The per-worker array of these sums. *)
Definition totals (g : nat -> F) (nn : nat) : list F :=
  map (worker_total g nn) (seq O NC).

Lemma bump_spec (xs : list F) c v :
  (c < length xs)%nat ->
  exists a xs',
    nth_error xs c = Some a /\ bump xs c v = Some xs' /\
    length xs' = length xs /\
    forall c', nth_error xs' c' =
               if Nat.eqb c' c then Some (a + v) else nth_error xs c'.
Proof. clear HNC.
  intros Hc. unfold bump.
  destruct (nth_error xs c) as [a|] eqn:E;
    [|apply nth_error_None in E; lia].
  destruct (store_in_range xs (a + v) Hc) as [xs' Hs].
  exists a, xs'. rewrite Hs. repeat split.
  - eapply store_length; eauto.
  - intro c'. eapply nth_error_store; eauto.
Qed.

Lemma store_spec {A : Type} (l : list A) i v :
  (i < length l)%nat ->
  exists l',
    store l i v = Some l' /\ length l' = length l /\
    forall j, nth_error l' j = if Nat.eqb j i then Some v else nth_error l j.
Proof.
  intros Hi. destruct (store_in_range l v Hi) as [l' Hs].
  exists l'. repeat split; [assumption|eapply store_length; eauto|].
  intro j. eapply nth_error_store; eauto.
Qed.

Lemma slots_in_cons c i vs c' :
  slots_in ((c, i) :: vs) c' =
  if Nat.eqb c c' then i :: slots_in vs c' else slots_in vs c'.
Proof. unfold slots_in; simpl. destruct (Nat.eqb c c'); reflexivity. Qed.

Lemma visited_cons c i vs j :
  visited ((c, i) :: vs) j = Nat.eqb i j || visited vs j.
Proof. reflexivity. Qed.

Lemma eval_visits (vs : list (nat * nat)) :
  forall (m : GA) (p : @partial F Entity),
    (forall c i, In (c, i) vs ->
                 (c < NC)%nat /\ (i < length (entities m))%nat) ->
    length (fentities m) = length (entities m) ->
    length (sms p) = NC -> length (svs p) = NC ->
    length (mfs p) = NC -> length (mes p) = NC ->
    exists fs p',
      run_visits (adjust_eval Fitness) vs (m, p)
        = Some (set_fentities m fs, p') /\
      length fs = length (fentities m) /\
      length (sms p') = NC /\ length (svs p') = NC /\
      length (mfs p') = NC /\ length (mes p') = NC /\
      (forall j, nth_error fs j =
                 if visited vs j
                 then option_map Fitness (nth_error (entities m) j)
                 else nth_error (fentities m) j) /\
      (forall c a, nth_error (sms p) c = Some a ->
         nth_error (sms p') c =
         Some (fold_left fadd (map (raw (entities m)) (slots_in vs c)) a)) /\
      (forall c a, nth_error (svs p) c = Some a ->
         nth_error (svs p') c =
         Some (fold_left fadd
                 (map (fun i => raw (entities m) i * raw (entities m) i)
                      (slots_in vs c)) a)) /\
      (forall c f e,
         nth_error (mfs p) c = Some f -> nth_error (mes p) c = Some e ->
         nth_error (mfs p') c =
           Some (fst (best (entities m) (slots_in vs c) f e)) /\
         nth_error (mes p') c =
           Some (snd (best (entities m) (slots_in vs c) f e))).
Proof. clear HNC.
  induction vs as [|[c i] vs IH];
    intros m p Hb Hf Hsms Hsvs Hmfs Hmes.
  - exists (fentities m), p. simpl.
    repeat split; try assumption; try (intros; assumption).
    destruct m; reflexivity.
  - destruct (Hb c i (or_introl eq_refl)) as [Hc Hi].
    cbn [run_visits]. unfold adjust_eval at 1.
    destruct (nth_error (entities m) i) as [e|] eqn:Ee;
      [|apply nth_error_None in Ee; lia].
    destruct (@store_spec _ (fentities m) i (Fitness e)) as (fs1 & Hs1 & Hl1 & Hn1);
      [lia|].
    destruct (@bump_spec (sms p) c (Fitness e)) as (a1 & sms1 & Ha1 & Hb1 & Hls & Hns);
      [lia|].
    destruct (@bump_spec (svs p) c (Fitness e * Fitness e))
      as (a2 & svs1 & Ha2 & Hb2 & Hlv & Hnv); [lia|].
    destruct (nth_error (mfs p) c) as [mf|] eqn:Emf;
      [|apply nth_error_None in Emf; lia].
    destruct (nth_error (mes p) c) as [me|] eqn:Eme;
      [|apply nth_error_None in Eme; lia].
    rewrite Hs1, Hb1, Hb2.
    assert (Hraw : raw (entities m) i = Fitness e)
      by (unfold raw; now rewrite Ee).
    assert (Hb' : forall c0 i0, In (c0, i0) vs ->
              (c0 < NC)%nat /\
              (i0 < length (entities (set_fentities m fs1)))%nat)
      by (intros; apply Hb; now right).
    assert (Hf' : length (fentities (set_fentities m fs1)) =
                  length (entities (set_fentities m fs1)))
      by (cbn; congruence).
    destruct (mf <? Fitness e) eqn:Elt.
    + destruct (@store_spec _ (mfs p) c (Fitness e)) as (mfs1 & Hs2 & Hl2 & Hn2);
        [lia|].
      destruct (@store_spec _ (mes p) c (Some e)) as (mes1 & Hs3 & Hl3 & Hn3);
        [lia|].
      rewrite Hs2, Hs3.
      destruct (IH (set_fentities m fs1) (mkPartial sms1 svs1 mfs1 mes1)
                   Hb' Hf')
        as (fs & p' & Hrun & Hlen & L1 & L2 & L3 & L4 & N1 & N2 & N3 & N4);
        try (cbn; congruence).
      exists fs, p'.
      cbn [entities fentities set_fentities sms svs mfs mes] in *.
      split; [rewrite Hrun; destruct m; reflexivity|].
      split; [congruence|]. repeat (split; [assumption|]).
      split; [|split; [|split]].
      * intro j. rewrite N1, visited_cons, Hn1. rewrite (Nat.eqb_sym i j).
        destruct (Nat.eqb_spec j i) as [->|]; cbn [orb].
        -- rewrite Ee. destruct (visited vs i); reflexivity.
        -- reflexivity.
      * intros c' a Ha. rewrite slots_in_cons.
        destruct (Nat.eqb_spec c c') as [<-|Hne].
        -- erewrite N2; [|rewrite Hns, Nat.eqb_refl; reflexivity].
           cbn. rewrite Hraw. congruence.
        -- apply N2. rewrite Hns.
           destruct (Nat.eqb_spec c' c); [congruence|assumption].
      * intros c' a Ha. rewrite slots_in_cons.
        destruct (Nat.eqb_spec c c') as [<-|Hne].
        -- erewrite N3; [|rewrite Hnv, Nat.eqb_refl; reflexivity].
           cbn. rewrite Hraw. congruence.
        -- apply N3. rewrite Hnv.
           destruct (Nat.eqb_spec c' c); [congruence|assumption].
      * intros c' f e' Hf0 He0. rewrite slots_in_cons.
        destruct (Nat.eqb_spec c c') as [<-|Hne].
        -- cbn [best]. rewrite Ee.
           assert (f = mf) by congruence. subst f. rewrite Elt.
           apply N4; [rewrite Hn2|rewrite Hn3]; now rewrite Nat.eqb_refl.
        -- apply N4; [rewrite Hn2|rewrite Hn3];
             (destruct (Nat.eqb_spec c' c); [congruence|assumption]).
    + destruct (IH (set_fentities m fs1) (mkPartial sms1 svs1 (mfs p) (mes p))
                   Hb' Hf')
        as (fs & p' & Hrun & Hlen & L1 & L2 & L3 & L4 & N1 & N2 & N3 & N4);
        try (cbn; congruence).
      exists fs, p'.
      cbn [entities fentities set_fentities sms svs mfs mes] in *.
      split; [rewrite Hrun; destruct m; reflexivity|].
      split; [congruence|]. repeat (split; [assumption|]).
      split; [|split; [|split]].
      * intro j. rewrite N1, visited_cons, Hn1. rewrite (Nat.eqb_sym i j).
        destruct (Nat.eqb_spec j i) as [->|]; cbn [orb].
        -- rewrite Ee. destruct (visited vs i); reflexivity.
        -- reflexivity.
      * intros c' a Ha. rewrite slots_in_cons.
        destruct (Nat.eqb_spec c c') as [<-|Hne].
        -- erewrite N2; [|rewrite Hns, Nat.eqb_refl; reflexivity].
           cbn. rewrite Hraw. congruence.
        -- apply N2. rewrite Hns.
           destruct (Nat.eqb_spec c' c); [congruence|assumption].
      * intros c' a Ha. rewrite slots_in_cons.
        destruct (Nat.eqb_spec c c') as [<-|Hne].
        -- erewrite N3; [|rewrite Hnv, Nat.eqb_refl; reflexivity].
           cbn. rewrite Hraw. congruence.
        -- apply N3. rewrite Hnv.
           destruct (Nat.eqb_spec c' c); [congruence|assumption].
      * intros c' f e' Hf0 He0. rewrite slots_in_cons.
        destruct (Nat.eqb_spec c c') as [<-|Hne].
        -- cbn [best]. rewrite Ee.
           assert (f = mf) by congruence. subst f. rewrite Elt.
           now apply N4.
        -- now apply N4.
Qed.

(** The value of a slot of the fitness cache. *)
Definition get (fs : list F) (i : nat) : F :=
  match nth_error fs i with
  | Some f => f
  | None => f0
  end.

Lemma get_map_Fitness (ents : list Entity) i :
  get (map Fitness ents) i = raw ents i.
Proof.
  unfold get, raw. rewrite nth_error_map.
  destruct (nth_error ents i); reflexivity.
Qed.

Lemma slots_in_snd vs c i : In i (slots_in vs c) -> In i (map snd vs).
Proof.
  unfold slots_in. intros H. apply in_map_iff in H.
  destruct H as (v & E & Hv). apply filter_In in Hv.
  apply in_map_iff. exists v. tauto.
Qed.

Lemma visited_false vs i : ~ In i (map snd vs) -> visited vs i = false.
Proof.
  intros H. destruct (visited vs i) eqn:E; [|reflexivity].
  apply visited_true in E. destruct E as (c & Hc).
  exfalso. apply H. apply in_map_iff. exists (c, i). split; auto.
Qed.

Lemma weigh_visits (mean std : F) (vs : list (nat * nat)) :
  forall (m : GA) (fsums : list F),
    NoDup (map snd vs) ->
    (forall c i, In (c, i) vs ->
                 (c < NC)%nat /\ (i < length (fentities m))%nat) ->
    length fsums = NC ->
    exists fs fsums',
      run_visits (adjust_weigh Exp mean std) vs (m, fsums)
        = Some (set_fentities m fs, fsums') /\
      length fs = length (fentities m) /\
      length fsums' = NC /\
      (forall j, nth_error fs j =
                 if visited vs j
                 then option_map (weight mean std) (nth_error (fentities m) j)
                 else nth_error (fentities m) j) /\
      (forall c a, nth_error fsums c = Some a ->
         nth_error fsums' c =
         Some (fold_left fadd
                 (map (fun i => weight mean std (get (fentities m) i))
                      (slots_in vs c)) a)).
Proof. clear HNC.
  induction vs as [|[c i] vs IH]; intros m fsums Hnd Hb Hl.
  - exists (fentities m), fsums. simpl.
    repeat split; try assumption; try (intros; assumption).
    destruct m; reflexivity.
  - destruct (Hb c i (or_introl eq_refl)) as [Hc Hi].
    cbn [map snd] in Hnd. apply NoDup_cons_iff in Hnd.
    destruct Hnd as [Hnotin Hnd'].
    cbn [run_visits]. unfold adjust_weigh at 1.
    destruct (nth_error (fentities m) i) as [fi|] eqn:Efi;
      [|apply nth_error_None in Efi; lia].
    fold (weight mean std fi).
    destruct (@store_spec _ (fentities m) i (weight mean std fi))
      as (fs1 & Hs1 & Hl1 & Hn1); [lia|].
    destruct (@bump_spec fsums c (weight mean std fi))
      as (a1 & fsums1 & Ha1 & Hb1 & Hls & Hns); [lia|].
    rewrite Hs1, Hb1.
    destruct (IH (set_fentities m fs1) fsums1 Hnd')
      as (fs & fsums' & Hrun & Hlen & L1 & N1 & N2).
    { intros c0 i0 H0. cbn [fentities set_fentities]. rewrite Hl1.
      apply Hb. now right. }
    { congruence. }
    exists fs, fsums'. cbn [fentities set_fentities] in *.
    split; [rewrite Hrun; destruct m; reflexivity|].
    split; [congruence|]. split; [assumption|]. split.
    + intro j. rewrite N1, visited_cons, Hn1. rewrite (Nat.eqb_sym i j).
      destruct (Nat.eqb_spec j i) as [->|]; cbn [orb].
      * rewrite (visited_false _ _ Hnotin), Efi. reflexivity.
      * reflexivity.
    + intros c' a Ha. rewrite slots_in_cons.
      assert (Hmap : map (fun i0 => weight mean std (get fs1 i0))
                         (slots_in vs c') =
                     map (fun i0 => weight mean std (get (fentities m) i0))
                         (slots_in vs c')).
      { apply map_ext_in. intros i0 Hi0. unfold get. rewrite Hn1.
        destruct (Nat.eqb_spec i0 i) as [->|]; [|reflexivity].
        exfalso. apply Hnotin. eapply slots_in_snd; eauto. }
      destruct (Nat.eqb_spec c c') as [<-|Hne].
      * erewrite N2; [|rewrite Hns, Nat.eqb_refl; reflexivity].
        rewrite Hmap. cbn [map fold_left].
        assert (Hg : get (fentities m) i = fi) by (unfold get; now rewrite Efi).
        rewrite Hg. congruence.
      * rewrite <- Hmap. apply N2. rewrite Hns.
        destruct (Nat.eqb_spec c' c); [congruence|assumption].
Qed.

(** A per-worker array is determined by its cells. *)
Lemma cells_ext {A : Type} (l : list A) (g : nat -> A) :
  length l = NC ->
  (forall c, (c < NC)%nat -> nth_error l c = Some (g c)) ->
  l = map g (seq O NC).
Proof. clear HNC.
  intros Hl H. apply list_ext. intro c.
  destruct (Nat.ltb_spec c NC) as [Hc|Hc].
  - rewrite H by assumption.
    rewrite nth_error_map, nth_error_seq.
    destruct (Nat.ltb_spec c NC); [reflexivity|lia].
  - rewrite (proj2 (nth_error_None _ _)) by lia.
    symmetry. apply nth_error_None. rewrite length_map, length_seq. lia.
Qed.

(** A slice is determined by its slots. *)
Lemma slots_ext {A B : Type} (h : A -> B) (src : list A) (l : list B) :
  length l = length src ->
  (forall j, (j < length src)%nat ->
             nth_error l j = option_map h (nth_error src j)) ->
  l = map h src.
Proof. clear HNC.
  intros Hl H. apply list_ext. intro j. rewrite nth_error_map.
  destruct (Nat.ltb_spec j (length src)) as [Hj|Hj]; [now apply H|].
  rewrite (proj2 (nth_error_None l j)) by lia.
  now rewrite (proj2 (nth_error_None src j)) by lia.
Qed.

(** ** [adjust] as a function of the population *)

Definition mfs_of (ents : list Entity) (nn : nat) : list F :=
  map (fun c => fst (best ents (worker_slots NC nn c nn) neg_inf None))
      (seq O NC).
Definition mes_of (ents : list Entity) (nn : nat) : list (option Entity) :=
  map (fun c => snd (best ents (worker_slots NC nn c nn) neg_inf None))
      (seq O NC).

Definition mean_of (ents : list Entity) (nz : Z) : F :=
  sum (totals (raw ents) (Z.to_nat nz)) / of_int nz.
Definition variance_of (ents : list Entity) (nz : Z) : F :=
  sum (totals (fun i => raw ents i * raw ents i) (Z.to_nat nz)) / of_int nz
  - mean_of ents nz * mean_of ents nz.
Definition std_of (ents : list Entity) (nz : Z) : F :=
  if f0 <? variance_of ents nz then fsqrt (variance_of ents nz) else f1.
Definition weights_of (ents : list Entity) (nz : Z) : list F :=
  map (weight (mean_of ents nz) (std_of ents nz)) (map Fitness ents).
Definition fsum_of (ents : list Entity) (nz : Z) : F :=
  sum (totals (fun i => weight (mean_of ents nz) (std_of ents nz) (raw ents i))
              (Z.to_nat nz)).

(** The elite after the maxima of the workers have been compared. *)
Definition crowned (m : GA) : GA :=
  let '(c, f) := max (mfs_of (entities m) (Z.to_nat (n m))) in
  if fitness m <? f
  then set_elite m f (nth c (mes_of (entities m) (Z.to_nat (n m))) None)
  else m.

(** The engine [adjust] leaves. *)
Definition adjust_result (m : GA) : GA :=
  set_fsum
    (set_fentities
       (adjust_pm Exp (crowned m) (std_of (entities m) (n m)))
       (weights_of (entities m) (n m)))
    (fsum_of (entities m) (n m)).

(** The fitness cache, the weights and their sum are those of the current
    population. *)
Definition consistent (m : GA) : Prop :=
  fentities m = weights_of (entities m) (n m) /\
  fsum m = fsum_of (entities m) (n m).

Lemma max_loop_index (xs : list F) :
  forall i k m,
    fst (max_loop xs i k m) = k \/
    (i <= fst (max_loop xs i k m) < i + length xs)%nat.
Proof. clear HNC.
  induction xs as [|x xs IH]; intros i k m; simpl; [now left|].
  destruct (m <? x).
  - destruct (IH (S i) i x) as [H|H]; right; lia.
  - destruct (IH (S i) k m) as [H|H]; [now left|right; lia].
Qed.

Lemma max_index (xs : list F) :
  length xs = NC -> (fst (max xs) < NC)%nat.
Proof using HNC.
  intros Hl. unfold max.
  destruct (max_loop_index xs O O neg_inf) as [H|H]; lia.
Qed.

Lemma adjust_pm_frame (m : GA) s :
  n (adjust_pm Exp m s) = n m /\
  fitness (adjust_pm Exp m s) = fitness m /\
  elite (adjust_pm Exp m s) = elite m /\
  base (adjust_pm Exp m s) = base m /\
  fsum (adjust_pm Exp m s) = fsum m /\
  rnd (adjust_pm Exp m s) = rnd m /\
  fentities (adjust_pm Exp m s) = fentities m /\
  entities (adjust_pm Exp m s) = entities m /\
  tentities (adjust_pm Exp m s) = tentities m.
Proof.
  unfold adjust_pm.
  destruct (f0 <? base m); [|repeat split].
  destruct (c0_1 <? _); [repeat split|].
  destruct (_ <? c0_0001); repeat split.
Qed.

Lemma crowned_frame (m : GA) :
  n (crowned m) = n m /\ pm (crowned m) = pm m /\
  base (crowned m) = base m /\ fsum (crowned m) = fsum m /\
  rnd (crowned m) = rnd m /\ fentities (crowned m) = fentities m /\
  entities (crowned m) = entities m /\ tentities (crowned m) = tentities m.
Proof.
  unfold crowned. destruct (max _) as [c f].
  destruct (fitness m <? f); repeat split.
Qed.

Lemma adjust_spec (m : GA) :
  wf m ->
  adjust Exp NC Fitness m =
  Some (std_of (entities m) (n m), adjust_result m).
Proof using HNC.
  intros (Hn & Hf & Ht).
  assert (Hnn : Z.to_nat (n m) = length (entities m)) by lia.
  unfold adjust. rewrite do_visits.
  destruct (@eval_visits (visits NC (Z.to_nat (n m))) m
              (mkPartial (repeat f0 NC) (repeat f0 NC) (repeat neg_inf NC)
                         (repeat None NC)))
    as (fs & p' & Hrun & Hlen & L1 & L2 & L3 & L4 & N1 & N2 & N3 & N4);
    try (cbn; apply repeat_length); try assumption.
  { intros c i H. apply visits_bound in H. lia. }
  rewrite Hrun. cbn [sms svs mfs mes] in *.
  assert (Efs : fs = map Fitness (entities m)).
  { apply slots_ext; [congruence|]. intros j Hj. rewrite N1.
    rewrite visits_cover by (assumption || lia). reflexivity. }
  assert (Esms : sms p' = totals (raw (entities m)) (Z.to_nat (n m))).
  { apply cells_ext; [assumption|]. intros c Hc.
    rewrite (N2 c f0) by (now apply nth_error_repeat).
    unfold worker_total. now rewrite slots_in_visits. }
  assert (Esvs : svs p' = totals (fun i => raw (entities m) i *
                                           raw (entities m) i)
                                 (Z.to_nat (n m))).
  { apply cells_ext; [assumption|]. intros c Hc.
    rewrite (N3 c f0) by (now apply nth_error_repeat).
    unfold worker_total. now rewrite slots_in_visits. }
  assert (Emfs : mfs p' = mfs_of (entities m) (Z.to_nat (n m))).
  { apply cells_ext; [assumption|]. intros c Hc.
    destruct (N4 c neg_inf None) as [H _];
      try (now apply nth_error_repeat).
    rewrite H. now rewrite slots_in_visits. }
  assert (Emes : mes p' = mes_of (entities m) (Z.to_nat (n m))).
  { apply cells_ext; [assumption|]. intros c Hc.
    destruct (N4 c neg_inf None) as [_ H];
      try (now apply nth_error_repeat).
    rewrite H. now rewrite slots_in_visits. }
  assert (Hidx : (fst (max (mfs p')) < NC)%nat) by now apply max_index.
  assert (Hmean : adjust_mean (set_fentities m fs) p' =
                  mean_of (entities m) (n m))
    by (unfold adjust_mean, mean_of; cbn [n set_fentities]; now rewrite Esms).
  assert (Hvar : adjust_var (set_fentities m fs) p' =
                 variance_of (entities m) (n m)).
  { unfold adjust_var, variance_of. rewrite Hmean.
    cbn [n set_fentities]. now rewrite Esvs. }
  assert (Hstd : adjust_std (set_fentities m fs) p' =
                 std_of (entities m) (n m))
    by (unfold adjust_std, std_of; now rewrite Hvar).
  rewrite Hmean, Hstd.
  set (mu := mean_of (entities m) (n m)) in *.
  set (sd := std_of (entities m) (n m)) in *.
  (* the elite *)
  assert (Hcrown :
    (let '(c, f) := max (mfs p') in
     if fitness (set_fentities m fs) <? f
     then match nth_error (mes p') c with
          | None => None
          | Some e => Some (set_elite (set_fentities m fs) f e)
          end
     else Some (set_fentities m fs)) =
    Some (set_fentities (crowned m) fs)).
  { unfold crowned. rewrite <- Emfs, <- Emes.
    destruct (max (mfs p')) as [c f] eqn:Emax. cbn [fst] in Hidx.
    cbn [fitness set_fentities].
    destruct (fitness m <? f); [|reflexivity].
    destruct (nth_error (mes p') c) as [e|] eqn:Ee;
      [|apply nth_error_None in Ee; lia].
    rewrite (nth_error_nth _ _ None Ee). destruct m; reflexivity. }
  destruct (max (mfs p')) as [c f] eqn:Emax.
  rewrite Hcrown. clear Hcrown.
  (* the weights *)
  set (m1 := adjust_pm Exp (set_fentities (crowned m) fs) sd).
  destruct (adjust_pm_frame (set_fentities (crowned m) fs) sd)
    as (An & _ & _ & _ & _ & _ & Af & Ae & _).
  destruct (crowned_frame m) as (Cn & _ & _ & _ & _ & Cf & Ce & _).
  fold m1 in An, Af, Ae. cbn [n fentities entities set_fentities] in An, Af, Ae.
  rewrite do_visits.
  destruct (@weigh_visits mu sd (visits NC (Z.to_nat (n m1))) m1
              (repeat f0 NC))
    as (ws & fsums & Hrun2 & Hlen2 & L5 & N5 & N6).
  { apply visits_NoDup; assumption. }
  { intros c0 i0 H. apply visits_bound in H.
    rewrite Af, Efs, length_map. rewrite An, Cn in H. lia. }
  { apply repeat_length. }
  rewrite Hrun2. f_equal. f_equal.
  assert (Ews : ws = weights_of (entities m) (n m)).
  { unfold weights_of. fold mu sd. rewrite <- Efs.
    apply slots_ext; [congruence|]. intros j Hj. rewrite N5, Af.
    rewrite visits_cover; [reflexivity|assumption|].
    rewrite An, Cn. rewrite Efs, length_map in Hj. lia. }
  assert (Efsums : sum fsums = fsum_of (entities m) (n m)).
  { unfold fsum_of. fold mu sd. f_equal.
    apply cells_ext; [assumption|]. intros c0 Hc0.
    rewrite (N6 c0 f0) by (now apply nth_error_repeat).
    rewrite slots_in_visits by assumption.
    unfold worker_total. rewrite An, Cn. do 2 f_equal.
    apply map_ext. intro i. rewrite Af, Efs. now rewrite get_map_Fitness. }
  rewrite Efsums, Ews. unfold adjust_result. fold sd.
  subst m1. unfold adjust_pm.
  destruct (crowned m) as [n1 ft1 el1 pm1 b1 s1 r1 fe1 en1 te1].
  cbn [base pm set_fentities set_pm].
  destruct (f0 <? b1); [|reflexivity].
  destruct (c0_1 <? _); [reflexivity|].
  destruct (_ <? c0_0001); reflexivity.
Qed.

(** Whatever the arithmetic: the standard deviation [adjust] returns is the
    square root of the computed variance when that is strictly positive, and
    1 when it is not (zero, negative or NaN). *)
Lemma adjust_std_guard (m : GA) :
  wf m ->
  exists m',
    adjust Exp NC Fitness m =
    Some ((if f0 <? variance_of (entities m) (n m)
           then fsqrt (variance_of (entities m) (n m)) else f1), m').
Proof using HNC.
  intros Hwf. rewrite adjust_spec by assumption.
  eexists. reflexivity.
Qed.

(** ** Selection and the generation step *)

(** Two engines with the same population, weights and weight sum. *)
Definition same_population (m0 m : GA) : Prop :=
  entities m = entities m0 /\ fentities m = fentities m0 /\
  fsum m = fsum m0 /\ n m = n m0.

(** The entity slot [i] receives, from the three numbers it draws. *)
Definition child (m : GA) (draws : nat -> F * F * F) (i : nat)
  : option Entity :=
  let '(rx, ry, r) := draws i in
  match select2 m rx ry with
  | None => None
  | Some (x, y, w) =>
      let z := Crossover x y w in Some (if r <? pm m then Mutate z else z)
  end.

(** The working buffer once every slot is written. *)
Definition offspring (m : GA) : list (option Entity) :=
  map (child m (rnd m O)) (seq O (length (entities m))).

(** The engine [Next] leaves when the children are [zs]. *)
Definition Next_result (m : GA) (zs : list Entity) : GA :=
  adjust_result
    (set_buffers (set_rnd m (fun g => rnd m (S g))) zs
                 (map Some (entities m))).

Lemma par_select2_loop_frame (m0 m : GA) fs :
  entities m = entities m0 ->
  forall i fz d ry isx x y wx wy,
    select2_loop m fs i fz d ry isx x y wx wy =
    select2_loop m0 fs i fz d ry isx x y wx wy.
Proof.
  intros He. induction fs as [|f fs IH]; intros; cbn [select2_loop];
    [reflexivity|].
  rewrite He. destruct (fz <=? f); [|apply IH].
  destruct isx; destruct (nth_error (entities m0) i);
    try reflexivity; apply IH.
Qed.

Lemma select2_frame (m0 m : GA) rx ry :
  same_population m0 m -> select2 m rx ry = select2 m0 rx ry.
Proof.
  intros (He & Hf & Hs & Hn). unfold select2.
  rewrite He, Hf, Hs, Hn.
  destruct (ry <? rx); destruct (nth_error (entities m0) 0);
    try reflexivity;
    destruct (index (entities m0) (n m0 - 1)); try reflexivity;
    now rewrite (@par_select2_loop_frame m0 m).
Qed.

Lemma child_frame (m0 m : GA) draws i :
  same_population m0 m -> pm m = pm m0 ->
  child m draws i = child m0 draws i.
Proof.
  intros Hpop Hpm. unfold child. destruct (draws i) as [[rx ry] r].
  now rewrite (select2_frame rx ry Hpop), Hpm.
Qed.

Lemma par_select2_loop_total (m : GA) fs :
  forall i fz d ry isx x y wx wy,
    (i + length fs <= length (entities m))%nat ->
    exists r, select2_loop m fs i fz d ry isx x y wx wy = Some r.
Proof. clear HNC.
  induction fs as [|f fs IH]; intros i fz d ry isx x y wx wy Hi;
    cbn [select2_loop]; [eauto|].
  simpl in Hi.
  destruct (nth_error (entities m) i) as [xi|] eqn:E;
    [|apply nth_error_None in E; lia].
  destruct (fz <=? f); [|apply IH; lia].
  destruct isx; [apply IH; lia|eauto].
Qed.

Lemma select2_total (m : GA) rx ry :
  wf m -> entities m <> [] -> exists r, select2 m rx ry = Some r.
Proof. clear HNC.
  intros (Hn & Hf & Ht) Hne. unfold select2.
  destruct (entities m) as [|e0 ents] eqn:He; [congruence|].
  cbn [nth_error].
  destruct (@index_in_range _ (e0 :: ents) (n m - 1)) as [y Hy].
  { rewrite Hn. simpl length. lia. }
  rewrite Hy.
  destruct (ry <? rx);
    match goal with
    | |- context [select2_loop m ?a ?b ?c ?d ?e ?f ?g ?h ?i ?j] =>
        destruct (@par_select2_loop_total m a b c d e f g h i j)
          as [[[[x' y'] wx'] wy'] Hr];
          [rewrite Hf, He; simpl; lia|rewrite Hr; eauto]
    end.
Qed.

Lemma child_total (m : GA) draws i :
  wf m -> entities m <> [] -> exists z, child m draws i = Some z.
Proof.
  intros Hwf Hne. unfold child. destruct (draws i) as [[rx ry] r].
  destruct (select2_total rx ry Hwf Hne) as [[[x y] w] Hs].
  rewrite Hs. eauto.
Qed.

Lemma breed_visits (draws : nat -> F * F * F) (vs : list (nat * nat)) :
  forall (m : GA),
    (forall c i, In (c, i) vs -> (i < length (tentities m))%nat) ->
    (forall c i, In (c, i) vs -> exists z, child m draws i = Some z) ->
    exists t,
      run_visits (Next_slot Mutate Crossover draws) vs m
        = Some (set_tentities m t) /\
      length t = length (tentities m) /\
      forall j, nth_error t j =
                if visited vs j then Some (child m draws j)
                else nth_error (tentities m) j.
Proof.
  induction vs as [|[c i] vs IH]; intros m Hb Htot.
  - exists (tentities m). simpl. repeat split. destruct m; reflexivity.
  - cbn [run_visits]. unfold Next_slot at 1.
    destruct (Htot c i (or_introl eq_refl)) as [z Hz].
    pose proof Hz as Hz'. unfold child in Hz'.
    destruct (draws i) as [[rx ry] r].
    destruct (select2 m rx ry) as [[[x y] w]|]; [|discriminate].
    cbn zeta in Hz'. inversion Hz' as [Ez]. rewrite Ez.
    destruct (@store_spec _ (tentities m) i (Some z))
      as (t1 & Hs1 & Hl1 & Hn1); [eapply Hb; now left|].
    rewrite Hs1.
    assert (Hpop : same_population m (set_tentities m t1))
      by (repeat split).
    destruct (IH (set_tentities m t1)) as (t & Hrun & Hlen & N1).
    { intros c0 i0 H0. cbn [tentities set_tentities]. rewrite Hl1.
      eapply Hb. right; eauto. }
    { intros c0 i0 H0. rewrite (child_frame draws i0 Hpop eq_refl).
      eapply Htot. right; eauto. }
    exists t. cbn [tentities set_tentities] in *.
    split; [rewrite Hrun; destruct m; reflexivity|].
    split; [congruence|].
    intro j. rewrite N1, visited_cons, Hn1. rewrite (Nat.eqb_sym i j).
    rewrite (child_frame draws j Hpop eq_refl).
    destruct (Nat.eqb_spec j i) as [->|]; cbn [orb].
    + rewrite Hz. destruct (visited vs i); reflexivity.
    + reflexivity.
Qed.

Lemma filled_total {A : Type} (l : list (option A)) :
  (forall j, (j < length l)%nat -> exists a, nth_error l j = Some (Some a)) ->
  exists r, filled l = Some r.
Proof. clear HNC.
  induction l as [|[a|] l IH]; intros H; simpl.
  - eauto.
  - destruct IH as [r Hr].
    + intros j Hj. apply (H (S j)). simpl; lia.
    + rewrite Hr. eauto.
  - destruct (H O) as [a Ha]; [simpl; lia|discriminate].
Qed.

Lemma adjust_result_wf (m : GA) :
  n m = Z.of_nat (length (entities m)) ->
  length (tentities m) = length (entities m) ->
  wf (adjust_result m).
Proof.
  intros Hn Ht. unfold wf, adjust_result.
  cbn [n entities fentities tentities set_fsum set_fentities].
  destruct (adjust_pm_frame (crowned m) (std_of (entities m) (n m)))
    as (An & _ & _ & _ & _ & _ & _ & Ae & At).
  destruct (crowned_frame m) as (Cn & _ & _ & _ & _ & _ & Ce & Ct).
  rewrite An, Ae, At, Cn, Ce, Ct. unfold weights_of.
  now rewrite !length_map.
Qed.

Lemma adjust_result_consistent (m : GA) : consistent (adjust_result m).
Proof.
  unfold consistent, adjust_result.
  cbn [n entities fentities fsum set_fsum set_fentities].
  destruct (adjust_pm_frame (crowned m) (std_of (entities m) (n m)))
    as (An & _ & _ & _ & _ & _ & _ & Ae & _).
  destruct (crowned_frame m) as (Cn & _ & _ & _ & _ & _ & Ce & _).
  now rewrite An, Ae, Cn, Ce.
Qed.

Lemma par_Next_total (m : GA) :
  wf m ->
  exists zs,
    map Some zs = offspring m /\
    Next Exp NC Fitness Mutate Crossover m =
      Some (elite (Next_result m zs), fitness (Next_result m zs),
            Next_result m zs) /\
    wf (Next_result m zs).
Proof using HNC.
  intros Hwf. pose proof Hwf as (Hn & Hf & Ht).
  set (m1 := set_rnd m (fun g => rnd m (S g))).
  assert (Hwf1 : wf m1) by exact Hwf.
  assert (Hpop : same_population m m1) by (repeat split).
  unfold Next. fold m1. rewrite do_visits.
  assert (Hnn : Z.to_nat (n m1) = length (entities m)) by (cbn; lia).
  destruct (@breed_visits (rnd m O) (visits NC (Z.to_nat (n m1))) m1)
    as (t & Hrun & Hlen & N1).
  { intros c i H. apply visits_bound in H.
    cbn [tentities m1 set_rnd]. lia. }
  { intros c i H. apply visits_bound in H.
    apply child_total; [assumption|].
    intro E. change (entities m1) with (entities m) in E.
    rewrite E in Hnn. cbn [length] in Hnn. lia. }
  rewrite Hrun. cbn [tentities set_tentities entities].
  assert (Et : t = offspring m).
  { apply list_ext. intro j. unfold offspring.
    rewrite nth_error_map, nth_error_seq, N1.
    rewrite (child_frame (rnd m O) j Hpop eq_refl).
    destruct (Nat.ltb_spec j (length (entities m))) as [Hj|Hj].
    - rewrite visits_cover by (assumption || lia). reflexivity.
    - destruct (visited (visits NC (Z.to_nat (n m1))) j) eqn:Ev.
      + apply visited_true in Ev. destruct Ev as (c & Hc).
        apply visits_bound in Hc. lia.
      + apply nth_error_None. cbn [tentities m1 set_rnd]. lia. }
  destruct (@filled_total _ t) as [zs Hzs].
  { intros j Hj. rewrite N1.
    rewrite visits_cover; [|assumption|cbn [tentities m1 set_rnd] in Hlen; lia].
    destruct (@child_total m1 (rnd m O) j Hwf1) as [z Hz].
    - cbn [entities m1 set_rnd]. intro E. rewrite E in Ht.
      cbn [tentities m1 set_rnd] in Hlen. simpl in Ht. lia.
    - rewrite Hz. eauto. }
  rewrite Hzs. exists zs.
  pose proof (filled_spec _ Hzs) as Hmap.
  pose proof (filled_length _ Hzs) as Hzl.
  split; [congruence|].
  assert (Hwf2 : wf (set_buffers (set_tentities m1 t) zs
                                 (map Some (entities m1)))).
  { unfold wf. cbn [n entities fentities tentities set_buffers
                      set_tentities m1 set_rnd].
    rewrite length_map. cbn [tentities m1 set_rnd] in Hlen.
    repeat split; try lia; congruence. }
  rewrite adjust_spec by assumption.
  assert (Em : set_buffers (set_tentities m1 t) zs (map Some (entities m1)) =
               set_buffers m1 zs (map Some (entities m)))
    by (destruct m; reflexivity).
  rewrite Em. unfold Next_result. fold m1.
  split; [reflexivity|].
  rewrite Em in Hwf2. destruct Hwf2 as (W1 & W2 & W3).
  apply adjust_result_wf; assumption.
Qed.

(** ** Construction *)

Lemma fill_visits (g : nat -> Entity) (vs : list (nat * nat)) :
  forall (ents : list (option Entity)),
    (forall c i, In (c, i) vs -> (i < length ents)%nat) ->
    exists ents',
      run_visits (New_slot g) vs ents = Some ents' /\
      length ents' = length ents /\
      forall j, nth_error ents' j =
                if visited vs j then Some (Some (g j)) else nth_error ents j.
Proof.
  induction vs as [|[c i] vs IH]; intros ents Hb.
  - exists ents. simpl. repeat split.
  - cbn [run_visits]. unfold New_slot at 1.
    destruct (@store_spec _ ents i (Some (g i))) as (e1 & Hs1 & Hl1 & Hn1);
      [eapply Hb; now left|].
    rewrite Hs1.
    destruct (IH e1) as (ents' & Hrun & Hlen & N1).
    { intros c0 i0 H0. rewrite Hl1. eapply Hb. right; eauto. }
    exists ents'. split; [assumption|]. split; [congruence|].
    intro j. rewrite N1, visited_cons, Hn1. rewrite (Nat.eqb_sym i j).
    destruct (Nat.eqb_spec j i) as [->|]; cbn [orb].
    + destruct (visited vs i); reflexivity.
    + reflexivity.
Qed.

(** The engine [New] starts [adjust] on. *)
Definition New_blank (nn : Z) (g : nat -> Entity)
           (seed : nat -> nat -> F * F * F) : GA :=
  mkGA nn neg_inf None c0_1 f0 f0 seed (repeat f0 (Z.to_nat nn))
       (map g (seq O (Z.to_nat nn))) (repeat None (Z.to_nat nn)).

Lemma par_New_blank_wf nn g seed : (0 <= nn)%Z -> wf (New_blank nn g seed).
Proof. clear HNC.
  intros H. unfold wf, New_blank; cbn.
  rewrite !repeat_length, length_map, length_seq. repeat split; lia.
Qed.

Lemma par_New_spec (nn : Z) g seed :
  New Exp NC Fitness nn g seed =
  if (nn <? 0)%Z then None
  else Some (set_base (adjust_result (New_blank nn g seed))
                      (std_of (entities (New_blank nn g seed)) nn)).
Proof using HNC.
  unfold New, make. destruct (Z.ltb_spec nn 0); [reflexivity|].
  rewrite do_visits.
  destruct (@fill_visits g (visits NC (Z.to_nat nn))
              (repeat None (Z.to_nat nn))) as (ents & Hrun & Hlen & N1).
  { intros c i Hv. apply visits_bound in Hv.
    rewrite repeat_length. lia. }
  rewrite Hrun. rewrite repeat_length in Hlen.
  assert (E : ents = map Some (map g (seq O (Z.to_nat nn)))).
  { apply list_ext. intro j. rewrite N1, !nth_error_map, nth_error_seq.
    destruct (Nat.ltb_spec j (Z.to_nat nn)) as [Hj|Hj].
    - rewrite visits_cover by assumption. reflexivity.
    - destruct (visited (visits NC (Z.to_nat nn)) j) eqn:Ev.
      + apply visited_true in Ev. destruct Ev as (c & Hc).
        apply visits_bound in Hc. lia.
      + apply nth_error_None. rewrite repeat_length. lia. }
  rewrite E, filled_map_Some. fold (New_blank nn g seed).
  rewrite adjust_spec by now apply par_New_blank_wf.
  reflexivity.
Qed.

Lemma par_New_wf nn g seed m :
  New Exp NC Fitness nn g seed = Some m -> wf m.
Proof using HNC.
  rewrite par_New_spec. destruct (Z.ltb_spec nn 0); [discriminate|].
  intros E; inversion E; subst m; clear E.
  destruct (par_New_blank_wf g seed H) as (Hn & Hf & Ht).
  destruct (adjust_result_wf (New_blank nn g seed) Hn Ht) as (W1 & W2 & W3).
  repeat split; assumption.
Qed.

(** ** The evolution loop *)

Lemma par_Evolve_loop_total (k max : Z) (fuel : nat) :
  forall i j fit (m : GA),
    wf m ->
    (Z.to_nat (max - j) <= fuel)%nat ->
    (0 <= i <= j)%Z ->
    exists r,
      Evolve_loop Exp NC Fitness Mutate Crossover fuel k max i j fit m
        = Some r /\
      wf (run_ga r) /\
      (j <= run_j r)%Z /\ (run_j r <= Z.max j max)%Z /\
      (0 <= run_i r <= run_j r)%Z /\ (run_i r <= Z.max i k)%Z /\
      (k <= run_i r \/ max <= run_j r)%Z /\
      (k <= i \/ max <= j -> r = mkRun i j fit m)%Z.
Proof using HNC.
  induction fuel as [|fuel IH]; intros i j fit m Hwf Hfuel Hij;
    cbn [Evolve_loop];
    destruct (Z.ltb_spec i k); destruct (Z.ltb_spec j max);
    cbn [andb];
    try (eexists; split; [reflexivity|]; cbn [run_ga run_i run_j];
         split; [assumption|]; repeat split; try lia; fail).
  - lia.
  - destruct (par_Next_total Hwf) as (zs & _ & HN & Hwf').
    rewrite HN.
    destruct (fit <? fitness (Next_result m zs)).
    + destruct (IH (0 + 1)%Z (j + 1)%Z (fitness (Next_result m zs))
                   (Next_result m zs) Hwf')
        as (r & Hr & Hw & H1 & H2 & H3 & H4 & H5 & _); try lia.
      exists r. split; [exact Hr|]. split; [exact Hw|]. repeat split; lia.
    + destruct (IH (i + 1)%Z (j + 1)%Z fit (Next_result m zs) Hwf')
        as (r & Hr & Hw & H1 & H2 & H3 & H4 & H5 & _); try lia.
      exists r. split; [exact Hr|]. split; [exact Hw|]. repeat split; lia.
Qed.

Lemma par_Evolve_run_total (k max : Z) (m : GA) :
  wf m ->
  exists r,
    Evolve_run Exp NC Fitness Mutate Crossover k max m = Some r /\
    wf (run_ga r) /\
    (0 <= run_j r <= Z.max 0 max)%Z /\
    (0 <= run_i r <= run_j r)%Z /\ (run_i r <= Z.max 0 k)%Z /\
    (k <= run_i r \/ max <= run_j r)%Z /\
    (k <= 0 \/ max <= 0 -> r = mkRun 0 0 (fitness m) m)%Z.
Proof using HNC.
  intros Hwf. unfold Evolve_run.
  destruct (@par_Evolve_loop_total k max (Z.to_nat max) 0%Z 0%Z (fitness m) m Hwf)
    as (r & Hr & Hw & H1 & H2 & H3 & H4 & H5 & H6); try lia.
  exists r. split; [exact Hr|]. split; [exact Hw|].
  repeat split; try lia. intros; apply H6; lia.
Qed.

End Generic.
End ParFacts.


(* ================================================================== *)
(** * Exact arithmetic: sums, means and logistic weights *)
(* ================================================================== *)

Module ExactFacts.

Local Open Scope R_scope.

(** The quantities of the specification, over the real fitness values of a
    population. *)
Definition Rsum (l : list R) : R := fold_right Rplus 0 l.
Definition Rmean (l : list R) : R := Rsum l / INR (length l).
Definition Rvariance (l : list R) : R :=
  Rmean (map (fun x => x * x) l) - Rmean l * Rmean l.
Definition Rstd (l : list R) : R :=
  if Rlt_dec 0 (Rvariance l) then R_sqrt.sqrt (Rvariance l) else 1.
Definition Rweight (mu sd f : R) : R := 1 / (1 + exp ((mu - f) / sd)).

Lemma Rltb_true a b : Exact.Rltb a b = true <-> a < b.
Proof. unfold Exact.Rltb. destruct (Rlt_dec a b); split; auto; discriminate. Qed.

Lemma Rltb_false a b : Exact.Rltb a b = false <-> ~ a < b.
Proof.
  unfold Exact.Rltb. destruct (Rlt_dec a b); split; auto;
    try discriminate; contradiction.
Qed.

Lemma Rleb_true a b : Exact.Rleb a b = true <-> a <= b.
Proof. unfold Exact.Rleb. destruct (Rle_dec a b); split; auto; discriminate. Qed.

Lemma Rleb_false a b : Exact.Rleb a b = false <-> ~ a <= b.
Proof.
  unfold Exact.Rleb. destruct (Rle_dec a b); split; auto;
    try discriminate; contradiction.
Qed.

Lemma Reqb_false a b : a <> b -> Exact.Reqb a b = false.
Proof. unfold Exact.Reqb. destruct (Req_dec_T a b); [contradiction|reflexivity]. Qed.

Lemma Reqb_true a : Exact.Reqb a a = true.
Proof. unfold Exact.Reqb. destruct (Req_dec_T a a); [reflexivity|contradiction]. Qed.

Lemma div_fin a b : b <> 0 -> fdiv (XFin a) (XFin b) = XFin (a / b).
Proof. intros H. cbn. now rewrite Reqb_false. Qed.

Lemma Rsum_app l1 l2 : Rsum (l1 ++ l2) = Rsum l1 + Rsum l2.
Proof. induction l1 as [|a l1 IH]; simpl; [lra|rewrite IH; lra]. Qed.

Lemma Rsum_perm l1 l2 : Permutation l1 l2 -> Rsum l1 = Rsum l2.
Proof. induction 1; simpl; lra. Qed.

Lemma Rsum_const (c : R) l :
  (forall x, In x l -> x = c) -> Rsum l = INR (length l) * c.
Proof.
  induction l as [|a l IH]; intros H.
  - simpl. lra.
  - cbn [Rsum fold_right length]. rewrite S_INR.
    fold (Rsum l). rewrite IH by (intros; apply H; now right).
    rewrite (H a) by now left. lra.
Qed.

Lemma Rvariance_const (c : R) l :
  (forall x, In x l -> x = c) -> Rvariance l = 0.
Proof.
  intros H. unfold Rvariance, Rmean.
  rewrite (@Rsum_const c l H).
  rewrite (@Rsum_const (c * c) (map (fun x => x * x) l)); rewrite ?length_map.
  - destruct l as [|a l].
    + simpl. unfold Rdiv. lra.
    + assert (INR (length (a :: l)) <> 0) by (apply not_0_INR; discriminate).
      field. assumption.
  - intros x Hx. apply in_map_iff in Hx. destruct Hx as (y & <- & Hy).
    now rewrite (H y Hy).
Qed.

Lemma Rstd_pos l : 0 < Rstd l.
Proof.
  unfold Rstd. destruct (Rlt_dec 0 (Rvariance l)); [|lra].
  now apply sqrt_lt_R0.
Qed.

Lemma Rstd_positive_variance l :
  0 < Rvariance l -> Rstd l = R_sqrt.sqrt (Rvariance l).
Proof. intros H. unfold Rstd. destruct (Rlt_dec 0 (Rvariance l)); tauto. Qed.

Lemma Rstd_degenerate l : Rvariance l <= 0 -> Rstd l = 1.
Proof.
  intros H. unfold Rstd. destruct (Rlt_dec 0 (Rvariance l)); [lra|reflexivity].
Qed.

Lemma Rweight_bounds mu sd f : 0 < Rweight mu sd f < 1.
Proof.
  unfold Rweight. pose proof (exp_pos ((mu - f) / sd)) as He.
  split.
  - apply Rdiv_lt_0_compat; lra.
  - apply (Rmult_lt_reg_r (1 + exp ((mu - f) / sd))); [lra|].
    unfold Rdiv. rewrite Rmult_assoc, Rinv_l by lra. lra.
Qed.

Lemma Rsum_pos l :
  l <> [] -> (forall x, In x l -> 0 < x) -> 0 < Rsum l.
Proof.
  induction l as [|a l IH]; intros Hne H; [congruence|].
  cbn [Rsum fold_right]. fold (Rsum l).
  assert (0 < a) by (apply H; now left).
  destruct l as [|b l]; [simpl; lra|].
  assert (0 < Rsum (b :: l)).
  { apply IH; [discriminate|]. intros; apply H; now right. }
  lra.
Qed.

(** Sums in the exact instance. *)
Lemma fold_fadd_fin (l : list R) (a : R) :
  fold_left fadd (map XFin l) (XFin a) = XFin (a + Rsum l).
Proof.
  revert a; induction l as [|x l IH]; intros a; simpl.
  - f_equal. lra.
  - change (Exact.add (XFin a) (XFin x)) with (XFin (a + x)).
    rewrite IH. f_equal. lra.
Qed.

(** The logistic weight in the exact instance. *)
Lemma weight_fin_value (mu sd f : R) :
  sd <> 0 ->
  fdiv f1 (fadd f1 (Exact.exp (fdiv (fsub (XFin mu) (XFin f)) (XFin sd)))) =
  XFin (Rweight mu sd f).
Proof.
  intros Hsd.
  change (fsub (XFin mu) (XFin f)) with (XFin (mu + - f)).
  rewrite div_fin by assumption.
  change f1 with (XFin 1).
  cbn [Exact.exp fadd exact Exact.add].
  rewrite div_fin.
  - unfold Rweight. replace (mu - f) with (mu + - f) by lra. reflexivity.
  - pose proof (exp_pos ((mu + - f) / sd)). lra.
Qed.

(** ** The statistics of the sequential engine *)

Section SeqExact.
Variable Entity : Type.
Variable Fit : Entity -> R.        (* the real fitness of an entity *)

Local Abbreviation Fitness := (fun e : Entity => XFin (Fit e)).

Lemma moments_exact (rs : list R) :
  forall (i : nat) (mu s2 : R),
  exists mu' s2',
    SeqFacts.moments (map XFin rs) i (XFin mu) (XFin s2) = (XFin mu', XFin s2') /\
    mu' * INR (i + length rs) = mu * INR i + Rsum rs /\
    s2' * INR (i + length rs) = s2 * INR i + Rsum (map (fun x => x * x) rs).
Proof.
  induction rs as [|r rs IH]; intros i mu s2.
  - exists mu, s2. simpl. rewrite Nat.add_0_r. repeat split; lra.
  - cbn [map SeqFacts.moments].
    assert (Hq : IZR (Z.of_nat i + 1) = INR i + 1)
      by (rewrite plus_IZR, <- INR_IZR_INZ; reflexivity).
    assert (Hq0 : INR i + 1 <> 0) by (pose proof (pos_INR i); lra).
    change (@of_int xreal exact (Z.of_nat i + 1))
      with (XFin (IZR (Z.of_nat i + 1))).
    change (@f1 xreal exact) with (XFin 1).
    rewrite Hq, div_fin by assumption.
    cbn [fadd fsub fmul exact Exact.add Exact.sub Exact.mul Exact.neg].
    destruct (IH (S i)
                 (1 / (INR i + 1) * r + (1 + - (1 / (INR i + 1))) * mu)
                 (1 / (INR i + 1) * r * r + (1 + - (1 / (INR i + 1))) * s2))
      as (mu' & s2' & Hm & H1 & H2).
    exists mu', s2'. split; [exact Hm|].
    cbn [length Rsum fold_right map]. fold (Rsum rs).
    fold (Rsum (map (fun x => x * x) rs)).
    replace (i + S (length rs))%nat with (S i + length rs)%nat by lia.
    rewrite H1, H2, S_INR. split; field; assumption.
Qed.

Lemma mean_of_exact (ents : list Entity) :
  SeqFacts.mean_of Fitness ents = XFin (Rmean (map Fit ents)) /\
  SeqFacts.variance_of Fitness ents = XFin (Rvariance (map Fit ents)).
Proof.
  unfold SeqFacts.variance_of, SeqFacts.mean_of.
  replace (map Fitness ents) with (map XFin (map Fit ents))
    by (rewrite map_map; reflexivity).
  change (@f0 xreal exact) with (XFin 0).
  destruct (moments_exact (map Fit ents) 0 0 0) as (mu & s2 & Hm & H1 & H2).
  rewrite Hm. cbn [fst snd].
  assert (Emu : mu = Rmean (map Fit ents)).
  { unfold Rmean. simpl in H1.
    destruct (map Fit ents) as [|r rs].
    - simpl in Hm. inversion Hm. simpl. unfold Rdiv. lra.
    - assert (INR (length (r :: rs)) <> 0) by (apply not_0_INR; discriminate).
      apply (Rmult_eq_reg_r (INR (length (r :: rs)))); [|assumption].
      rewrite H1. field. assumption. }
  assert (Es2 : s2 = Rmean (map (fun x => x * x) (map Fit ents))).
  { unfold Rmean. rewrite length_map. simpl in H2.
    destruct (map Fit ents) as [|r rs].
    - simpl in Hm. inversion Hm. simpl. unfold Rdiv. lra.
    - assert (INR (length (r :: rs)) <> 0) by (apply not_0_INR; discriminate).
      apply (Rmult_eq_reg_r (INR (length (r :: rs)))); [|assumption].
      rewrite H2. field. assumption. }
  split; [now rewrite Emu|].
  cbn [fsub fmul exact Exact.sub Exact.mul Exact.add Exact.neg].
  unfold Rvariance. rewrite <- Emu, <- Es2. reflexivity.
Qed.

Lemma std_of_exact (ents : list Entity) :
  SeqFacts.std_of Fitness ents = XFin (Rstd (map Fit ents)).
Proof.
  unfold SeqFacts.std_of. destruct (mean_of_exact ents) as [_ Hv].
  rewrite Hv. change (@f0 xreal exact) with (XFin 0).
  cbn [fltb exact Exact.ltb fsqrt Exact.sqrt]. unfold Rstd.
  destruct (Rlt_dec 0 (Rvariance (map Fit ents))) as [Hpos|Hneg].
  - rewrite (proj2 (Rltb_true _ _) Hpos).
    assert (Hn : Exact.Rltb (Rvariance (map Fit ents)) 0 = false)
      by (apply Rltb_false; lra).
    now rewrite Hn.
  - now rewrite (proj2 (Rltb_false _ _) Hneg).
Qed.

Lemma weights_of_exact (ents : list Entity) :
  SeqFacts.weights_of Exact.exp Fitness ents =
  map XFin (map (Rweight (Rmean (map Fit ents)) (Rstd (map Fit ents)))
                (map Fit ents)).
Proof.
  unfold SeqFacts.weights_of. rewrite std_of_exact.
  destruct (mean_of_exact ents) as [Hm _]. rewrite Hm.
  rewrite !map_map. apply map_ext. intro e. unfold SeqFacts.weight.
  apply weight_fin_value. pose proof (Rstd_pos (map Fit ents)). lra.
Qed.

Lemma fsum_of_exact (ents : list Entity) :
  fold_left fadd (SeqFacts.weights_of Exact.exp Fitness ents) f0 =
  XFin (Rsum (map (Rweight (Rmean (map Fit ents)) (Rstd (map Fit ents)))
                  (map Fit ents))).
Proof.
  rewrite weights_of_exact. change (@f0 xreal exact) with (XFin 0).
  rewrite fold_fadd_fin. f_equal. lra.
Qed.

End SeqExact.

(** ** The statistics of the fork-join engine *)

Section ParExact.
Variable NC : nat.
Hypothesis HNC : (1 <= NC)%nat.
Variable Entity : Type.
Variable Fit : Entity -> R.        (* the real fitness of an entity *)

Local Abbreviation Fitness := (fun e : Entity => XFin (Fit e)).

Lemma visits_slots nn :
  map snd (ParFacts.visits NC nn) =
  flat_map (fun c => GaPar.worker_slots NC nn c nn) (seq O NC).
Proof.
  unfold ParFacts.visits. induction (seq 0 NC) as [|c cs IH];
    simpl; [reflexivity|].
  rewrite map_app, IH, map_map. simpl. now rewrite map_id.
Qed.

Lemma visits_perm nn :
  Permutation (map snd (ParFacts.visits NC nn)) (seq O nn).
Proof using HNC.
  apply NoDup_Permutation.
  - now apply ParFacts.visits_NoDup.
  - apply seq_NoDup.
  - intro i. rewrite in_seq. split.
    + intro H. apply in_map_iff in H. destruct H as ([c j] & E & H).
      simpl in E; subst. apply ParFacts.visits_bound in H. lia.
    + intros [_ H]. pose proof (ParFacts.visits_cover HNC H) as Hv.
      apply ParFacts.visited_true in Hv. destruct Hv as (c & Hc).
      apply in_map_iff. exists (c, i). split; [reflexivity|assumption].
Qed.

Lemma Rsum_flat_map {A : Type} (h : A -> list R) (cs : list A) :
  Rsum (map (fun c => Rsum (h c)) cs) = Rsum (flat_map h cs).
Proof.
  induction cs as [|c cs IH]; simpl; [reflexivity|].
  fold (Rsum (map (fun c0 => Rsum (h c0)) cs)).
  rewrite Rsum_app, IH. reflexivity.
Qed.

Lemma map_over_flat_map {A B C : Type} (g : B -> C) (h : A -> list B) cs :
  map g (flat_map h cs) = flat_map (fun c => map g (h c)) cs.
Proof.
  induction cs as [|c cs IH]; simpl; [reflexivity|].
  now rewrite map_app, IH.
Qed.

(** The sum of the per-worker sums is the sum over all slots. *)
Lemma sum_totals_exact (h : nat -> xreal) (g : nat -> R) (nn : nat) :
  (forall i, (i < nn)%nat -> h i = XFin (g i)) ->
  GaPar.sum (ParFacts.totals NC h nn) = XFin (Rsum (map g (seq O nn))).
Proof using HNC.
  intros Hh. unfold GaPar.sum, ParFacts.totals.
  assert (Ht : map (ParFacts.worker_total NC h nn) (seq O NC) =
               map XFin (map (fun c => Rsum (map g (GaPar.worker_slots NC nn c nn)))
                             (seq O NC))).
  { rewrite map_map. apply map_ext. intro c. unfold ParFacts.worker_total.
    replace (map h (GaPar.worker_slots NC nn c nn))
      with (map XFin (map g (GaPar.worker_slots NC nn c nn))).
    - change (@f0 xreal exact) with (XFin 0). rewrite fold_fadd_fin.
      f_equal. lra.
    - rewrite map_map. apply map_ext_in. intros i Hi. symmetry. apply Hh.
      apply ParFacts.worker_slots_in in Hi. lia. }
  rewrite Ht. change (@f0 xreal exact) with (XFin 0).
  rewrite fold_fadd_fin. f_equal. rewrite Rplus_0_l.
  rewrite (Rsum_flat_map (fun c => map g (GaPar.worker_slots NC nn c nn))).
  rewrite <- map_over_flat_map, <- visits_slots.
  apply Rsum_perm, Permutation_map, visits_perm.
Qed.

Lemma map_nth_seq (rs : list R) :
  map (fun i => nth i rs 0) (seq O (length rs)) = rs.
Proof.
  induction rs as [|r rs IH]; simpl; [reflexivity|].
  f_equal. rewrite <- seq_shift, map_map. exact IH.
Qed.

Lemma map_fun_nth_seq (h : R -> R) (rs : list R) :
  map (fun i => h (nth i rs 0)) (seq O (length rs)) = map h rs.
Proof.
  rewrite <- (map_map (fun i => nth i rs 0) h), map_nth_seq. reflexivity.
Qed.

Lemma raw_exact (ents : list Entity) i :
  ParFacts.raw Fitness ents i = XFin (nth i (map Fit ents) 0).
Proof.
  unfold ParFacts.raw.
  destruct (nth_error ents i) as [e|] eqn:E.
  - erewrite nth_error_nth; [reflexivity|].
    rewrite nth_error_map, E. reflexivity.
  - rewrite nth_overflow; [reflexivity|].
    apply nth_error_None in E. now rewrite length_map.
Qed.

Lemma par_sums_exact (ents : list Entity) :
  GaPar.sum (ParFacts.totals NC (ParFacts.raw Fitness ents) (length ents)) =
    XFin (Rsum (map Fit ents)) /\
  GaPar.sum (ParFacts.totals NC
               (fun i => fmul (ParFacts.raw Fitness ents i)
                              (ParFacts.raw Fitness ents i)) (length ents)) =
    XFin (Rsum (map (fun x => x * x) (map Fit ents))).
Proof using HNC.
  split.
  - rewrite (@sum_totals_exact _ (fun i => nth i (map Fit ents) 0)).
    + rewrite <- (length_map Fit ents), map_nth_seq. reflexivity.
    + intros i _. apply raw_exact.
  - rewrite (@sum_totals_exact _
               (fun i => nth i (map Fit ents) 0 * nth i (map Fit ents) 0)).
    + rewrite <- (length_map Fit ents).
      rewrite (map_fun_nth_seq (fun x => x * x)). reflexivity.
    + intros i _. rewrite raw_exact. reflexivity.
Qed.

Lemma par_mean_exact (ents : list Entity) :
  ents <> [] ->
  ParFacts.mean_of NC Fitness ents (Z.of_nat (length ents)) =
    XFin (Rmean (map Fit ents)) /\
  ParFacts.variance_of NC Fitness ents (Z.of_nat (length ents)) =
    XFin (Rvariance (map Fit ents)).
Proof using HNC.
  intros Hne.
  assert (Hn : INR (length ents) <> 0)
    by (apply not_0_INR; destruct ents; [congruence|discriminate]).
  destruct (par_sums_exact ents) as [H1 H2].
  assert (Hm : ParFacts.mean_of NC Fitness ents (Z.of_nat (length ents)) =
               XFin (Rmean (map Fit ents))).
  { unfold ParFacts.mean_of. rewrite Nat2Z.id, H1.
    change (@of_int xreal exact (Z.of_nat (length ents)))
      with (XFin (IZR (Z.of_nat (length ents)))).
    rewrite <- INR_IZR_INZ, div_fin by assumption.
    unfold Rmean. now rewrite length_map. }
  split; [exact Hm|].
  unfold ParFacts.variance_of. rewrite Hm, Nat2Z.id, H2.
  change (@of_int xreal exact (Z.of_nat (length ents)))
    with (XFin (IZR (Z.of_nat (length ents)))).
  rewrite <- INR_IZR_INZ, div_fin by assumption.
  unfold Rvariance, Rmean. rewrite !length_map. reflexivity.
Qed.

Lemma par_std_exact (ents : list Entity) :
  ParFacts.std_of NC Fitness ents (Z.of_nat (length ents)) =
  XFin (Rstd (map Fit ents)).
Proof using HNC.
  unfold ParFacts.std_of. destruct ents as [|e ents].
  - (* no entity: the mean is 0/0 *)
    rewrite (@Rstd_degenerate (map Fit []))
      by (rewrite (@Rvariance_const 0 (map Fit [])); [lra|intros x []]).
    unfold ParFacts.variance_of, ParFacts.mean_of.
    destruct (par_sums_exact []) as [H1 H2].
    cbn [length] in *. change (Z.to_nat (Z.of_nat 0)) with O.
    rewrite H1, H2. cbn. rewrite !Reqb_true. reflexivity.
  - destruct (@par_mean_exact (e :: ents)) as [_ Hv]; [discriminate|].
    rewrite Hv. change (@f0 xreal exact) with (XFin 0).
    cbn [fltb exact Exact.ltb fsqrt Exact.sqrt]. unfold Rstd.
    destruct (Rlt_dec 0 (Rvariance (map Fit (e :: ents)))) as [Hpos|Hneg].
    + rewrite (proj2 (Rltb_true _ _) Hpos).
      assert (Hn : Exact.Rltb (Rvariance (map Fit (e :: ents))) 0 = false)
        by (apply Rltb_false; lra).
      now rewrite Hn.
    + now rewrite (proj2 (Rltb_false _ _) Hneg).
Qed.

Lemma par_weight_exact (ents : list Entity) (r : R) :
  ents <> [] ->
  ParFacts.weight Exact.exp
    (ParFacts.mean_of NC Fitness ents (Z.of_nat (length ents)))
    (ParFacts.std_of NC Fitness ents (Z.of_nat (length ents))) (XFin r) =
  XFin (Rweight (Rmean (map Fit ents)) (Rstd (map Fit ents)) r).
Proof using HNC.
  intros Hne. rewrite par_std_exact.
  destruct (par_mean_exact Hne) as [Hm _]. rewrite Hm.
  unfold ParFacts.weight. apply weight_fin_value.
  pose proof (Rstd_pos (map Fit ents)). lra.
Qed.

Lemma par_weights_exact (ents : list Entity) :
  ParFacts.weights_of Exact.exp NC Fitness ents (Z.of_nat (length ents)) =
  map XFin (map (Rweight (Rmean (map Fit ents)) (Rstd (map Fit ents)))
                (map Fit ents)).
Proof using HNC.
  unfold ParFacts.weights_of. destruct ents as [|e ents]; [reflexivity|].
  rewrite !map_map. apply map_ext. intro x.
  apply par_weight_exact. discriminate.
Qed.

Lemma par_fsum_exact (ents : list Entity) :
  ParFacts.fsum_of Exact.exp NC Fitness ents (Z.of_nat (length ents)) =
  XFin (Rsum (map (Rweight (Rmean (map Fit ents)) (Rstd (map Fit ents)))
                  (map Fit ents))).
Proof using HNC.
  unfold ParFacts.fsum_of. rewrite Nat2Z.id.
  rewrite (@sum_totals_exact _
             (fun i => Rweight (Rmean (map Fit ents)) (Rstd (map Fit ents))
                               (nth i (map Fit ents) 0))).
  - rewrite <- (length_map Fit ents) at 1.
    rewrite (map_fun_nth_seq
               (Rweight (Rmean (map Fit ents)) (Rstd (map Fit ents)))).
    reflexivity.
  - intros i Hi. rewrite raw_exact. apply par_weight_exact.
    destruct ents; [simpl in Hi; lia|discriminate].
Qed.

End ParExact.

End ExactFacts.


(* ================================================================== *)
(** * The order of [float64] and the elite *)
(* ================================================================== *)

(** What the elite bookkeeping needs of [<] and [<=]: the laws of a total
    order away from NaN, and that nothing is below minus infinity.
    [b <=? b = true] says that [b] is not NaN. *)
Class CmpLaws (F : Type) {num : FloatOps F} : Prop := {
  fle_flt_trans :
    forall a b c : F, fleb a b = true -> fltb b c = true -> fleb a c = true;
  flt_ordered : forall a b : F, fltb a b = true -> fleb b b = true;
  fle_not_flt : forall a b : F, fleb a b = true -> fltb b a = false;
  flt_neg_inf : forall a : F, fltb a neg_inf = false;
  neg_inf_ordered : fleb (@neg_inf F num) neg_inf = true
}.

Ltac xcmp :=
  cbn; intros; try discriminate; try reflexivity;
  repeat match goal with
         | H : Exact.Rleb _ _ = true |- _ => apply ExactFacts.Rleb_true in H
         | H : Exact.Rltb _ _ = true |- _ => apply ExactFacts.Rltb_true in H
         | H : Exact.Rleb _ _ = false |- _ => apply ExactFacts.Rleb_false in H
         | H : Exact.Rltb _ _ = false |- _ => apply ExactFacts.Rltb_false in H
         | |- Exact.Rleb _ _ = true => apply ExactFacts.Rleb_true
         | |- Exact.Rltb _ _ = true => apply ExactFacts.Rltb_true
         | |- Exact.Rleb _ _ = false => apply ExactFacts.Rleb_false
         | |- Exact.Rltb _ _ = false => apply ExactFacts.Rltb_false
         end;
  try lra.

#[export] Instance exact_laws : @CmpLaws xreal exact.
Proof.
  constructor.
  - intros [| |a|] [| |b|] [| |c|]; xcmp.
  - intros [| |a|] [| |b|]; xcmp.
  - intros [| |a|] [| |b|]; xcmp.
  - intros [| |a|]; reflexivity.
  - reflexivity.
Qed.

Module EliteFacts.

Section Laws.
Context {F : Type} {num : FloatOps F} {laws : @CmpLaws F num}.
Variable Entity : Type.
Variable Fitness : Entity -> F.

Local Open Scope fl_scope.

(** *** The sequential engine: one scan of the population *)

Lemma champion_ge (xs : list Entity) :
  forall e fe fe0,
    (fe0 <=? fe) = true ->
    (fe0 <=? snd (SeqFacts.champion Fitness xs e fe)) = true.
Proof using laws.
  induction xs as [|x xs IH]; intros e fe fe0 H; simpl; [assumption|].
  destruct (fe <? Fitness x) eqn:E; [|now apply IH].
  apply IH. eapply fle_flt_trans; eauto.
Qed.

Lemma champion_ordered (xs : list Entity) :
  forall e fe,
    (fe <=? fe) = true ->
    (snd (SeqFacts.champion Fitness xs e fe)
       <=? snd (SeqFacts.champion Fitness xs e fe)) = true.
Proof using laws.
  induction xs as [|x xs IH]; intros e fe H; simpl; [assumption|].
  destruct (fe <? Fitness x) eqn:E; [|now apply IH].
  apply IH. eapply flt_ordered; eauto.
Qed.

Lemma champion_unchanged (xs : list Entity) e fe :
  (forall x, In x xs -> (fe <? Fitness x) = false) ->
  SeqFacts.champion Fitness xs e fe = (e, fe).
Proof.
  induction xs as [|x xs IH]; intros H; simpl; [reflexivity|].
  rewrite (H x) by now left. apply IH. intros; apply H; now right.
Qed.

(** *** The fork-join engine: per-worker maxima, then their maximum *)

Lemma best_range (ents : list Entity) (slots : list nat) :
  forall mf me,
    ParFacts.best Fitness ents slots mf me = (mf, me) \/
    exists e, In e ents /\
              ParFacts.best Fitness ents slots mf me = (Fitness e, Some e).
Proof.
  induction slots as [|i slots IH]; intros mf me; simpl; [now left|].
  destruct (nth_error ents i) as [e|] eqn:E; [|now left].
  destruct (mf <? Fitness e); [|apply IH].
  right. destruct (IH (Fitness e) (Some e)) as [H|H]; [|exact H].
  exists e. split; [eapply nth_error_In; eauto|exact H].
Qed.

Lemma max_loop_range (xs : list F) :
  forall i k m,
    GaPar.max_loop xs i k m = (k, m) \/
    exists c, nth_error xs c = Some (snd (GaPar.max_loop xs i k m)) /\
              fst (GaPar.max_loop xs i k m) = (i + c)%nat.
Proof.
  induction xs as [|x xs IH]; intros i k m; simpl; [now left|].
  destruct (m <? x).
  - right. destruct (IH (S i) i x) as [H|(c & H1 & H2)].
    + exists O. rewrite H. split; [reflexivity|simpl; lia].
    + exists (S c). split; [exact H1|lia].
  - destruct (IH (S i) k m) as [H|(c & H1 & H2)]; [now left|].
    right. exists (S c). split; [exact H1|lia].
Qed.

Lemma crowned_cases (NC : nat) (m : GaPar.GA Entity) :
  ParFacts.crowned NC Fitness m = m \/
  exists e, In e (GaPar.entities m) /\
            (GaPar.fitness m <? Fitness e) = true /\
            ParFacts.crowned NC Fitness m =
              GaPar.set_elite m (Fitness e) (Some e).
Proof using laws.
  unfold ParFacts.crowned.
  set (nn := Z.to_nat (GaPar.n m)).
  destruct (GaPar.max (ParFacts.mfs_of NC Fitness (GaPar.entities m) nn))
    as [c f] eqn:Emax.
  destruct (GaPar.fitness m <? f) eqn:Elt; [|now left].
  unfold GaPar.max in Emax.
  destruct (max_loop_range
              (ParFacts.mfs_of NC Fitness (GaPar.entities m) nn) O O neg_inf)
    as [H|(c' & H1 & H2)]; rewrite Emax in *.
  - inversion H; subst. now rewrite flt_neg_inf in Elt.
  - cbn [fst snd Nat.add] in *. subst c'.
    unfold ParFacts.mfs_of in H1. rewrite nth_error_map, nth_error_seq in H1.
    destruct (Nat.ltb_spec c NC) as [Hc|Hc]; [|discriminate].
    cbn in H1. inversion H1 as [Hf]. clear H1.
    assert (Hmes : nth c (ParFacts.mes_of NC Fitness (GaPar.entities m) nn) None =
                   snd (ParFacts.best Fitness (GaPar.entities m)
                          (GaPar.worker_slots NC nn c nn) neg_inf None)).
    { apply nth_error_nth. unfold ParFacts.mes_of.
      rewrite nth_error_map, nth_error_seq.
      destruct (Nat.ltb_spec c NC); [reflexivity|lia]. }
    rewrite Hmes.
    destruct (best_range (GaPar.entities m) (GaPar.worker_slots NC nn c nn)
                         neg_inf None) as [Hb|(e & He & Hb)];
      rewrite Hb in *; cbn [fst snd] in *.
    + subst f. now rewrite flt_neg_inf in Elt.
    + right. exists e. subst f. repeat split; assumption.
Qed.

End Laws.
End EliteFacts.


(* ================================================================== *)
(** * The order of IEEE-754 binary64 *)
(* ================================================================== *)

Module Binary64Facts.

(** A key whose lexicographic order is the order of the numbers that are
    not NaN: the class (minus infinity, negative, zero, positive, plus
    infinity), then exponent and mantissa, both negated below zero. *)
Definition sf_key (x : spec_float) : option (Z * Z * Z) :=
  match x with
  | S754_nan => None
  | S754_infinity true => Some (-2, 0, 0)%Z
  | S754_infinity false => Some (2, 0, 0)%Z
  | S754_zero _ => Some (0, 0, 0)%Z
  | S754_finite true m e => Some (-1, - e, Zneg m)%Z
  | S754_finite false m e => Some (1, e, Zpos m)%Z
  end.

Definition lex3 (a b : Z * Z * Z) : comparison :=
  let '(a1, a2, a3) := a in
  let '(b1, b2, b3) := b in
  match (a1 ?= b1)%Z with
  | Eq => match (a2 ?= b2)%Z with
          | Eq => (a3 ?= b3)%Z
          | r => r
          end
  | r => r
  end.

Lemma SFcompare_lex (x y : spec_float) :
  SFcompare x y =
  match sf_key x, sf_key y with
  | Some a, Some b => Some (lex3 a b)
  | _, _ => None
  end.
Proof.
  destruct x as [[|]|[|]| |[|] m e]; destruct y as [[|]|[|]| |[|] m' e'];
    try reflexivity; cbn.
  rewrite Z.compare_opp, (Z.compare_antisym e e').
  destruct (e ?= e')%Z; reflexivity.
Qed.

(** The lexicographic comparison in terms of [<] and [=]. *)
Definition lex_lt (a b : Z * Z * Z) : Prop :=
  let '(a1, a2, a3) := a in
  let '(b1, b2, b3) := b in
  (a1 < b1 \/ (a1 = b1 /\ (a2 < b2 \/ (a2 = b2 /\ a3 < b3))))%Z.

Lemma lex3_Lt a b : lex3 a b = Lt <-> lex_lt a b.
Proof.
  destruct a as [[a1 a2] a3], b as [[b1 b2] b3]. unfold lex3, lex_lt.
  destruct (Z.compare_spec a1 b1); destruct (Z.compare_spec a2 b2);
    destruct (Z.compare_spec a3 b3); split; intro Hx;
    try discriminate; try reflexivity; try lia.
Qed.

Lemma lex3_Eq a b : lex3 a b = Eq <-> a = b.
Proof.
  destruct a as [[a1 a2] a3], b as [[b1 b2] b3]. unfold lex3.
  destruct (Z.compare_spec a1 b1); destruct (Z.compare_spec a2 b2);
    destruct (Z.compare_spec a3 b3); split; intro Hx;
    try discriminate; try reflexivity; try (inversion Hx; lia);
    subst; reflexivity.
Qed.

Lemma lex_lt_trans a b c : lex_lt a b -> lex_lt b c -> lex_lt a c.
Proof.
  destruct a as [[a1 a2] a3], b as [[b1 b2] b3], c as [[c1 c2] c3].
  unfold lex_lt. lia.
Qed.

Lemma lex_lt_irrefl a : ~ lex_lt a a.
Proof. destruct a as [[a1 a2] a3]. unfold lex_lt. lia. Qed.

Lemma leb_key (x y : float) :
  PrimFloat.leb x y = true <->
  exists a b, sf_key (Prim2SF x) = Some a /\ sf_key (Prim2SF y) = Some b /\
              (lex_lt a b \/ a = b).
Proof.
  rewrite leb_spec. unfold SFleb. rewrite SFcompare_lex.
  destruct (sf_key (Prim2SF x)) as [a|]; destruct (sf_key (Prim2SF y)) as [b|];
    try (split; [discriminate|intros (? & ? & ? & ? & ?); discriminate]).
  split.
  - intro H. exists a, b. repeat split.
    destruct (lex3 a b) eqn:E; try discriminate.
    + right. now apply lex3_Eq.
    + left. now apply lex3_Lt.
  - intros (a' & b' & Ea & Eb & H). inversion Ea; inversion Eb; subst.
    destruct H as [H|H].
    + apply lex3_Lt in H. now rewrite H.
    + apply lex3_Eq in H. now rewrite H.
Qed.

Lemma ltb_key (x y : float) :
  PrimFloat.ltb x y = true <->
  exists a b, sf_key (Prim2SF x) = Some a /\ sf_key (Prim2SF y) = Some b /\
              lex_lt a b.
Proof.
  rewrite ltb_spec. unfold SFltb. rewrite SFcompare_lex.
  destruct (sf_key (Prim2SF x)) as [a|]; destruct (sf_key (Prim2SF y)) as [b|];
    try (split; [discriminate|intros (? & ? & ? & ? & ?); discriminate]).
  split.
  - intro H. exists a, b. repeat split.
    destruct (lex3 a b) eqn:E; try discriminate. now apply lex3_Lt.
  - intros (a' & b' & Ea & Eb & H). inversion Ea; inversion Eb; subst.
    apply lex3_Lt in H. now rewrite H.
Qed.

End Binary64Facts.

#[export] Instance binary64_laws : @CmpLaws float binary64.
Proof.
  constructor; cbn [fleb fltb neg_inf binary64].
  - intros a b c Hab Hbc.
    apply Binary64Facts.leb_key in Hab. apply Binary64Facts.ltb_key in Hbc.
    destruct Hab as (ka & kb & Ea & Eb & H).
    destruct Hbc as (kb' & kc & Eb' & Ec & H').
    rewrite Eb in Eb'. inversion Eb'; subst kb'.
    apply Binary64Facts.leb_key. exists ka, kc. repeat split; try assumption.
    left. destruct H as [H|H].
    + eapply Binary64Facts.lex_lt_trans; eauto.
    + now subst.
  - intros a b Hab. apply Binary64Facts.ltb_key in Hab.
    destruct Hab as (ka & kb & Ea & Eb & H).
    apply Binary64Facts.leb_key. exists kb, kb. auto.
  - intros a b Hab. apply Binary64Facts.leb_key in Hab.
    destruct Hab as (ka & kb & Ea & Eb & H).
    destruct (PrimFloat.ltb b a) eqn:E; [|reflexivity].
    apply Binary64Facts.ltb_key in E.
    destruct E as (kb' & ka' & Eb' & Ea' & H').
    rewrite Ea in Ea'. rewrite Eb in Eb'. inversion Ea'; inversion Eb'; subst.
    exfalso. destruct H as [H|H].
    + eapply Binary64Facts.lex_lt_irrefl, Binary64Facts.lex_lt_trans; eauto.
    + subst. eapply Binary64Facts.lex_lt_irrefl; eauto.
  - intros a. destruct (PrimFloat.ltb a neg_infinity) eqn:E; [|reflexivity].
    apply Binary64Facts.ltb_key in E.
    destruct E as (ka & kb & Ea & Eb & H).
    assert (Hk : Prim2SF neg_infinity = S754_infinity true) by reflexivity.
    rewrite Hk in Eb. inversion Eb; subst kb.
    exfalso. destruct (Prim2SF a) as [[|]|[|]| |[|] m e]; cbn in Ea;
      inversion Ea; subst ka; cbn in H; lia.
  - reflexivity.
Qed.


(* ================================================================== *)
(** * A concrete engine *)
(* ================================================================== *)

(** Entities are integers, the fitness of an entity is its value, crossover
    returns the fitter parent and mutation is the identity. The arithmetic
    is the exact instance; two workers serve the fork-join engine. *)
Module Demo.

Definition Entity : Type := Z.
Definition Fit (e : Entity) : R := IZR e.
Definition Fitness (e : Entity) : xreal := XFin (Fit e).
Definition Mutate (e : Entity) : Entity := e.
Definition Crossover (x y : Entity) : Entity := Z.max x y.
Definition CrossoverW (x y : Entity) (w : xreal) : Entity := Z.max x y.
Definition same (x y : Entity) : bool := Z.eqb x y.
Definition NC : nat := 2.

(** The factory: the [k]-th entity has fitness [k + 1]. *)
Definition factory (k : nat) : Entity := (Z.of_nat k + 1)%Z.

(** Generators that always deliver 1/2. *)
Definition seed : nat -> xreal := fun _ => XFin (1 / 2).
Definition seeds : nat -> nat -> xreal * xreal * xreal :=
  fun _ _ => (XFin (1 / 2), XFin (1 / 2), XFin (1 / 2)).

(** Engines of two entities whose statistics are still to be computed. *)
Definition seq_engine : @GaSeq.GA xreal Entity :=
  GaSeq.mkGA 2 None XNegInf [1; 2]%Z seed f0 f0 f1 f1 [f0; f0] [None; None].
Definition par_engine : @GaPar.GA xreal Entity :=
  GaPar.mkGA 2 XNegInf None c0_1 f1 f0 seeds [f0; f0] [1; 2]%Z [None; None].

Lemma seq_engine_wf : SeqFacts.wf seq_engine.
Proof. repeat split. Qed.

Lemma par_engine_wf : ParFacts.wf par_engine.
Proof. repeat split. Qed.

Lemma NC_pos : (1 <= NC)%nat.
Proof. unfold NC. lia. Qed.

End Demo.

(* ================================================================== *)
(** * The evolution driver and construction *)
(* ================================================================== *)

Section Driver.
Context {F : Type} {num : FloatOps F}.
Variable Exp : F -> F.
Variable NC : nat.
Hypothesis HNC : (1 <= NC)%nat.
Variable Entity : Type.
Variable Fitness : Entity -> F.
Variable Mutate : Entity -> Entity.
Variable Crossover : Entity -> Entity -> Entity.
Variable CrossoverW : Entity -> Entity -> F -> Entity.
Variable same : Entity -> Entity -> bool.

Local Abbreviation seq_run := (GaSeq.Evolve_run Exp Fitness Mutate Crossover same).
Local Abbreviation seq_Evolve := (GaSeq.Evolve Exp Fitness Mutate Crossover same).
Local Abbreviation par_run := (GaPar.Evolve_run Exp NC Fitness Mutate CrossoverW).
Local Abbreviation par_Evolve := (GaPar.Evolve Exp NC Fitness Mutate CrossoverW).

(** C10. [Evolve(k, max)] with [k <= 0] calls [Next] zero times, leaves the
    engine as it was and reports [converged = true] with the elite the
    engine already holds (the construction-time elite on an engine fresh
    from [New]); with [max <= 0] and [k > 0] it calls [Next] zero times and
    reports [converged = false]. Both engines. *)
Theorem Evolve_without_generations
        (k max : Z) (ms : @GaSeq.GA F Entity) (mp : @GaPar.GA F Entity) :
  ((k <= 0)%Z ->
   seq_run k max ms = Some (GaSeq.mkRun 0 0 (GaSeq.elite ms) ms) /\
   seq_Evolve k max ms = Some (GaSeq.elite ms, true, ms) /\
   par_run k max mp = Some (GaPar.mkRun 0 0 (GaPar.fitness mp) mp) /\
   par_Evolve k max mp =
     Some (GaPar.elite mp, GaPar.fitness mp, true, mp)) /\
  ((0 < k)%Z -> (max <= 0)%Z ->
   seq_run k max ms = Some (GaSeq.mkRun 0 0 (GaSeq.elite ms) ms) /\
   seq_Evolve k max ms = Some (GaSeq.elite ms, false, ms) /\
   par_run k max mp = Some (GaPar.mkRun 0 0 (GaPar.fitness mp) mp) /\
   par_Evolve k max mp =
     Some (GaPar.elite mp, GaPar.fitness mp, false, mp)).
Proof. clear HNC.
  split.
  - intros Hk.
    assert (Hs : seq_run k max ms = Some (GaSeq.mkRun 0 0 (GaSeq.elite ms) ms)).
    { unfold GaSeq.Evolve_run.
      destruct (Z.to_nat max); cbn [GaSeq.Evolve_loop];
        destruct (Z.ltb_spec 0 k); try lia; reflexivity. }
    assert (Hp : par_run k max mp =
                 Some (GaPar.mkRun 0 0 (GaPar.fitness mp) mp)).
    { unfold GaPar.Evolve_run.
      destruct (Z.to_nat max); cbn [GaPar.Evolve_loop];
        destruct (Z.ltb_spec 0 k); try lia; reflexivity. }
    unfold GaSeq.Evolve, GaPar.Evolve. rewrite Hs, Hp.
    cbn [GaSeq.run_i GaSeq.run_elite GaSeq.run_ga
         GaPar.run_i GaPar.run_fitness GaPar.run_ga].
    destruct (Z.leb_spec k 0); [|lia]. repeat split.
  - intros Hk Hmax.
    assert (Hs : seq_run k max ms = Some (GaSeq.mkRun 0 0 (GaSeq.elite ms) ms)).
    { unfold GaSeq.Evolve_run.
      destruct (Z.to_nat max); cbn [GaSeq.Evolve_loop];
        destruct (Z.ltb_spec 0 k); destruct (Z.ltb_spec 0 max);
        try lia; reflexivity. }
    assert (Hp : par_run k max mp =
                 Some (GaPar.mkRun 0 0 (GaPar.fitness mp) mp)).
    { unfold GaPar.Evolve_run.
      destruct (Z.to_nat max); cbn [GaPar.Evolve_loop];
        destruct (Z.ltb_spec 0 k); destruct (Z.ltb_spec 0 max);
        try lia; reflexivity. }
    unfold GaSeq.Evolve, GaPar.Evolve. rewrite Hs, Hp.
    cbn [GaSeq.run_i GaSeq.run_elite GaSeq.run_ga
         GaPar.run_i GaPar.run_fitness GaPar.run_ga].
    destruct (Z.leb_spec k 0); [lia|]. repeat split.
Qed.

Lemma seq_tie (m : @GaSeq.GA F Entity) :
  SeqFacts.wf m ->
  exists e m', seq_Evolve 1 1 m = Some (e, true, m').
Proof.
  intros Hwf. unfold GaSeq.Evolve, GaSeq.Evolve_run.
  change (Z.to_nat 1) with 1%nat. cbn [GaSeq.Evolve_loop].
  destruct (SeqFacts.seq_Next_total Exp Fitness Mutate Crossover same Hwf)
    as (zs & _ & HN & _).
  change ((0 <? 1)%Z && (0 <? 1)%Z) with true. cbv iota.
  rewrite HN.
  destruct (GaSeq.differs same _ (GaSeq.elite m)); cbn; eauto.
Qed.

Lemma par_tie (m : @GaPar.GA F Entity) :
  ParFacts.wf m ->
  exists e f m', par_Evolve 1 1 m = Some (e, f, true, m').
Proof using HNC.
  intros Hwf. unfold GaPar.Evolve, GaPar.Evolve_run.
  change (Z.to_nat 1) with 1%nat. cbn [GaPar.Evolve_loop].
  destruct (ParFacts.par_Next_total Exp HNC Fitness Mutate CrossoverW Hwf)
    as (zs & _ & HN & _).
  change ((0 <? 1)%Z && (0 <? 1)%Z) with true. cbv iota.
  rewrite HN.
  destruct (fltb (GaPar.fitness m) _); cbn; eauto.
Qed.



End Driver.


(** ** On the concrete engine *)

Module DemoRuns.

Definition seq_run :=
  GaSeq.Evolve_run Exact.exp Demo.Fitness Demo.Mutate Demo.Crossover Demo.same.
Definition seq_Evolve :=
  GaSeq.Evolve Exact.exp Demo.Fitness Demo.Mutate Demo.Crossover Demo.same.
Definition par_run :=
  GaPar.Evolve_run Exact.exp Demo.NC Demo.Fitness Demo.Mutate Demo.CrossoverW.
Definition par_Evolve :=
  GaPar.Evolve Exact.exp Demo.NC Demo.Fitness Demo.Mutate Demo.CrossoverW.
Definition seq_New := GaSeq.New Exact.exp Demo.Fitness.
Definition par_New := GaPar.New Exact.exp Demo.NC Demo.Fitness.

End DemoRuns.

(** [Evolve(0, 7)] and [Evolve(3, 0)] on the concrete engines. *)
Lemma Evolve_without_generations_witness :
  (DemoRuns.seq_Evolve 0 7 Demo.seq_engine =
     Some (GaSeq.elite Demo.seq_engine, true, Demo.seq_engine) /\
   DemoRuns.par_Evolve 0 7 Demo.par_engine =
     Some (GaPar.elite Demo.par_engine, GaPar.fitness Demo.par_engine, true,
           Demo.par_engine)) /\
  (DemoRuns.seq_Evolve 3 0 Demo.seq_engine =
     Some (GaSeq.elite Demo.seq_engine, false, Demo.seq_engine) /\
   DemoRuns.par_Evolve 3 0 Demo.par_engine =
     Some (GaPar.elite Demo.par_engine, GaPar.fitness Demo.par_engine, false,
           Demo.par_engine)).
Proof.
  split.
  - destruct (proj1 (@Evolve_without_generations xreal exact Exact.exp Demo.NC
                       Demo.Entity Demo.Fitness Demo.Mutate Demo.Crossover
                       Demo.CrossoverW Demo.same 0 7
                       Demo.seq_engine Demo.par_engine))
      as (_ & H1 & _ & H2); [lia|].
    split; [exact H1|exact H2].
  - destruct (proj2 (@Evolve_without_generations xreal exact Exact.exp Demo.NC
                       Demo.Entity Demo.Fitness Demo.Mutate Demo.Crossover
                       Demo.CrossoverW Demo.same 3 0
                       Demo.seq_engine Demo.par_engine))
      as (_ & H1 & _ & H2); [lia|lia|].
    split; [exact H1|exact H2].
Defined.






(* ================================================================== *)
(** * The generation step *)
(* ================================================================== *)

Section Generation.
Context {F : Type} {num : FloatOps F}.
Variable Exp : F -> F.
Variable NC : nat.
Hypothesis HNC : (1 <= NC)%nat.
Variable Entity : Type.
Variable Fitness : Entity -> F.
Variable Mutate : Entity -> Entity.
Variable Crossover : Entity -> Entity -> Entity.
Variable CrossoverW : Entity -> Entity -> F -> Entity.
Variable same : Entity -> Entity -> bool.

Lemma seq_offspring_frame (m0 m : @GaSeq.GA F Entity) pm k :
  SeqFacts.same_population m0 m ->
  forall r,
    SeqFacts.offspring Mutate Crossover same m pm r k =
    SeqFacts.offspring Mutate Crossover same m0 pm r k.
Proof.
  intros Hpop. induction k as [|k IH]; intros r; simpl; [reflexivity|].
  unfold SeqFacts.child. rewrite (SeqFacts.parents_frame same _ _ Hpop).
  destruct (SeqFacts.parents same m0 (r 0%nat) (r 1%nat)) as [[x y]|];
    [|reflexivity].
  now rewrite IH.
Qed.

Lemma par_offspring_frame (m : @GaPar.GA F Entity) t :
  ParFacts.offspring Mutate CrossoverW (GaPar.set_tentities m t) =
  ParFacts.offspring Mutate CrossoverW m.
Proof.
  unfold ParFacts.offspring. cbn [GaPar.entities GaPar.rnd GaPar.set_tentities].
  apply map_ext. intro i.
  apply ParFacts.child_frame; [repeat split|reflexivity].
Qed.

Lemma adjust_result_frame (m : @GaPar.GA F Entity) :
  GaPar.n (ParFacts.adjust_result Exp NC Fitness m) = GaPar.n m /\
  GaPar.entities (ParFacts.adjust_result Exp NC Fitness m) = GaPar.entities m /\
  GaPar.tentities (ParFacts.adjust_result Exp NC Fitness m) = GaPar.tentities m /\
  GaPar.rnd (ParFacts.adjust_result Exp NC Fitness m) = GaPar.rnd m /\
  GaPar.base (ParFacts.adjust_result Exp NC Fitness m) = GaPar.base m.
Proof.
  unfold ParFacts.adjust_result.
  cbn [GaPar.n GaPar.entities GaPar.tentities GaPar.rnd GaPar.base
       GaPar.set_fsum GaPar.set_fentities].
  destruct (ParFacts.adjust_pm_frame Exp (ParFacts.crowned NC Fitness m)
              (ParFacts.std_of NC Fitness (GaPar.entities m) (GaPar.n m)))
    as (An & _ & _ & Ab & _ & Ar & _ & Ae & At).
  destruct (ParFacts.crowned_frame NC Fitness m)
    as (Cn & _ & Cb & _ & Cr & _ & Ce & Ct).
  rewrite An, Ab, Ar, Ae, At, Cn, Cb, Cr, Ce, Ct. repeat split.
Qed.

(** C8. On an engine whose slices have the length [n], [Next] returns, and
    - the new population is the list of the children of the slots, each
      computed by selection, crossover and mutation from the population,
      the weights and the weight sum the engine had when [Next] was called,
      and from the numbers the slot draws: what the working buffer holds,
      the children already written included, has no part in it;
    - the old population has become the working buffer;
    - the fitness cache, the weights, their sum and the statistics the
      engine holds on return are those of the new population.
    Both engines. *)
Theorem Next_isolates_generations
        (ms : @GaSeq.GA F Entity) (mp : @GaPar.GA F Entity) :
  SeqFacts.wf ms -> ParFacts.wf mp ->
  (exists zs m',
      GaSeq.Next Exp Fitness Mutate Crossover same ms
        = Some (GaSeq.elite m', m') /\
      SeqFacts.offspring Mutate Crossover same ms
        (GaSeq.mutation_probability Exp ms) (GaSeq.rnd ms)
        (length (GaSeq.entities ms)) = Some zs /\
      (forall t r,
          SeqFacts.offspring Mutate Crossover same
            (GaSeq.set_tentities (GaSeq.set_rnd ms r) t)
            (GaSeq.mutation_probability Exp ms) (GaSeq.rnd ms)
            (length (GaSeq.entities ms)) = Some zs) /\
      GaSeq.entities m' = zs /\
      GaSeq.tentities m' = map Some (GaSeq.entities ms) /\
      SeqFacts.consistent Exp Fitness m' /\
      SeqFacts.wf m') /\
  (exists zs m',
      GaPar.Next Exp NC Fitness Mutate CrossoverW mp
        = Some (GaPar.elite m', GaPar.fitness m', m') /\
      ParFacts.offspring Mutate CrossoverW mp = map Some zs /\
      (forall t,
          ParFacts.offspring Mutate CrossoverW (GaPar.set_tentities mp t)
          = map Some zs) /\
      GaPar.entities m' = zs /\
      GaPar.tentities m' = map Some (GaPar.entities mp) /\
      ParFacts.consistent Exp NC Fitness m' /\
      ParFacts.wf m').
Proof using HNC.
  intros Hs Hp. split.
  - destruct (SeqFacts.seq_Next_total Exp Fitness Mutate Crossover same Hs)
      as (zs & Hz & HN & Hwf).
    destruct Hs as (Hn & Hf & Ht). rewrite Ht in Hz.
    exists zs, (SeqFacts.Next_result Exp Fitness ms zs).
    split; [exact HN|]. split; [exact Hz|]. split.
    { intros t r. rewrite <- Hz. apply seq_offspring_frame. repeat split. }
    split; [reflexivity|]. split; [reflexivity|].
    split; [apply SeqFacts.fitness_result_consistent|exact Hwf].
  - destruct (ParFacts.par_Next_total Exp HNC Fitness Mutate CrossoverW Hp)
      as (zs & Hz & HN & Hwf).
    exists zs, (ParFacts.Next_result Exp NC Fitness mp zs).
    split; [exact HN|]. split; [now symmetry|]. split.
    { intro t. rewrite par_offspring_frame. now symmetry. }
    unfold ParFacts.Next_result.
    destruct (adjust_result_frame
                (GaPar.set_buffers
                   (GaPar.set_rnd mp (fun g => GaPar.rnd mp (S g))) zs
                   (map Some (GaPar.entities mp))))
      as (_ & He & Ht & _).
    split; [exact He|]. split; [exact Ht|].
    split; [apply ParFacts.adjust_result_consistent|exact Hwf].
Qed.

End Generation.

(** One generation of the concrete engines. *)
Lemma Next_isolates_generations_witness :
  (exists zs m',
      GaSeq.Next Exact.exp Demo.Fitness Demo.Mutate Demo.Crossover Demo.same
                 Demo.seq_engine = Some (GaSeq.elite m', m') /\
      GaSeq.entities m' = zs /\
      GaSeq.tentities m' = [Some 1%Z; Some 2%Z]) /\
  (exists zs m',
      GaPar.Next Exact.exp Demo.NC Demo.Fitness Demo.Mutate Demo.CrossoverW
                 Demo.par_engine
        = Some (GaPar.elite m', GaPar.fitness m', m') /\
      GaPar.entities m' = zs /\
      GaPar.tentities m' = [Some 1%Z; Some 2%Z]).
Proof.
  destruct (@Next_isolates_generations xreal exact Exact.exp Demo.NC
              Demo.NC_pos Demo.Entity Demo.Fitness Demo.Mutate Demo.Crossover
              Demo.CrossoverW Demo.same Demo.seq_engine Demo.par_engine
              Demo.seq_engine_wf Demo.par_engine_wf)
    as [(zs & m' & H1 & _ & _ & H2 & H3 & _)
        (zs' & m'' & H1' & _ & _ & H2' & H3' & _)].
  split.
  - exists zs, m'. repeat split; assumption.
  - exists zs', m''. repeat split; assumption.
Defined.


(* ================================================================== *)
(** * The elite *)
(* ================================================================== *)

Section Elite.
Context {F : Type} {num : FloatOps F} {laws : @CmpLaws F num}.
Variable Exp : F -> F.
Variable NC : nat.
Hypothesis HNC : (1 <= NC)%nat.
Variable Entity : Type.
Variable Fitness : Entity -> F.
Variable Mutate : Entity -> Entity.
Variable Crossover : Entity -> Entity -> Entity.
Variable CrossoverW : Entity -> Entity -> F -> Entity.
Variable same : Entity -> Entity -> bool.

Local Open Scope fl_scope.

Lemma adjust_result_elite (m : @GaPar.GA F Entity) :
  GaPar.fitness (ParFacts.adjust_result Exp NC Fitness m) =
    GaPar.fitness (ParFacts.crowned NC Fitness m) /\
  GaPar.elite (ParFacts.adjust_result Exp NC Fitness m) =
    GaPar.elite (ParFacts.crowned NC Fitness m).
Proof.
  unfold ParFacts.adjust_result.
  cbn [GaPar.fitness GaPar.elite GaPar.set_fsum GaPar.set_fentities].
  destruct (ParFacts.adjust_pm_frame Exp (ParFacts.crowned NC Fitness m)
              (ParFacts.std_of NC Fitness (GaPar.entities m) (GaPar.n m)))
    as (_ & Af & Ae & _).
  now rewrite Af, Ae.
Qed.

(** The elite after [fitness] or [adjust] has seen the population [xs]. *)
Lemma seq_elite_step (xs : list Entity) (e : option Entity) (fe : F) :
  (fe <=? fe) = true ->
  (fe <=? snd (SeqFacts.champion Fitness xs e fe)) = true /\
  (snd (SeqFacts.champion Fitness xs e fe)
     <=? snd (SeqFacts.champion Fitness xs e fe)) = true /\
  ((forall x, In x xs -> (fe <? Fitness x) = false) ->
   SeqFacts.champion Fitness xs e fe = (e, fe)) /\
  ((forall x, In x xs -> (Fitness x <=? fe) = true) ->
   SeqFacts.champion Fitness xs e fe = (e, fe)).
Proof using laws.
  intros Ho. split; [now apply EliteFacts.champion_ge|].
  split; [now apply EliteFacts.champion_ordered|].
  split; [apply EliteFacts.champion_unchanged|].
  intros H. apply EliteFacts.champion_unchanged.
  intros x Hx. apply fle_not_flt. now apply H.
Qed.

Lemma par_elite_step (m : @GaPar.GA F Entity) :
  (GaPar.fitness m <=? GaPar.fitness m) = true ->
  let m' := ParFacts.crowned NC Fitness m in
  (GaPar.fitness m <=? GaPar.fitness m') = true /\
  (GaPar.fitness m' <=? GaPar.fitness m') = true /\
  ((forall x, In x (GaPar.entities m) ->
              (GaPar.fitness m <? Fitness x) = false) -> m' = m) /\
  ((forall x, In x (GaPar.entities m) ->
              (Fitness x <=? GaPar.fitness m) = true) -> m' = m).
Proof using laws.
  intros Ho m'. subst m'.
  destruct (EliteFacts.crowned_cases Fitness NC m) as [H|(e & He & Hlt & H)];
    rewrite H.
  - repeat split; intros; auto.
  - cbn [GaPar.fitness GaPar.set_elite].
    split; [eapply fle_flt_trans; eauto|].
    split; [eapply flt_ordered; eauto|].
    split; intros Hall; exfalso.
    + rewrite (Hall e He) in Hlt. discriminate.
    + rewrite (fle_not_flt _ _ (Hall e He)) in Hlt. discriminate.
Qed.

(** C3. Whenever the elite fitness is a number (not NaN), which holds of
    the engine [New] returns and is kept by [Next]: after [Next] the elite
    fitness is at least what it was, and the elite and its fitness are
    unchanged unless some member of the new population has a fitness
    strictly above the previous elite fitness; in particular a population
    that only ties with, or stays below, the elite replaces nothing.
    Both engines. *)
Theorem elite_fitness_never_decreases
        (ms : @GaSeq.GA F Entity) (mp : @GaPar.GA F Entity) :
  SeqFacts.wf ms -> ParFacts.wf mp ->
  (GaSeq.felite ms <=? GaSeq.felite ms) = true ->
  (GaPar.fitness mp <=? GaPar.fitness mp) = true ->
  (exists e m',
      GaSeq.Next Exp Fitness Mutate Crossover same ms = Some (e, m') /\
      (GaSeq.felite ms <=? GaSeq.felite m') = true /\
      (GaSeq.felite m' <=? GaSeq.felite m') = true /\
      ((forall x, In x (GaSeq.entities m') ->
                  (GaSeq.felite ms <? Fitness x) = false) ->
       GaSeq.elite m' = GaSeq.elite ms /\ GaSeq.felite m' = GaSeq.felite ms) /\
      ((forall x, In x (GaSeq.entities m') ->
                  (Fitness x <=? GaSeq.felite ms) = true) ->
       GaSeq.elite m' = GaSeq.elite ms /\ GaSeq.felite m' = GaSeq.felite ms)) /\
  (exists e f m',
      GaPar.Next Exp NC Fitness Mutate CrossoverW mp = Some (e, f, m') /\
      (GaPar.fitness mp <=? GaPar.fitness m') = true /\
      (GaPar.fitness m' <=? GaPar.fitness m') = true /\
      ((forall x, In x (GaPar.entities m') ->
                  (GaPar.fitness mp <? Fitness x) = false) ->
       GaPar.elite m' = GaPar.elite mp /\
       GaPar.fitness m' = GaPar.fitness mp) /\
      ((forall x, In x (GaPar.entities m') ->
                  (Fitness x <=? GaPar.fitness mp) = true) ->
       GaPar.elite m' = GaPar.elite mp /\
       GaPar.fitness m' = GaPar.fitness mp)) /\
  (forall nn g seed m0,
      GaSeq.New Exp Fitness nn g seed = Some m0 ->
      (GaSeq.felite m0 <=? GaSeq.felite m0) = true) /\
  (forall nn g seeds m0,
      GaPar.New Exp NC Fitness nn g seeds = Some m0 ->
      (GaPar.fitness m0 <=? GaPar.fitness m0) = true).
Proof using HNC laws.
  intros Hs Hp Hos Hop. split; [|split; [|split]].
  - destruct (SeqFacts.seq_Next_total Exp Fitness Mutate Crossover same Hs)
      as (zs & _ & HN & _).
    eexists. eexists. split; [exact HN|].
    unfold SeqFacts.Next_result, SeqFacts.fitness_result.
    cbn [GaSeq.felite GaSeq.elite GaSeq.entities GaSeq.set_buffers
         GaSeq.set_rnd].
    destruct (seq_elite_step zs (GaSeq.elite ms) (GaSeq.felite ms) Hos)
      as (H1 & H2 & H3 & H4).
    split; [exact H1|]. split; [exact H2|].
    split; intros Hall; [rewrite (H3 Hall)|rewrite (H4 Hall)]; split;
      reflexivity.
  - destruct (ParFacts.par_Next_total Exp HNC Fitness Mutate CrossoverW Hp)
      as (zs & _ & HN & _).
    eexists. eexists. eexists. split; [exact HN|].
    unfold ParFacts.Next_result.
    set (mb := GaPar.set_buffers
                 (GaPar.set_rnd mp (fun g => GaPar.rnd mp (S g))) zs
                 (map Some (GaPar.entities mp))).
    destruct (adjust_result_elite mb) as [Ef Ee].
    destruct (adjust_result_frame Exp NC Fitness mb) as (_ & Hents & _).
    rewrite Ef, Ee, Hents.
    destruct (par_elite_step mb Hop) as (H1 & H2 & H3 & H4).
    split; [exact H1|]. split; [exact H2|].
    split; intros Hall; [rewrite (H3 Hall)|rewrite (H4 Hall)]; split;
      reflexivity.
  - intros nn g seed m0. rewrite SeqFacts.seq_New_spec.
    destruct (nn <? 0)%Z; [discriminate|]. intros E; inversion E; subst m0.
    cbn [GaSeq.felite GaSeq.set_std0 SeqFacts.fitness_result].
    apply EliteFacts.champion_ordered. apply neg_inf_ordered.
  - intros nn g seeds m0. rewrite (ParFacts.par_New_spec Exp HNC).
    destruct (nn <? 0)%Z; [discriminate|]. intros E; inversion E; subst m0.
    cbn [GaPar.fitness GaPar.set_base].
    destruct (adjust_result_elite (ParFacts.New_blank nn g seeds)) as [Ef _].
    rewrite Ef.
    apply (par_elite_step (ParFacts.New_blank nn g seeds)).
    apply neg_inf_ordered.
Qed.

End Elite.

(** One generation of the concrete engines, whose elite fitness starts at
    minus infinity. *)
Lemma elite_fitness_never_decreases_witness :
  (exists e m',
      GaSeq.Next Exact.exp Demo.Fitness Demo.Mutate Demo.Crossover Demo.same
                 Demo.seq_engine = Some (e, m') /\
      fleb (GaSeq.felite Demo.seq_engine) (GaSeq.felite m') = true) /\
  (exists e f m',
      GaPar.Next Exact.exp Demo.NC Demo.Fitness Demo.Mutate Demo.CrossoverW
                 Demo.par_engine = Some (e, f, m') /\
      fleb (GaPar.fitness Demo.par_engine) (GaPar.fitness m') = true).
Proof.
  destruct (@elite_fitness_never_decreases xreal exact exact_laws Exact.exp
              Demo.NC Demo.NC_pos Demo.Entity Demo.Fitness Demo.Mutate
              Demo.Crossover Demo.CrossoverW Demo.same
              Demo.seq_engine Demo.par_engine
              Demo.seq_engine_wf Demo.par_engine_wf eq_refl eq_refl)
    as [(e & m' & H1 & H2 & _) [(e' & f' & m'' & H1' & H2' & _) _]].
  split.
  - exists e, m'. split; assumption.
  - exists e', f', m''. split; assumption.
Defined.


(* ================================================================== *)
(** * Two-parent roulette selection *)
(* ================================================================== *)

Section Roulette.
Context {F : Type} {num : FloatOps F}.
Variable Entity : Type.

Local Open Scope fl_scope.

(** The selection as the specification words it. [first_hit ws i t] is the
    first index, counted from [i], at which the running remainder of the
    target [t] is at most the weight of the index; it returns that index,
    the remainder and the weight there, and the weights after it. *)
Fixpoint first_hit (ws : list F) (i : nat) (t : F)
  : option (nat * F * F * list F) :=
  match ws with
  | [] => None
  | w :: ws' =>
      if t <=? w then Some (i, t, w, ws') else first_hit ws' (S i) (t - w)
  end.

(** Two parents for the sorted numbers [r1 <= r2]: [x] at the first hit of
    the target [fsum * r1]; then the target re-based to
    [t_x + fsum * (r2 - r1) - w_x * r2] and [y] at the first hit after [x];
    the first and the last member where there is no hit. The weights of the
    hits (0 without a hit) come along. *)
Definition roulette (ents : list Entity) (ws : list F) (fsum : F)
           (first last : Entity) (r1 r2 : F)
  : option (Entity * Entity * F * F) :=
  match first_hit ws O (fsum * r1) with
  | None => Some (first, last, f0, f0)
  | Some (ix, tx, wx, rest) =>
      match nth_error ents ix with
      | None => None
      | Some x =>
          match first_hit rest (S ix) (tx + fsum * (r2 - r1) - wx * r2) with
          | None => Some (x, last, wx, f0)
          | Some (iy, _, wy, _) =>
              match nth_error ents iy with
              | None => None
              | Some y => Some (x, y, wx, wy)
              end
          end
      end
  end.

(** The scan never finds a weight at or above the running remainder. *)
Fixpoint no_hit (t : F) (ws : list F) : bool :=
  match ws with
  | [] => true
  | w :: ws' => negb (t <=? w) && no_hit (t - w) ws'
  end.

Lemma no_hit_first_hit (ws : list F) :
  forall i t, no_hit t ws = true <-> first_hit ws i t = None.
Proof.
  induction ws as [|w ws IH]; intros i t; simpl; [tauto|].
  destruct (t <=? w); simpl; [split; discriminate|apply IH].
Qed.

Lemma par_second_phase (m : @GaPar.GA F Entity) (ws : list F) :
  forall i fz d ry x y wx,
    GaPar.select2_loop m ws i fz d ry false x y wx f0 =
    match first_hit ws i fz with
    | None => Some (x, y, wx, f0)
    | Some (iy, _, wy, _) =>
        match nth_error (GaPar.entities m) iy with
        | None => None
        | Some yi => Some (x, yi, wx, wy)
        end
    end.
Proof.
  induction ws as [|w ws IH]; intros; cbn [GaPar.select2_loop first_hit];
    [reflexivity|].
  destruct (fz <=? w); [reflexivity|apply IH].
Qed.

(** The scan of the fork-join engine is the selection of the
    specification. *)
Lemma par_select2_loop_is_roulette (m : @GaPar.GA F Entity) (ws : list F) :
  forall i fz d ry x y,
    GaPar.select2_loop m ws i fz d ry true x y f0 f0 =
    match first_hit ws i fz with
    | None => Some (x, y, f0, f0)
    | Some (ix, tx, wx, rest) =>
        match nth_error (GaPar.entities m) ix with
        | None => None
        | Some xi =>
            match first_hit rest (S ix) (tx + d - wx * ry) with
            | None => Some (xi, y, wx, f0)
            | Some (iy, _, wy, _) =>
                match nth_error (GaPar.entities m) iy with
                | None => None
                | Some yi => Some (xi, yi, wx, wy)
                end
            end
        end
    end.
Proof.
  induction ws as [|w ws IH]; intros; cbn [GaPar.select2_loop first_hit];
    [reflexivity|].
  destruct (fz <=? w); [|apply IH].
  destruct (nth_error (GaPar.entities m) i); [|reflexivity].
  apply par_second_phase.
Qed.

Lemma par_select2_is_roulette (m : @GaPar.GA F Entity) (rx ry : F) :
  GaPar.select2 m rx ry =
  let '(r1, r2) := if ry <? rx then (ry, rx) else (rx, ry) in
  match nth_error (GaPar.entities m) O,
        index (GaPar.entities m) (GaPar.n m - 1) with
  | Some first, Some last =>
      match roulette (GaPar.entities m) (GaPar.fentities m) (GaPar.fsum m)
                     first last r1 r2 with
      | Some (x, y, wx, wy) => Some (x, y, wx / (wx + wy))
      | None => None
      end
  | _, _ => None
  end.
Proof.
  unfold GaPar.select2, roulette.
  destruct (ry <? rx);
    destruct (nth_error (GaPar.entities m) 0) as [first|]; try reflexivity;
    destruct (index (GaPar.entities m) (GaPar.n m - 1)) as [last|];
    try reflexivity;
    rewrite par_select2_loop_is_roulette;
    repeat match goal with
           | |- context [match ?o with Some _ => _ | None => _ end] =>
               match o with
               | first_hit _ _ _ => destruct o as [[[[? ?] ?] ?]|]
               | nth_error _ _ => destruct o
               end
           end; reflexivity.
Qed.

(** C9. In the weighted-crossover engine, when the scan of [select2] ends
    without a hit, the parents are the first and the last member of the
    population, the recorded weights [wx] and [wy] are both 0, and the blend
    weight handed to [Crossover] is [0 / (0 + 0)]. In IEEE-754 binary64
    that quotient is NaN: it is neither [>= 0] nor [<= 1]; in the exact
    instance it is NaN as well. *)
Theorem select2_fallback_blend
        (m : @GaPar.GA F Entity) (rx ry : F) (first last : Entity) :
  nth_error (GaPar.entities m) O = Some first ->
  index (GaPar.entities m) (GaPar.n m - 1) = Some last ->
  no_hit (GaPar.fsum m * (if ry <? rx then ry else rx)) (GaPar.fentities m)
    = true ->
  (GaPar.select2_loop m (GaPar.fentities m) O
     (GaPar.fsum m * (if ry <? rx then ry else rx))
     (GaPar.fsum m * ((if ry <? rx then rx else ry)
                      - (if ry <? rx then ry else rx)))
     (if ry <? rx then rx else ry) true first last f0 f0
   = Some (first, last, f0, f0)) /\
  GaPar.select2 m rx ry = Some (first, last, f0 / (f0 + f0)) /\
  PrimFloat.is_nan (@fdiv float binary64 f0 (fadd f0 f0)) = true /\
  @fleb float binary64 f0 (fdiv f0 (fadd f0 f0)) = false /\
  @fleb float binary64 (fdiv f0 (fadd f0 f0)) f1 = false /\
  @fdiv xreal exact f0 (fadd f0 f0) = XNaN.
Proof.
  intros H0 Hl Hno.
  assert (Hloop : forall d ry',
             GaPar.select2_loop m (GaPar.fentities m) O
               (GaPar.fsum m * (if ry <? rx then ry else rx)) d ry'
               true first last f0 f0 = Some (first, last, f0, f0)).
  { intros d ry'. rewrite par_select2_loop_is_roulette.
    apply (no_hit_first_hit (GaPar.fentities m) O) in Hno.
    now rewrite Hno. }
  split; [apply Hloop|]. split.
  - unfold GaPar.select2. rewrite H0, Hl.
    destruct (ry <? rx); now rewrite Hloop.
  - repeat split; try reflexivity.
    cbn. replace (0 + 0)%R with 0%R by lra.
    now rewrite !ExactFacts.Reqb_true.
Qed.

End Roulette.

(** ** On IEEE-754 binary64 *)

Module Binary64Runs.

Local Open Scope float_scope.

(** Entities are named by natural numbers, compared by value. Three
    entities of weight 1/2 each; the generator delivers 1/8, then 1/2. *)
Definition seq_engine : @GaSeq.GA float nat :=
  GaSeq.mkGA 3 None neg_infinity [10; 11; 12]%nat
             (fun k => match k with O => 0.125 | _ => 0.5 end)
             1.5 0 1 1 [0.5; 0.5; 0.5] [None; None; None].
Definition par_engine : @GaPar.GA float nat :=
  GaPar.mkGA 3 neg_infinity None 0.125 1 1.5
             (fun _ _ => (0.125, 0.5, 0.5))
             [0.5; 0.5; 0.5] [10; 11; 12]%nat [None; None; None].

(** Two entities of weight 1 under a weight sum of 8: no scan can hit. *)
Definition stale_engine : @GaPar.GA float nat :=
  GaPar.mkGA 2 neg_infinity None 0.125 1 8
             (fun _ _ => (0.5, 0.5, 0.5))
             [1; 1] [10; 11]%nat [None; None].

End Binary64Runs.

(** C4, on [src/ga.go]. With three entities of weight 1/2 and the numbers
    1/8 and 1/2, the first hit is at index 0 and the second at index 1: the
    selection of the specification, and the fork-join engine, return the
    entities 10 and 11. The sequential engine tests [x == m.entities[0]] to
    know whether [x] is still to be chosen, takes the hit at index 1 for a
    first hit again, and returns the entities 11 and 12. *)
Theorem select2_sentinel_misfires :
  roulette [10; 11; 12]%nat [0.5; 0.5; 0.5]%float 1.5%float 10%nat 12%nat
           0.125%float 0.5%float
    = Some (10%nat, 11%nat, 0.5%float, 0.5%float) /\
  GaPar.select2 Binary64Runs.par_engine 0.125%float 0.5%float
    = Some (10%nat, 11%nat, 0.5%float) /\
  option_map fst (GaSeq.select2 Nat.eqb Binary64Runs.seq_engine)
    = Some (11%nat, 12%nat).
Proof. repeat split; vm_compute; reflexivity. Qed.

(** A scan that cannot hit, on binary64. *)
Lemma select2_fallback_blend_witness :
  GaPar.select2 Binary64Runs.stale_engine 0.5%float 0.5%float
    = Some (10%nat, 11%nat, fdiv f0 (fadd f0 f0)) /\
  PrimFloat.is_nan (@fdiv float binary64 f0 (fadd f0 f0)) = true.
Proof.
  destruct (@select2_fallback_blend float binary64 nat
              Binary64Runs.stale_engine 0.5%float 0.5%float 10%nat 11%nat
              eq_refl eq_refl eq_refl)
    as (_ & H1 & H2 & _).
  split; assumption.
Defined.


(* ================================================================== *)
(** * Statistics and weights in exact arithmetic *)
(* ================================================================== *)

Section ExactStatistics.
Variable NC : nat.
Hypothesis HNC : (1 <= NC)%nat.
Variable Entity : Type.
Variable Fit : Entity -> R.        (* the real fitness of an entity *)

Local Open Scope R_scope.
Local Abbreviation Fitness := (fun e : Entity => XFin (Fit e)).

(** What the specification says of the standard deviation [s] of a
    population of real fitness values [rs]. *)
Definition std_report (s : xreal) (rs : list R) : Prop :=
  (0 < ExactFacts.Rvariance rs ->
   s = XFin (R_sqrt.sqrt (ExactFacts.Rvariance rs))) /\
  (ExactFacts.Rvariance rs <= 0 -> s = XFin 1) /\
  ((exists c, forall r, In r rs -> r = c) -> s = XFin 1) /\
  (exists v, s = XFin v /\ 0 < v).

Lemma std_report_Rstd (rs : list R) : std_report (XFin (ExactFacts.Rstd rs)) rs.
Proof.
  unfold std_report. repeat split.
  - intro H. now rewrite ExactFacts.Rstd_positive_variance.
  - intro H. now rewrite ExactFacts.Rstd_degenerate.
  - intros (c & H). rewrite ExactFacts.Rstd_degenerate; [reflexivity|].
    rewrite (@ExactFacts.Rvariance_const c rs H). lra.
  - exists (ExactFacts.Rstd rs). split; [reflexivity|apply ExactFacts.Rstd_pos].
Qed.

(** What the specification says of the weights [ws] and of their sum
    [total]. *)
Definition weights_report (ws : list xreal) (total : xreal) (rs : list R)
  : Prop :=
  let w := ExactFacts.Rweight (ExactFacts.Rmean rs) (ExactFacts.Rstd rs) in
  ws = map XFin (map w rs) /\
  (forall r, In r rs -> 0 < w r < 1) /\
  total = XFin (ExactFacts.Rsum (map w rs)) /\
  (rs <> [] -> 0 < ExactFacts.Rsum (map w rs)).

Lemma weights_report_intro (ws : list xreal) (total : xreal) (rs : list R) :
  ws = map XFin (map (ExactFacts.Rweight (ExactFacts.Rmean rs)
                                         (ExactFacts.Rstd rs)) rs) ->
  total = XFin (ExactFacts.Rsum
                  (map (ExactFacts.Rweight (ExactFacts.Rmean rs)
                                           (ExactFacts.Rstd rs)) rs)) ->
  weights_report ws total rs.
Proof.
  intros Hw Ht. unfold weights_report. cbv zeta.
  split; [exact Hw|]. split; [intros; apply ExactFacts.Rweight_bounds|].
  split; [exact Ht|].
  intros Hne. apply ExactFacts.Rsum_pos.
  - destruct rs; [congruence|discriminate].
  - intros x Hx. apply in_map_iff in Hx. destruct Hx as (r & <- & _).
    apply ExactFacts.Rweight_bounds.
Qed.



End ExactStatistics.




(* ================================================================== *)
(** * The mutation probability in exact arithmetic *)
(* ================================================================== *)

Section Generations.
Context {F : Type} {num : FloatOps F}.
Variable Exp : F -> F.
Variable NC : nat.
Variable Entity : Type.
Variable Fitness : Entity -> F.
Variable Mutate : Entity -> Entity.
Variable Crossover : Entity -> Entity -> Entity.
Variable CrossoverW : Entity -> Entity -> F -> Entity.
Variable same : Entity -> Entity -> bool.

(** [k] calls of [Next] in a row. *)
Fixpoint seq_generations (k : nat) (m : @GaSeq.GA F Entity)
  : option (@GaSeq.GA F Entity) :=
  match k with
  | O => Some m
  | S k' =>
      match GaSeq.Next Exp Fitness Mutate Crossover same m with
      | None => None
      | Some (_, m') => seq_generations k' m'
      end
  end.

Fixpoint par_generations (k : nat) (m : @GaPar.GA F Entity)
  : option (@GaPar.GA F Entity) :=
  match k with
  | O => Some m
  | S k' =>
      match GaPar.Next Exp NC Fitness Mutate CrossoverW m with
      | None => None
      | Some (_, _, m') => par_generations k' m'
      end
  end.

End Generations.

Section MutationProbability.
Variable NC : nat.
Hypothesis HNC : (1 <= NC)%nat.
Variable Entity : Type.
Variable Fit : Entity -> R.        (* the real fitness of an entity *)
Variable Mutate : Entity -> Entity.
Variable Crossover : Entity -> Entity -> Entity.
Variable CrossoverW : Entity -> Entity -> xreal -> Entity.
Variable same : Entity -> Entity -> bool.

Local Open Scope R_scope.
Local Abbreviation Fitness := (fun e : Entity => XFin (Fit e)).

(** The statistics a sequential engine holds between generations. *)
Definition seq_healthy (m : @GaSeq.GA xreal Entity) : Prop :=
  SeqFacts.wf m /\
  exists s s0, GaSeq.std m = XFin s /\ 0 < s /\
               GaSeq.std0 m = XFin s0 /\ 0 < s0.

(** The control state a fork-join engine holds between generations. *)
Definition par_healthy (m : @GaPar.GA xreal Entity) : Prop :=
  ParFacts.wf m /\
  exists p b, GaPar.pm m = XFin p /\ 1 / 10000 <= p <= 1 / 10 /\
              GaPar.base m = XFin b /\ 0 < b.

Lemma direct_law (s s0 : R) :
  0 < s -> 0 < s0 ->
  exists p,
    Exact.exp (fdiv (fmul (of_int (-10)) (XFin s)) (XFin s0)) = XFin p /\
    0 < p < 1.
Proof.
  intros Hs Hs0. cbn [fmul exact Exact.mul of_int].
  rewrite ExactFacts.div_fin by lra.
  eexists. split; [reflexivity|]. split; [apply exp_pos|].
  rewrite <- exp_0. apply exp_increasing.
  assert (0 < s / s0) by (apply Rdiv_lt_0_compat; assumption).
  replace (IZR (-10) * s / s0) with (- (10 * (s / s0))) by (field; lra).
  lra.
Qed.

Lemma seq_healthy_probability (m : @GaSeq.GA xreal Entity) :
  seq_healthy m ->
  exists p, GaSeq.mutation_probability Exact.exp m = XFin p /\ 0 < p <= 1.
Proof.
  intros (_ & s & s0 & Hs & Hpos & Hs0 & Hpos0).
  unfold GaSeq.mutation_probability. rewrite Hs, Hs0.
  destruct (direct_law Hpos Hpos0) as (p & Hp & Hr).
  exists p. split; [exact Hp|lra].
Qed.

Lemma seq_healthy_New nn g seed m :
  GaSeq.New Exact.exp Fitness nn g seed = Some m -> seq_healthy m.
Proof.
  intros HN. split; [eapply SeqFacts.seq_New_wf; eauto|].
  rewrite SeqFacts.seq_New_spec in HN.
  destruct (nn <? 0)%Z; [discriminate|]. inversion HN; subst m.
  cbn [GaSeq.std GaSeq.std0 GaSeq.set_std0 SeqFacts.fitness_result].
  exists (ExactFacts.Rstd (map Fit (GaSeq.entities (SeqFacts.New_blank nn g seed)))),
         (ExactFacts.Rstd (map Fit (GaSeq.entities (SeqFacts.New_blank nn g seed)))).
  split; [apply ExactFacts.std_of_exact|].
  split; [apply ExactFacts.Rstd_pos|].
  split; [apply ExactFacts.std_of_exact|apply ExactFacts.Rstd_pos].
Qed.

Lemma seq_healthy_Next m e m' :
  seq_healthy m ->
  GaSeq.Next Exact.exp Fitness Mutate Crossover same m = Some (e, m') ->
  seq_healthy m'.
Proof.
  intros (Hwf & s & s0 & Hs & Hpos & Hs0 & Hpos0) HN.
  destruct (SeqFacts.seq_Next_total Exact.exp Fitness Mutate Crossover same Hwf)
    as (zs & _ & HN' & Hwf').
  rewrite HN' in HN. inversion HN; subst m'. split; [exact Hwf'|].
  unfold SeqFacts.Next_result.
  cbn [GaSeq.std GaSeq.std0 SeqFacts.fitness_result GaSeq.set_buffers
       GaSeq.set_rnd GaSeq.entities].
  rewrite ExactFacts.std_of_exact.
  exists (ExactFacts.Rstd (map Fit zs)), s0.
  repeat split; try assumption. apply ExactFacts.Rstd_pos.
Qed.

Lemma smoothed_law (m : @GaPar.GA xreal Entity) (p b s : R) :
  GaPar.pm m = XFin p -> 1 / 10000 <= p <= 1 / 10 ->
  GaPar.base m = XFin b -> 0 <= b ->
  exists p',
    GaPar.pm (GaPar.adjust_pm Exact.exp m (XFin s)) = XFin p' /\
    1 / 10000 <= p' <= 1 / 10.
Proof.
  intros Hp Hr Hb Hb0. unfold GaPar.adjust_pm. rewrite Hb, Hp.
  change (@f0 xreal exact) with (XFin 0).
  cbn [fltb exact Exact.ltb].
  destruct (Rlt_dec 0 b) as [Hpos|Hneg].
  - rewrite (proj2 (ExactFacts.Rltb_true _ _) Hpos).
    assert (E1 : @c0_1 xreal exact = XFin (1 / 10))
      by (unfold c0_1; cbn [of_int exact]; apply ExactFacts.div_fin; lra).
    assert (E2 : @c0_0001 xreal exact = XFin (1 / 10000))
      by (unfold c0_0001; cbn [of_int exact]; apply ExactFacts.div_fin; lra).
    assert (E3 : @c0_2 xreal exact = XFin (2 / 10))
      by (unfold c0_2; cbn [of_int exact]; apply ExactFacts.div_fin; lra).
    assert (E4 : @c0_9 xreal exact = XFin (9 / 10))
      by (unfold c0_9; cbn [of_int exact]; apply ExactFacts.div_fin; lra).
    rewrite E1, E2, E3, E4.
    cbn [fmul fadd exact Exact.mul Exact.add of_int].
    rewrite ExactFacts.div_fin by lra.
    cbn [Exact.exp Exact.mul Exact.add Exact.ltb].
    set (q := p * (2 / 10 * exp (IZR (-5) * s / b) + 9 / 10)).
    destruct (Rlt_dec (1 / 10) q) as [H1|H1].
    + rewrite (proj2 (ExactFacts.Rltb_true _ _) H1).
      exists (1 / 10). split; [reflexivity|lra].
    + rewrite (proj2 (ExactFacts.Rltb_false _ _) H1).
      destruct (Rlt_dec q (1 / 10000)) as [H2|H2].
      * rewrite (proj2 (ExactFacts.Rltb_true _ _) H2).
        exists (1 / 10000). split; [reflexivity|lra].
      * rewrite (proj2 (ExactFacts.Rltb_false _ _) H2).
        exists q. split; [reflexivity|lra].
  - rewrite (proj2 (ExactFacts.Rltb_false _ _) Hneg).
    exists p. split; assumption.
Qed.

Lemma par_pm_after_adjust (m : @GaPar.GA xreal Entity) (p b : R) :
  ParFacts.wf m ->
  GaPar.pm m = XFin p -> 1 / 10000 <= p <= 1 / 10 ->
  GaPar.base m = XFin b -> 0 <= b ->
  exists p',
    GaPar.pm (ParFacts.adjust_result Exact.exp NC Fitness m) = XFin p' /\
    1 / 10000 <= p' <= 1 / 10.
Proof using HNC.
  intros (Hn & _) Hp Hr Hb Hb0. unfold ParFacts.adjust_result.
  cbn [GaPar.pm GaPar.set_fsum GaPar.set_fentities].
  rewrite Hn, (ExactFacts.par_std_exact HNC).
  destruct (ParFacts.crowned_frame NC Fitness m) as (_ & Cp & Cb & _).
  apply (@smoothed_law _ p b); congruence.
Qed.

Lemma par_healthy_New nn g seeds m :
  GaPar.New Exact.exp NC Fitness nn g seeds = Some m -> par_healthy m.
Proof using HNC.
  intros HN. split; [eapply (ParFacts.par_New_wf _ HNC); eauto|].
  rewrite (ParFacts.par_New_spec _ HNC) in HN.
  destruct (Z.ltb_spec nn 0) as [|Hnn]; [discriminate|].
  inversion HN; subst m.
  cbn [GaPar.pm GaPar.base GaPar.set_base].
  destruct (@par_pm_after_adjust (ParFacts.New_blank nn g seeds) (1 / 10) 0)
    as (p & Hp & Hr).
  - now apply ParFacts.par_New_blank_wf.
  - cbn. apply ExactFacts.div_fin. lra.
  - lra.
  - reflexivity.
  - lra.
  - exists p. eexists. split; [exact Hp|]. split; [exact Hr|].
    cbn [GaPar.entities ParFacts.New_blank].
    replace nn with (Z.of_nat (length (map g (seq 0 (Z.to_nat nn)))))
      at 2 by (rewrite length_map, length_seq; lia).
    rewrite (ExactFacts.par_std_exact HNC).
    split; [reflexivity|apply ExactFacts.Rstd_pos].
Qed.

Lemma par_healthy_Next m e f m' :
  par_healthy m ->
  GaPar.Next Exact.exp NC Fitness Mutate CrossoverW m = Some (e, f, m') ->
  par_healthy m'.
Proof using HNC.
  intros (Hwf & p & b & Hp & Hr & Hb & Hpos) HN.
  destruct (ParFacts.par_Next_total Exact.exp HNC Fitness Mutate CrossoverW Hwf)
    as (zs & Hz & HN' & Hwf').
  rewrite HN' in HN. inversion HN; subst m'. split; [exact Hwf'|].
  unfold ParFacts.Next_result.
  set (mb := GaPar.set_buffers
               (GaPar.set_rnd m (fun g => GaPar.rnd m (S g))) zs
               (map Some (GaPar.entities m))).
  assert (Hwfb : ParFacts.wf mb).
  { destruct Hwf as (Hn & Hf & Ht). unfold ParFacts.wf, mb.
    cbn [GaPar.n GaPar.entities GaPar.fentities GaPar.tentities
         GaPar.set_buffers GaPar.set_rnd].
    assert (Hl : length zs = length (GaPar.entities m)).
    { rewrite <- (length_map Some zs), Hz. unfold ParFacts.offspring.
      now rewrite length_map, length_seq. }
    rewrite length_map. repeat split; congruence. }
  destruct (@par_pm_after_adjust mb p b Hwfb) as (p' & Hp' & Hr');
    try assumption; try lra.
  exists p', b. split; [exact Hp'|]. split; [exact Hr'|].
  destruct (adjust_result_frame Exact.exp NC Fitness mb) as (_ & _ & _ & _ & Hbase).
  rewrite Hbase. split; [exact Hb|exact Hpos].
Qed.


End MutationProbability.



(* ================================================================== *)
(** * Further properties of the engines *)
(* ================================================================== *)

From Stdlib Require Import Sorted.

(* ================================================================== *)
(** * The accessors *)
(* ================================================================== *)

(** [src/ga.go]. *)
Module SeqApi.
Section Api.
Context {F : Type} {num : FloatOps F}.
Variable Entity : Type.

(** [func (m *GA) Elite() Entity]. *)
Definition Elite (m : @GaSeq.GA F Entity) : option Entity := GaSeq.elite m.

(** [func (m *GA) Felite() float64]. *)
Definition Felite (m : @GaSeq.GA F Entity) : F := GaSeq.felite m.

End Api.
End SeqApi.

(** [src/unnamed/part_000]. *)
Module ParApi.
Section Api.
Context {F : Type} {num : FloatOps F}.
Variable Entity : Type.

(** [func (m *GA) Fitness() float64]. *)
Definition Fitness (m : @GaPar.GA F Entity) : F := GaPar.fitness m.

(** [func (m *GA) Elite() Entity]. *)
Definition Elite (m : @GaPar.GA F Entity) : option Entity := GaPar.elite m.

End Api.
End ParApi.

(* ================================================================== *)
(** * The workers of the fork-join engine *)
(* ================================================================== *)

Section Workers.
Variable NC : nat.
Hypothesis HNC : (1 <= NC)%nat.

(** A callback that writes down which worker is given which slot. *)
Definition record_visit (c i : nat) (l : list (nat * nat))
  : option (list (nat * nat)) :=
  Some (l ++ [(c, i)]).

Lemma run_record_visit (vs : list (nat * nat)) :
  forall l, ParFacts.run_visits record_visit vs l = Some (l ++ vs).
Proof.
  induction vs as [|[c i] vs IH]; intros l; simpl.
  - now rewrite app_nil_r.
  - rewrite IH, <- app_assoc. reflexivity.
Qed.

Lemma worker_slots_sorted fuel nn :
  forall s, Sorted lt (GaPar.worker_slots NC fuel s nn).
Proof using HNC.
  induction fuel as [|fuel IH]; intros s; simpl; [constructor|].
  destruct (Nat.ltb_spec s nn); [|constructor].
  constructor; [apply IH|].
  destruct fuel; simpl; [constructor|].
  destruct (Nat.ltb_spec (s + NC) nn); constructor. lia.
Qed.

(** X1. [do] hands every slot [0 .. n-1] to exactly one worker, slot [i] to
    worker [i mod NC], and every worker takes its slots in increasing
    order; for [n <= 0] no callback runs. The callbacks of a run are those
    of the list [vs] of (worker, slot) pairs. *)
Theorem do_gives_each_slot_to_one_worker (nn : Z) :
  exists vs,
    GaPar.do NC nn record_visit [] = Some vs /\
    (forall (S : Type) (f : nat -> nat -> S -> option S) (s : S),
        GaPar.do NC nn f s = ParFacts.run_visits f vs s) /\
    Permutation (map snd vs) (seq O (Z.to_nat nn)) /\
    (forall c i, In (c, i) vs -> (c < NC)%nat /\ c = (i mod NC)%nat) /\
    (forall c, Sorted lt (ParFacts.slots_in vs c)) /\
    ((nn <= 0)%Z -> vs = []).
Proof using HNC.
  exists (ParFacts.visits NC (Z.to_nat nn)).
  split; [rewrite ParFacts.do_visits; apply run_record_visit|].
  split; [intros; apply ParFacts.do_visits|].
  split; [now apply ExactFacts.visits_perm|].
  split.
  { intros c i H. apply ParFacts.visits_in in H. destruct H as [Hc Hi].
    split; [exact Hc|]. symmetry. eapply ParFacts.worker_slots_mod; eauto. }
  split.
  { intro c. destruct (Nat.ltb_spec c NC) as [Hc|Hc].
    - rewrite ParFacts.slots_in_visits by assumption.
      apply worker_slots_sorted.
    - assert (E : ParFacts.slots_in (ParFacts.visits NC (Z.to_nat nn)) c = []).
      { unfold ParFacts.slots_in.
        destruct (filter _ _) as [|[c' i] l] eqn:Ef; [reflexivity|].
        assert (Hin : In (c', i) (filter (fun v => Nat.eqb (fst v) c)
                             (ParFacts.visits NC (Z.to_nat nn))))
          by (rewrite Ef; now left).
        apply filter_In in Hin. destruct Hin as [Hin Heq].
        apply Nat.eqb_eq in Heq. simpl in Heq. subst c'.
        apply ParFacts.visits_bound in Hin. lia. }
      rewrite E. constructor. }
  intros Hn. replace (Z.to_nat nn) with O by lia.
  unfold ParFacts.visits. simpl.
  induction (seq 0 NC) as [|c cs IH]; [reflexivity|exact IH].
Qed.

End Workers.

(** Five slots and two workers. *)
Lemma do_gives_each_slot_to_one_worker_witness :
  exists vs,
    GaPar.do 2 5 record_visit [] = Some vs /\
    Permutation (map snd vs) [0; 1; 2; 3; 4]%nat.
Proof.
  destruct (@do_gives_each_slot_to_one_worker 2 ltac:(lia) 5%Z)
    as (vs & H1 & _ & H2 & _).
  exists vs. split; [exact H1|exact H2].
Defined.

(* ================================================================== *)
(** * Selection, generations and the driver *)
(* ================================================================== *)

Section Driving.
Context {F : Type} {num : FloatOps F}.
Variable Exp : F -> F.
Variable NC : nat.
Hypothesis HNC : (1 <= NC)%nat.
Variable Entity : Type.
Variable Fitness : Entity -> F.
Variable Mutate : Entity -> Entity.
Variable Crossover : Entity -> Entity -> Entity.
Variable CrossoverW : Entity -> Entity -> F -> Entity.
Variable same : Entity -> Entity -> bool.

Local Open Scope fl_scope.

Local Abbreviation seq_Next := (GaSeq.Next Exp Fitness Mutate Crossover same).
Local Abbreviation par_Next := (GaPar.Next Exp NC Fitness Mutate CrossoverW).
Local Abbreviation seq_gens :=
  (seq_generations Exp Fitness Mutate Crossover same).
Local Abbreviation par_gens :=
  (par_generations Exp NC Fitness Mutate CrossoverW).
Local Abbreviation seq_Evolve :=
  (GaSeq.Evolve Exp Fitness Mutate Crossover same).
Local Abbreviation par_Evolve :=
  (GaPar.Evolve Exp NC Fitness Mutate CrossoverW).

(** ** The parents are members of the population *)

Lemma seq_select2_loop_members (m : @GaSeq.GA F Entity) (fs : list F) :
  forall i t d r2 x y x' y',
    In x (GaSeq.entities m) -> In y (GaSeq.entities m) ->
    GaSeq.select2_loop same m fs i t d r2 x y = Some (x', y') ->
    In x' (GaSeq.entities m) /\ In y' (GaSeq.entities m).
Proof.
  induction fs as [|f fs IH]; intros i t d r2 x y x' y' Hx Hy;
    cbn [GaSeq.select2_loop].
  - intros E; inversion E; subst; auto.
  - destruct (t <=? f); [|apply IH; assumption].
    destruct (nth_error (GaSeq.entities m) 0); [|discriminate].
    destruct (same x e);
      destruct (nth_error (GaSeq.entities m) i) as [xi|] eqn:Ei;
      try discriminate.
    + apply IH; [eapply nth_error_In; eauto|assumption].
    + intros E; inversion E; subst. split; [assumption|].
      eapply nth_error_In; eauto.
Qed.

Lemma par_select2_loop_members (m : @GaPar.GA F Entity) (fs : list F) :
  forall i fz d ry isx x y wx wy x' y' wx' wy',
    In x (GaPar.entities m) -> In y (GaPar.entities m) ->
    GaPar.select2_loop m fs i fz d ry isx x y wx wy = Some (x', y', wx', wy') ->
    In x' (GaPar.entities m) /\ In y' (GaPar.entities m).
Proof.
  induction fs as [|f fs IH];
    intros i fz d ry isx x y wx wy x' y' wx' wy' Hx Hy;
    cbn [GaPar.select2_loop].
  - intros E; inversion E; subst; auto.
  - destruct (fz <=? f); [|apply IH; assumption].
    destruct isx;
      destruct (nth_error (GaPar.entities m) i) as [xi|] eqn:Ei;
      try discriminate.
    + apply IH; [eapply nth_error_In; eauto|assumption].
    + intros E; inversion E; subst. split; [assumption|].
      eapply nth_error_In; eauto.
Qed.

Lemma index_In {A : Type} (l : list A) z a : index l z = Some a -> In a l.
Proof.
  unfold index. destruct (z <? 0)%Z; [discriminate|]. apply nth_error_In.
Qed.

(** X2. On an engine whose slices have the length [n]: with a population
    that is not empty, [select2] returns two members of the current
    population (and, in [src/ga.go], has drawn two numbers of the
    generator and changed nothing else); with an empty population it
    faults, at [m.entities[0]]. Both engines. *)
Theorem select2_returns_members
        (ms : @GaSeq.GA F Entity) (mp : @GaPar.GA F Entity) (rx ry : F) :
  SeqFacts.wf ms -> ParFacts.wf mp ->
  (GaSeq.entities ms <> [] ->
   exists x y,
     GaSeq.select2 same ms =
       Some (x, y, GaSeq.set_rnd ms (fun k => GaSeq.rnd ms (S (S k)))) /\
     In x (GaSeq.entities ms) /\ In y (GaSeq.entities ms)) /\
  (GaSeq.entities ms = [] -> GaSeq.select2 same ms = None) /\
  (GaPar.entities mp <> [] ->
   exists x y w,
     GaPar.select2 mp rx ry = Some (x, y, w) /\
     In x (GaPar.entities mp) /\ In y (GaPar.entities mp)) /\
  (GaPar.entities mp = [] -> GaPar.select2 mp rx ry = None).
Proof. clear HNC.
  intros Hs Hp. split; [|split; [|split]].
  - intros Hne. rewrite SeqFacts.select2_spec.
    destruct (SeqFacts.parents_total same (GaSeq.rnd ms 0%nat)
                (GaSeq.rnd ms 1%nat) Hs Hne) as (x & y & Hxy).
    rewrite Hxy. exists x, y. split; [reflexivity|].
    unfold SeqFacts.parents in Hxy.
    destruct (GaSeq.rnd ms 1%nat <? GaSeq.rnd ms 0%nat);
      destruct (nth_error (GaSeq.entities ms) 0) as [a|] eqn:Ea;
      try discriminate;
      destruct (index (GaSeq.entities ms) (GaSeq.n ms - 1)) as [b|] eqn:Eb;
      try discriminate;
      (eapply seq_select2_loop_members;
       [eapply nth_error_In; eauto|eapply index_In; eauto|exact Hxy]).
  - intros He. rewrite SeqFacts.select2_spec. unfold SeqFacts.parents.
    rewrite He. cbn [nth_error].
    destruct (GaSeq.rnd ms 1%nat <? GaSeq.rnd ms 0%nat); reflexivity.
  - intros Hne.
    destruct (ParFacts.select2_total rx ry Hp Hne) as ([[x y] w] & Hxy).
    exists x, y, w. split; [exact Hxy|].
    unfold GaPar.select2 in Hxy.
    destruct (ry <? rx);
      destruct (nth_error (GaPar.entities mp) 0) as [a|] eqn:Ea;
      try discriminate;
      destruct (index (GaPar.entities mp) (GaPar.n mp - 1)) as [b|] eqn:Eb;
      try discriminate;
      match type of Hxy with
      | match ?t with _ => _ end = _ =>
          destruct t as [[[[x0 y0] wx0] wy0]|] eqn:El; [|discriminate]
      end;
      inversion Hxy; subst;
      (eapply par_select2_loop_members;
       [eapply nth_error_In; eauto|eapply index_In; eauto|exact El]).
  - intros He. unfold GaPar.select2. rewrite He. cbn [nth_error].
    destruct (ry <? rx); reflexivity.
Qed.

(** ** What [Next] returns and draws *)

Lemma seq_Next_returns_elite (m : @GaSeq.GA F Entity) x m' :
  seq_Next m = Some (x, m') -> x = GaSeq.elite m'.
Proof.
  unfold GaSeq.Next.
  destruct (GaSeq.Next_loop _ _ _ _ _ _) as [m1|]; [|discriminate].
  destruct (filled _) as [ents|]; [|discriminate].
  destruct (GaSeq.fitness _ _ _) as [m2|]; [|discriminate].
  intros E; inversion E; reflexivity.
Qed.

Lemma par_Next_returns_elite (m : @GaPar.GA F Entity) x f m' :
  par_Next m = Some (x, f, m') -> x = GaPar.elite m' /\ f = GaPar.fitness m'.
Proof.
  unfold GaPar.Next.
  destruct (GaPar.do _ _ _ _) as [m1|]; [|discriminate].
  destruct (filled _) as [ents|]; [|discriminate].
  destruct (GaPar.adjust _ _ _ _) as [[s m2]|]; [|discriminate].
  intros E; inversion E; split; reflexivity.
Qed.

Lemma drop3_spec (k : nat) :
  forall (r : nat -> F) j, SeqFacts.drop3 k r j = r (3 * k + j)%nat.
Proof. clear HNC.
  induction k as [|k IH]; intros r j; simpl; [reflexivity|].
  rewrite IH. f_equal. lia.
Qed.

Lemma seq_Next_frame (m : @GaSeq.GA F Entity) x m' :
  SeqFacts.wf m ->
  seq_Next m = Some (x, m') ->
  SeqFacts.wf m' /\
  length (GaSeq.entities m') = length (GaSeq.entities m) /\
  GaSeq.std0 m' = GaSeq.std0 m /\
  (forall j, GaSeq.rnd m' j
             = GaSeq.rnd m (3 * length (GaSeq.entities m) + j)%nat).
Proof. clear HNC.
  intros Hwf HN.
  destruct (SeqFacts.seq_Next_total Exp Fitness Mutate Crossover same Hwf)
    as (zs & Hz & HN' & Hwf').
  rewrite HN' in HN. inversion HN; subst m'. clear HN.
  split; [exact Hwf'|].
  destruct Hwf as (Hn & Hf & Ht). destruct Hwf' as (Hn' & _).
  split.
  { unfold SeqFacts.Next_result, SeqFacts.fitness_result in Hn'.
    cbn [GaSeq.n GaSeq.entities GaSeq.set_buffers GaSeq.set_rnd] in Hn'.
    unfold SeqFacts.Next_result, SeqFacts.fitness_result.
    cbn [GaSeq.entities GaSeq.set_buffers GaSeq.set_rnd]. lia. }
  split; [reflexivity|].
  intro j. unfold SeqFacts.Next_result, SeqFacts.fitness_result.
  cbn [GaSeq.rnd GaSeq.set_buffers GaSeq.set_rnd].
  rewrite drop3_spec, Ht. reflexivity.
Qed.

(** X3. [src/ga.go]: a generation draws exactly three numbers of the
    generator for each slot (two in [select2], one for the mutation), so
    after [k] calls of [Next] on an engine of [n] entities built by [New]
    the generator has advanced by [3 * n * k] numbers, whatever was
    selected or mutated; the population keeps its size. *)
Theorem Next_draws_three_numbers_per_slot
        (nn : Z) (g : nat -> Entity) (seed : nat -> F) (k : nat) :
  (0 <= nn)%Z ->
  exists m0 m,
    GaSeq.New Exp Fitness nn g seed = Some m0 /\
    seq_gens k m0 = Some m /\
    length (GaSeq.entities m) = Z.to_nat nn /\
    (forall j, GaSeq.rnd m j = seed (3 * Z.to_nat nn * k + j)%nat).
Proof. clear HNC.
  intros Hnn.
  assert (Hgen : forall k m0, SeqFacts.wf m0 ->
             exists m, seq_gens k m0 = Some m /\
                       SeqFacts.wf m /\
                       length (GaSeq.entities m) = length (GaSeq.entities m0) /\
                       forall j, GaSeq.rnd m j =
                                 GaSeq.rnd m0
                                   (3 * length (GaSeq.entities m0) * k + j)%nat).
  { clear. induction k as [|k IH]; intros m0 Hwf; simpl.
    - exists m0. repeat split; try apply Hwf.
      intro j. f_equal. lia.
    - destruct (SeqFacts.seq_Next_total Exp Fitness Mutate Crossover same Hwf)
        as (zs & _ & HN & _).
      rewrite HN.
      destruct (seq_Next_frame Hwf HN) as (Hwf1 & Hlen & _ & Hr).
      destruct (IH _ Hwf1) as (m & Hm & Hwfm & Hl & Hrm).
      exists m. split; [exact Hm|]. split; [exact Hwfm|].
      split; [congruence|].
      intro j. rewrite Hrm, Hr, Hlen. f_equal. lia. }
  rewrite SeqFacts.seq_New_spec.
  destruct (Z.ltb_spec nn 0) as [|_]; [lia|].
  eexists.
  destruct (Hgen k _ (@SeqFacts.seq_New_wf _ _ Exp _ Fitness nn g seed _
                        ltac:(rewrite SeqFacts.seq_New_spec;
                              destruct (Z.ltb_spec nn 0); [lia|reflexivity])))
    as (m & Hm & _ & Hl & Hr).
  exists m. split; [reflexivity|]. split; [exact Hm|].
  cbn [GaSeq.entities GaSeq.rnd GaSeq.set_std0 SeqFacts.fitness_result
       SeqFacts.New_blank] in Hl, Hr.
  rewrite length_map, length_seq in Hl, Hr.
  split; [exact Hl|exact Hr].
Qed.

(** ** [Evolve] is [Next], [j] times *)

Lemma seq_loop_generations (fuel : nat) :
  forall k max i j e (m : @GaSeq.GA F Entity) r,
    GaSeq.Evolve_loop Exp Fitness Mutate Crossover same fuel k max i j e m
      = Some r ->
    exists d, GaSeq.run_j r = (j + Z.of_nat d)%Z /\
              seq_gens d m = Some (GaSeq.run_ga r).
Proof. clear HNC.
  induction fuel as [|fuel IH]; intros k max i j e m r;
    cbn [GaSeq.Evolve_loop];
    destruct ((i <? k)%Z && (j <? max)%Z);
    try discriminate;
    try (intros E; inversion E; subst; exists O; split;
         [cbn; lia|reflexivity]).
  destruct (seq_Next m) as [[x m1]|] eqn:HN; [|discriminate].
  destruct (GaSeq.differs same x e); intros E; apply IH in E;
    destruct E as (d & Hj & Hd); exists (S d);
    (split; [lia|]); cbn [seq_generations]; rewrite HN; exact Hd.
Qed.

Lemma par_loop_generations (fuel : nat) :
  forall k max i j fit (m : @GaPar.GA F Entity) r,
    GaPar.Evolve_loop Exp NC Fitness Mutate CrossoverW fuel k max i j fit m
      = Some r ->
    exists d, GaPar.run_j r = (j + Z.of_nat d)%Z /\
              par_gens d m = Some (GaPar.run_ga r).
Proof. clear HNC.
  induction fuel as [|fuel IH]; intros k max i j fit m r;
    cbn [GaPar.Evolve_loop];
    destruct ((i <? k)%Z && (j <? max)%Z);
    try discriminate;
    try (intros E; inversion E; subst; exists O; split;
         [cbn; lia|reflexivity]).
  destruct (par_Next m) as [[[x f] m1]|] eqn:HN; [|discriminate].
  destruct (fit <? f); intros E; apply IH in E;
    destruct E as (d & Hj & Hd); exists (S d);
    (split; [lia|]); cbn [par_generations]; rewrite HN; exact Hd.
Qed.

(** X4. [Evolve(k, max)] is a number [j] of calls of [Next] and nothing
    else: the engine it leaves is the engine after [j] generations, with
    [j <= max] (no generation for a negative [max]) and [j >= k] when it
    reports convergence for a [k >= 0]. Both engines. *)
Theorem Evolve_is_iterated_Next
        (k max : Z) (ms : @GaSeq.GA F Entity) (mp : @GaPar.GA F Entity) :
  SeqFacts.wf ms -> ParFacts.wf mp ->
  (exists j e b m',
      seq_Evolve k max ms = Some (e, b, m') /\
      seq_gens j ms = Some m' /\
      (Z.of_nat j <= Z.max 0 max)%Z /\
      (b = true -> (k <= Z.of_nat j \/ k <= 0)%Z)) /\
  (exists j e f b m',
      par_Evolve k max mp = Some (e, f, b, m') /\
      par_gens j mp = Some m' /\
      (Z.of_nat j <= Z.max 0 max)%Z /\
      (b = true -> (k <= Z.of_nat j \/ k <= 0)%Z)).
Proof using HNC.
  intros Hs Hp. split.
  - destruct (SeqFacts.seq_Evolve_run_total Exp Fitness Mutate Crossover same
                k max Hs) as (r & Hr & _ & H1 & H2 & _).
    pose proof Hr as Hr'. unfold GaSeq.Evolve_run in Hr'.
    apply seq_loop_generations in Hr'. destruct Hr' as (d & Hj & Hd).
    exists d. eexists. eexists. eexists.
    unfold GaSeq.Evolve. rewrite Hr.
    split; [reflexivity|]. split; [exact Hd|]. split; [lia|].
    intros Hb. apply Z.leb_le in Hb. lia.
  - destruct (ParFacts.par_Evolve_run_total Exp HNC Fitness Mutate CrossoverW
                k max Hp) as (r & Hr & _ & H1 & H2 & _).
    pose proof Hr as Hr'. unfold GaPar.Evolve_run in Hr'.
    apply par_loop_generations in Hr'. destruct Hr' as (d & Hj & Hd).
    exists d. eexists. eexists. eexists. eexists.
    unfold GaPar.Evolve. rewrite Hr.
    split; [reflexivity|]. split; [exact Hd|]. split; [lia|].
    intros Hb. apply Z.leb_le in Hb. lia.
Qed.

(** ** What [Evolve] returns *)

Lemma differs_refl (x : option Entity) :
  (forall a, same a a = true) -> GaSeq.differs same x x = false.
Proof. intros H. destruct x; simpl; [now rewrite H|reflexivity]. Qed.

Lemma seq_loop_returns_elite (fuel : nat) :
  (forall a, same a a = true) ->
  forall k max i j e (m : @GaSeq.GA F Entity) r,
    GaSeq.differs same (GaSeq.elite m) e = false ->
    GaSeq.Evolve_loop Exp Fitness Mutate Crossover same fuel k max i j e m
      = Some r ->
    GaSeq.differs same (GaSeq.elite (GaSeq.run_ga r)) (GaSeq.run_elite r)
      = false.
Proof.
  intros Hrefl.
  induction fuel as [|fuel IH]; intros k max i j e m r Hinv;
    cbn [GaSeq.Evolve_loop];
    destruct ((i <? k)%Z && (j <? max)%Z);
    try discriminate;
    try (intros E; inversion E; subst; exact Hinv).
  destruct (seq_Next m) as [[x m1]|] eqn:HN; [|discriminate].
  apply seq_Next_returns_elite in HN. subst x.
  destruct (GaSeq.differs same (GaSeq.elite m1) e) eqn:Ed; apply IH.
  - now apply differs_refl.
  - exact Ed.
Qed.

(** X5. [Evolve(1, max)] with [max >= 1] always stops after its first
    generation and reports convergence, whether that generation changed
    the elite or not: the counter is 1 after any generation. Both
    engines. *)
Theorem Evolve_with_k_one_stops_at_once
        (max : Z) (ms : @GaSeq.GA F Entity) (mp : @GaPar.GA F Entity) :
  (1 <= max)%Z ->
  SeqFacts.wf ms -> ParFacts.wf mp ->
  (exists e e' m',
      seq_Next ms = Some (e, m') /\
      seq_Evolve 1 max ms = Some (e', true, m')) /\
  (exists e f f' m',
      par_Next mp = Some (e, f, m') /\
      par_Evolve 1 max mp = Some (e, f', true, m')).
Proof using HNC.
  intros Hmax Hs Hp.
  assert (Hfuel : exists fuel, Z.to_nat max = S fuel)
    by (exists (Z.to_nat max - 1)%nat; lia).
  destruct Hfuel as [fuel Hfuel].
  assert (Hc : ((0 <? 1)%Z && (0 <? max)%Z) = true).
  { destruct (Z.ltb_spec 0 max); [reflexivity|lia]. }
  split.
  - destruct (SeqFacts.seq_Next_total Exp Fitness Mutate Crossover same Hs)
      as (zs & _ & HN & _).
    unfold GaSeq.Evolve, GaSeq.Evolve_run. rewrite Hfuel.
    cbn [GaSeq.Evolve_loop]. rewrite Hc, HN.
    destruct (GaSeq.differs same _ (GaSeq.elite ms));
      destruct fuel; cbn [GaSeq.Evolve_loop Z.ltb Z.compare Z.add andb
                          Pos.compare Pos.compare_cont];
      eexists; eexists; eexists; (split; reflexivity).
  - destruct (ParFacts.par_Next_total Exp HNC Fitness Mutate CrossoverW Hp)
      as (zs & _ & HN & _).
    unfold GaPar.Evolve, GaPar.Evolve_run. rewrite Hfuel.
    cbn [GaPar.Evolve_loop]. rewrite Hc, HN.
    destruct (fltb (GaPar.fitness mp) _) eqn:E;
      destruct fuel; cbn [GaPar.Evolve_loop Z.ltb Z.compare Z.add andb
                          Pos.compare Pos.compare_cont];
      eexists; eexists; eexists; eexists; (split; reflexivity).
Qed.

(** X6. [src/ga.go]: provided [==] holds between an entity and itself, the
    entity [Evolve] returns is [==] to the elite of the engine it leaves,
    the entity [Elite()] then returns; both are nil together. *)
Theorem Evolve_returns_the_elite
        (k max : Z) (ms : @GaSeq.GA F Entity) :
  (forall a, same a a = true) ->
  SeqFacts.wf ms ->
  exists e b m',
    seq_Evolve k max ms = Some (e, b, m') /\
    GaSeq.differs same (SeqApi.Elite m') e = false.
Proof. clear HNC.
  intros Hrefl Hs.
  destruct (SeqFacts.seq_Evolve_run_total Exp Fitness Mutate Crossover same
              k max Hs) as (r & Hr & _).
  unfold GaSeq.Evolve. rewrite Hr. eexists. eexists. eexists.
  split; [reflexivity|].
  unfold GaSeq.Evolve_run in Hr.
  eapply seq_loop_returns_elite; [exact Hrefl| |exact Hr].
  now apply differs_refl.
Qed.

End Driving.

(* ================================================================== *)
(** * The order of [float64], continued *)
(* ================================================================== *)

(** Further laws of [<=] and [<] away from NaN: [<=] is transitive, holds
    between numbers only, and two numbers are always comparable. *)
Class OrderLaws (F : Type) {num : FloatOps F} : Prop := {
  fle_trans :
    forall a b c : F, fleb a b = true -> fleb b c = true -> fleb a c = true;
  fle_ordered :
    forall a b : F, fleb a b = true -> fleb a a = true /\ fleb b b = true;
  fle_total :
    forall a b : F,
      fleb a a = true -> fleb b b = true -> fltb a b = false ->
      fleb b a = true
}.

#[export] Instance exact_order : @OrderLaws xreal exact.
Proof.
  constructor.
  - intros [| |a|] [| |b|] [| |c|]; xcmp.
  - intros [| |a|] [| |b|]; cbn; intros; try discriminate; split; xcmp.
  - intros [| |a|] [| |b|]; xcmp.
Qed.

Lemma lex_lt_total a b :
  Binary64Facts.lex_lt a b \/ a = b \/ Binary64Facts.lex_lt b a.
Proof.
  destruct a as [[a1 a2] a3], b as [[b1 b2] b3]. unfold Binary64Facts.lex_lt.
  destruct (Z.lt_total a1 b1) as [H|[H|H]]; [lia| |lia].
  destruct (Z.lt_total a2 b2) as [H'|[H'|H']]; [lia| |lia].
  destruct (Z.lt_total a3 b3) as [H''|[H''|H'']]; [lia| |lia].
  right. left. congruence.
Qed.

#[export] Instance binary64_order : @OrderLaws float binary64.
Proof.
  constructor; cbn [fleb fltb binary64].
  - intros a b c Hab Hbc.
    apply Binary64Facts.leb_key in Hab. apply Binary64Facts.leb_key in Hbc.
    destruct Hab as (ka & kb & Ea & Eb & H).
    destruct Hbc as (kb' & kc & Eb' & Ec & H').
    rewrite Eb in Eb'. inversion Eb'; subst kb'.
    apply Binary64Facts.leb_key. exists ka, kc.
    split; [exact Ea|]. split; [exact Ec|].
    destruct H as [H|H]; destruct H' as [H'|H']; subst; auto.
    left. eapply Binary64Facts.lex_lt_trans; eauto.
  - intros a b Hab. apply Binary64Facts.leb_key in Hab.
    destruct Hab as (ka & kb & Ea & Eb & H).
    split; apply Binary64Facts.leb_key; eauto 6.
  - intros a b Ha Hb Hlt.
    apply Binary64Facts.leb_key in Ha. apply Binary64Facts.leb_key in Hb.
    destruct Ha as (ka & ka' & Ea & _). destruct Hb as (kb & kb' & Eb & _).
    apply Binary64Facts.leb_key. exists kb, ka.
    split; [exact Eb|]. split; [exact Ea|].
    destruct (lex_lt_total ka kb) as [H|[H|H]]; auto.
    exfalso.
    assert (Ht : PrimFloat.ltb a b = true)
      by (apply Binary64Facts.ltb_key; eauto 6).
    congruence.
Qed.

(* ================================================================== *)
(** * The greatest of a slice *)
(* ================================================================== *)

Section Greatest.
Context {F : Type} {num : FloatOps F}.
Context {laws : @CmpLaws F num} {order : @OrderLaws F num}.

Local Open Scope fl_scope.

Lemma flt_irrefl (a : F) : (a <? a) = false.
Proof using laws.
  destruct (a <? a) eqn:E; [|reflexivity].
  pose proof (flt_ordered _ _ E) as Ho.
  now rewrite (fle_not_flt _ _ Ho) in E.
Qed.

Lemma flt_not_fle (a b : F) : (a <? b) = true -> (b <=? a) = false.
Proof using laws.
  intros H. destruct (b <=? a) eqn:E; [|reflexivity].
  now rewrite (fle_not_flt _ _ E) in H.
Qed.

Lemma max_loop_ge (xs : list F) :
  forall i k m m0,
    (m0 <=? m) = true -> (m0 <=? snd (GaPar.max_loop xs i k m)) = true.
Proof using laws.
  induction xs as [|x xs IH]; intros i k m m0 H; simpl; [assumption|].
  destruct (m <? x) eqn:E; [|now apply IH].
  apply IH. eapply fle_flt_trans; eauto.
Qed.

Lemma max_loop_ordered (xs : list F) :
  forall i k m,
    (m <=? m) = true ->
    (snd (GaPar.max_loop xs i k m) <=? snd (GaPar.max_loop xs i k m)) = true.
Proof using laws.
  induction xs as [|x xs IH]; intros i k m H; simpl; [assumption|].
  destruct (m <? x) eqn:E; [|now apply IH].
  apply IH. eapply flt_ordered; eauto.
Qed.

(** No element exceeds what the loop returns. *)
Lemma max_loop_tops (xs : list F) :
  forall i k m y,
    (m <=? m) = true -> In y xs ->
    (snd (GaPar.max_loop xs i k m) <? y) = false.
Proof using laws order.
  induction xs as [|x xs IH]; intros i k m y Hm Hy; simpl; [contradiction|].
  destruct Hy as [<-|Hy].
  - destruct (m <? x) eqn:E.
    + apply fle_not_flt. apply max_loop_ge. eapply flt_ordered; eauto.
    + destruct (snd (GaPar.max_loop xs (S i) k m) <? x) eqn:E'; [|reflexivity].
      pose proof (flt_ordered _ _ E') as Hx.
      pose proof (fle_total _ _ Hm Hx E) as Hxm.
      pose proof (max_loop_ge xs (S i) k _ _ Hxm) as Hge.
      now rewrite (fle_not_flt _ _ Hge) in E'.
  - destruct (m <? x) eqn:E; apply IH; try assumption.
    eapply flt_ordered; eauto.
Qed.

(** The loop returns what it was given, or the first element that is
    above it and that no later element exceeds. *)
Lemma max_loop_first (xs : list F) :
  forall i k m,
    (m <=? m) = true ->
    GaPar.max_loop xs i k m = (k, m) \/
    exists c x,
      nth_error xs c = Some x /\
      GaPar.max_loop xs i k m = ((i + c)%nat, x) /\
      (x <=? m) = false /\
      forall j y, (j < c)%nat -> nth_error xs j = Some y -> (x <=? y) = false.
Proof using laws order.
  induction xs as [|a xs IH]; intros i k m Hm; simpl; [now left|].
  destruct (m <? a) eqn:E.
  - right. pose proof (flt_ordered _ _ E) as Ha.
    destruct (IH (S i) i a Ha) as [H|(c & x & Hx & Hr & Hxa & Hfirst)].
    + exists O, a. rewrite H, Nat.add_0_r.
      split; [reflexivity|]. split; [reflexivity|].
      split; [now apply flt_not_fle|]. intros j y Hj; lia.
    + exists (S c), x. split; [exact Hx|].
      split; [rewrite Hr; f_equal; lia|].
      split.
      * destruct (x <=? m) eqn:Exm; [|reflexivity].
        pose proof (fle_flt_trans _ _ _ Exm E). congruence.
      * intros [|j] y Hj Hy; simpl in Hy.
        -- inversion Hy; subst. exact Hxa.
        -- apply (Hfirst j); [lia|exact Hy].
  - destruct (IH (S i) k m Hm) as [H|(c & x & Hx & Hr & Hxm & Hfirst)];
      [now left|].
    right. exists (S c), x. split; [exact Hx|].
    split; [rewrite Hr; f_equal; lia|]. split; [exact Hxm|].
    intros [|j] y Hj Hy; simpl in Hy.
    + inversion Hy; subst.
      destruct (x <=? y) eqn:Exy; [|reflexivity].
      destruct (fle_ordered _ _ Exy) as [_ Hyo].
      pose proof (fle_total _ _ Hm Hyo E) as Hym.
      pose proof (fle_trans _ _ _ Exy Hym). congruence.
    + apply (Hfirst j); [lia|exact Hy].
Qed.

(** X7. [max] returns the greatest value of the slice and the first index
    that holds it: no element exceeds the value returned, and no element
    before the index returned is as large. When no element is above minus
    infinity (an empty slice, or only NaN and minus infinity) it returns
    index 0 and minus infinity. Proved from the laws of the order of
    [float64]. *)
Theorem max_returns_first_greatest (xs : list F) :
  GaPar.max (@nil F) = (O, neg_inf) /\
  (forall y, In y xs -> (snd (GaPar.max xs) <? y) = false) /\
  (GaPar.max xs = (O, neg_inf) \/
   nth_error xs (fst (GaPar.max xs)) = Some (snd (GaPar.max xs)) /\
   (neg_inf <? snd (GaPar.max xs)) = true /\
   forall j y, (j < fst (GaPar.max xs))%nat -> nth_error xs j = Some y ->
               (snd (GaPar.max xs) <=? y) = false).
Proof using laws order.
  split; [reflexivity|]. split.
  - intros y Hy. apply max_loop_tops; [apply neg_inf_ordered|exact Hy].
  - unfold GaPar.max.
    destruct (@max_loop_first xs O O neg_inf neg_inf_ordered)
      as [H|(c & x & Hx & Hr & Hxm & Hfirst)]; [now left|].
    right. rewrite Hr. cbn [fst snd Nat.add].
    split; [exact Hx|]. split; [|exact Hfirst].
    destruct (neg_inf <? x) eqn:E; [reflexivity|].
    assert (Hxo : (x <=? x) = true).
    { pose proof (@max_loop_ordered xs O O neg_inf neg_inf_ordered) as Ho.
      now rewrite Hr in Ho. }
    pose proof (fle_total _ _ neg_inf_ordered Hxo E). congruence.
Qed.

End Greatest.

(** On binary64: the greatest of [1; 3; 3; 2] is its second element. *)
Lemma max_returns_first_greatest_witness :
  GaPar.max [1; 3; 3; 2]%float = (1%nat, 3%float) /\
  forall y, In y [1; 3; 3; 2]%float ->
            PrimFloat.ltb (snd (GaPar.max [1; 3; 3; 2]%float)) y = false.
Proof.
  destruct (@max_returns_first_greatest float binary64 binary64_laws
              binary64_order [1; 3; 3; 2]%float) as (_ & H & _).
  split; [reflexivity|exact H].
Defined.

(* ================================================================== *)
(** * The elite and the population *)
(* ================================================================== *)

Section EliteInvariant.
Context {F : Type} {num : FloatOps F}.
Context {laws : @CmpLaws F num} {order : @OrderLaws F num}.
Variable Exp : F -> F.
Variable NC : nat.
Hypothesis HNC : (1 <= NC)%nat.
Variable Entity : Type.
Variable Fitness : Entity -> F.
Variable Mutate : Entity -> Entity.
Variable Crossover : Entity -> Entity -> Entity.
Variable CrossoverW : Entity -> Entity -> F -> Entity.
Variable same : Entity -> Entity -> bool.

Local Open Scope fl_scope.

Local Abbreviation seq_gens :=
  (seq_generations Exp Fitness Mutate Crossover same).
Local Abbreviation par_gens :=
  (par_generations Exp NC Fitness Mutate CrossoverW).

(** The elite fitness is the fitness of the elite; it is minus infinity
    while there is no elite. *)
Definition elite_matches (e : option Entity) (f : F) : Prop :=
  match e with
  | Some x => Fitness x = f
  | None => f = neg_inf
  end.

(** No entity of [xs] has a fitness above [f]. *)
Definition tops (f : F) (xs : list Entity) : Prop :=
  forall x, In x xs -> (f <? Fitness x) = false.

(** ** The sequential engine *)

Lemma champion_matches (xs : list Entity) :
  forall e fe,
    elite_matches e fe ->
    elite_matches (fst (SeqFacts.champion Fitness xs e fe))
                  (snd (SeqFacts.champion Fitness xs e fe)).
Proof.
  induction xs as [|x xs IH]; intros e fe H; simpl; [exact H|].
  destruct (fe <? Fitness x); apply IH; [reflexivity|exact H].
Qed.

Lemma champion_tops (xs : list Entity) :
  forall e fe,
    (fe <=? fe) = true ->
    tops (snd (SeqFacts.champion Fitness xs e fe)) xs.
Proof using laws order.
  induction xs as [|a xs IH]; intros e fe Hfe x Hx; simpl; [contradiction|].
  destruct Hx as [<-|Hx].
  - destruct (fe <? Fitness a) eqn:E.
    + apply fle_not_flt. apply EliteFacts.champion_ge.
      eapply flt_ordered; eauto.
    + destruct (snd (SeqFacts.champion Fitness xs e fe) <? Fitness a) eqn:E';
        [|reflexivity].
      pose proof (flt_ordered _ _ E') as Ha.
      pose proof (fle_total _ _ Hfe Ha E) as Hafe.
      pose proof (EliteFacts.champion_ge Fitness xs e _ _ Hafe) as Hge.
      now rewrite (fle_not_flt _ _ Hge) in E'.
  - destruct (fe <? Fitness a) eqn:E; apply IH; try assumption.
    eapply flt_ordered; eauto.
Qed.

(** The scan keeps what it was given, or takes the first entity that is
    above it and that no later entity exceeds. *)
Lemma champion_first (xs : list Entity) :
  forall e fe,
    (fe <=? fe) = true ->
    SeqFacts.champion Fitness xs e fe = (e, fe) \/
    exists k x,
      nth_error xs k = Some x /\
      SeqFacts.champion Fitness xs e fe = (Some x, Fitness x) /\
      (Fitness x <=? fe) = false /\
      forall j y, (j < k)%nat -> nth_error xs j = Some y ->
                  (Fitness x <=? Fitness y) = false.
Proof using laws order. clear HNC.
  induction xs as [|a xs IH]; intros e fe Hfe; simpl; [now left|].
  destruct (fe <? Fitness a) eqn:E.
  - right. pose proof (flt_ordered _ _ E) as Ha.
    destruct (IH (Some a) (Fitness a) Ha)
      as [H|(k & x & Hx & Hr & Hxa & Hfirst)].
    + exists O, a. rewrite H.
      split; [reflexivity|]. split; [reflexivity|].
      split; [now apply flt_not_fle|]. intros j y Hj; lia.
    + exists (S k), x. split; [exact Hx|]. split; [exact Hr|].
      split.
      * destruct (Fitness x <=? fe) eqn:Exm; [|reflexivity].
        pose proof (fle_flt_trans _ _ _ Exm E). congruence.
      * intros [|j] y Hj Hy; simpl in Hy.
        -- inversion Hy; subst. exact Hxa.
        -- apply (Hfirst j); [lia|exact Hy].
  - destruct (IH e fe Hfe) as [H|(k & x & Hx & Hr & Hxm & Hfirst)];
      [now left|].
    right. exists (S k), x. split; [exact Hx|].
    split; [exact Hr|]. split; [exact Hxm|].
    intros [|j] y Hj Hy; simpl in Hy.
    + inversion Hy; subst.
      destruct (Fitness x <=? Fitness y) eqn:Exy; [|reflexivity].
      destruct (fle_ordered _ _ Exy) as [_ Hyo].
      pose proof (fle_total _ _ Hfe Hyo E) as Hym.
      pose proof (fle_trans _ _ _ Exy Hym). congruence.
    + apply (Hfirst j); [lia|exact Hy].
Qed.

(** X8. [src/ga.go], [fitness]: when the elite fitness is a number, the
    scan either keeps the elite, and then no entity of the population has
    a fitness above the elite fitness, or makes elite the first entity of
    greatest fitness in the population: its fitness is not below or equal
    to the old elite fitness, no entity has a fitness above it, and no
    entity before it has a fitness as large. *)
Theorem fitness_crowns_the_first_best (m : @GaSeq.GA F Entity) :
  length (GaSeq.fentities m) = length (GaSeq.entities m) ->
  (GaSeq.felite m <=? GaSeq.felite m) = true ->
  exists m',
    GaSeq.fitness Exp Fitness m = Some m' /\
    tops (SeqApi.Felite m') (GaSeq.entities m) /\
    ((SeqApi.Elite m' = GaSeq.elite m /\ SeqApi.Felite m' = GaSeq.felite m) \/
     exists k x,
       nth_error (GaSeq.entities m) k = Some x /\
       SeqApi.Elite m' = Some x /\ SeqApi.Felite m' = Fitness x /\
       (Fitness x <=? GaSeq.felite m) = false /\
       forall j y, (j < k)%nat -> nth_error (GaSeq.entities m) j = Some y ->
                   (Fitness x <=? Fitness y) = false).
Proof using laws order.
  intros Hlen Ho. rewrite SeqFacts.fitness_spec by assumption.
  eexists. split; [reflexivity|].
  unfold SeqApi.Felite, SeqApi.Elite, SeqFacts.fitness_result.
  cbn [GaSeq.felite GaSeq.elite].
  split; [now apply champion_tops|].
  destruct (@champion_first (GaSeq.entities m) (GaSeq.elite m) _ Ho)
    as [H|(k & x & Hx & Hr & Hxm & Hfirst)]; rewrite ?H, ?Hr; cbn [fst snd].
  - left. split; reflexivity.
  - right. exists k, x. repeat split; assumption.
Qed.

(** What a sequential engine keeps between generations. *)
Definition seq_crowned (m : @GaSeq.GA F Entity) : Prop :=
  SeqFacts.wf m /\
  (GaSeq.felite m <=? GaSeq.felite m) = true /\
  elite_matches (GaSeq.elite m) (GaSeq.felite m) /\
  tops (GaSeq.felite m) (GaSeq.entities m).

Lemma fitness_result_crowned (m : @GaSeq.GA F Entity) :
  SeqFacts.wf (SeqFacts.fitness_result Exp Fitness m) ->
  (GaSeq.felite m <=? GaSeq.felite m) = true ->
  elite_matches (GaSeq.elite m) (GaSeq.felite m) ->
  seq_crowned (SeqFacts.fitness_result Exp Fitness m).
Proof using laws order.
  intros Hwf Ho Hm. split; [exact Hwf|].
  unfold SeqFacts.fitness_result.
  cbn [GaSeq.felite GaSeq.elite GaSeq.entities].
  split; [now apply EliteFacts.champion_ordered|].
  split; [now apply champion_matches|now apply champion_tops].
Qed.

Lemma seq_crowned_New nn g seed m :
  GaSeq.New Exp Fitness nn g seed = Some m -> seq_crowned m.
Proof using laws order.
  intros HN. pose proof (SeqFacts.seq_New_wf _ _ _ _ _ HN) as Hwf.
  rewrite SeqFacts.seq_New_spec in HN.
  destruct (nn <? 0)%Z; [discriminate|]. inversion HN; subst m.
  destruct (@fitness_result_crowned (SeqFacts.New_blank nn g seed))
    as (_ & H1 & H2 & H3).
  - destruct Hwf as (Hn & Hf & Ht). repeat split; assumption.
  - apply neg_inf_ordered.
  - reflexivity.
  - split; [exact Hwf|]. split; [exact H1|]. split; [exact H2|exact H3].
Qed.

Lemma seq_crowned_Next m e m' :
  seq_crowned m ->
  GaSeq.Next Exp Fitness Mutate Crossover same m = Some (e, m') ->
  seq_crowned m'.
Proof using laws order.
  intros (Hwf & Ho & Hm & _) HN.
  destruct (SeqFacts.seq_Next_total Exp Fitness Mutate Crossover same Hwf)
    as (zs & _ & HN' & Hwf').
  rewrite HN' in HN. inversion HN; subst m'.
  apply fitness_result_crowned; assumption.
Qed.

(** ** The fork-join engine *)

Lemma best_matches (ents : list Entity) (slots : list nat) :
  forall mf me,
    elite_matches me mf ->
    elite_matches (snd (ParFacts.best Fitness ents slots mf me))
                  (fst (ParFacts.best Fitness ents slots mf me)).
Proof.
  induction slots as [|i slots IH]; intros mf me H; simpl; [exact H|].
  destruct (nth_error ents i) as [e|]; [|exact H].
  destruct (mf <? Fitness e); apply IH; [reflexivity|exact H].
Qed.

Lemma best_ge (ents : list Entity) (slots : list nat) :
  forall mf me mf0,
    (mf0 <=? mf) = true ->
    (mf0 <=? fst (ParFacts.best Fitness ents slots mf me)) = true.
Proof using laws.
  induction slots as [|i slots IH]; intros mf me mf0 H; simpl; [exact H|].
  destruct (nth_error ents i) as [e|]; [|exact H].
  destruct (mf <? Fitness e) eqn:E; [|now apply IH].
  apply IH. eapply fle_flt_trans; eauto.
Qed.

Lemma best_ordered (ents : list Entity) (slots : list nat) :
  forall mf me,
    (mf <=? mf) = true ->
    (fst (ParFacts.best Fitness ents slots mf me)
       <=? fst (ParFacts.best Fitness ents slots mf me)) = true.
Proof using laws.
  induction slots as [|i slots IH]; intros mf me H; simpl; [exact H|].
  destruct (nth_error ents i) as [e|]; [|exact H].
  destruct (mf <? Fitness e) eqn:E; [|now apply IH].
  apply IH. eapply flt_ordered; eauto.
Qed.

Lemma best_tops (ents : list Entity) (slots : list nat) :
  (forall i, In i slots -> (i < length ents)%nat) ->
  forall mf me i x,
    (mf <=? mf) = true ->
    In i slots -> nth_error ents i = Some x ->
    (fst (ParFacts.best Fitness ents slots mf me) <? Fitness x) = false.
Proof using laws order. clear HNC.
  induction slots as [|a slots IH]; intros Hin mf me i x Hmf Hi Hx;
    [contradiction|].
  cbn [ParFacts.best].
  assert (Ha : exists e, nth_error ents a = Some e).
  { destruct (nth_error ents a) eqn:E; [eauto|].
    apply nth_error_None in E. specialize (Hin a (or_introl eq_refl)). lia. }
  destruct Ha as [e He]. rewrite He.
  assert (Hin' : forall j, In j slots -> (j < length ents)%nat)
    by (intros; apply Hin; now right).
  destruct Hi as [->|Hi].
  - rewrite Hx in He. inversion He; subst e.
    destruct (mf <? Fitness x) eqn:E.
    + apply fle_not_flt. apply best_ge. eapply flt_ordered; eauto.
    + destruct (fst (ParFacts.best Fitness ents slots mf me) <? Fitness x)
        eqn:E'; [|reflexivity].
      pose proof (flt_ordered _ _ E') as Hxo.
      pose proof (fle_total _ _ Hmf Hxo E) as Hxm.
      pose proof (best_ge ents slots mf me _ Hxm) as Hge.
      now rewrite (fle_not_flt _ _ Hge) in E'.
  - destruct (mf <? Fitness e) eqn:E; eapply IH; eauto.
    eapply flt_ordered; eauto.
Qed.

Lemma crowned_matches (m : @GaPar.GA F Entity) :
  elite_matches (GaPar.elite m) (GaPar.fitness m) ->
  elite_matches (GaPar.elite (ParFacts.crowned NC Fitness m))
                (GaPar.fitness (ParFacts.crowned NC Fitness m)).
Proof using laws.
  intros H.
  destruct (EliteFacts.crowned_cases Fitness NC m) as [E|(e & _ & _ & E)];
    rewrite E; [exact H|reflexivity].
Qed.

Lemma crowned_tops (m : @GaPar.GA F Entity) :
  ParFacts.wf m ->
  (GaPar.fitness m <=? GaPar.fitness m) = true ->
  tops (GaPar.fitness (ParFacts.crowned NC Fitness m)) (GaPar.entities m).
Proof using HNC laws order.
  intros (Hn & _) Ho x Hx.
  apply In_nth_error in Hx. destruct Hx as [i Hi].
  assert (Hlt : (i < length (GaPar.entities m))%nat)
    by (apply nth_error_Some; congruence).
  set (nn := Z.to_nat (GaPar.n m)).
  assert (Hnn : nn = length (GaPar.entities m)) by (unfold nn; lia).
  set (c := (i mod NC)%nat).
  assert (Hc : (c < NC)%nat) by (apply Nat.mod_upper_bound; lia).
  set (slots := GaPar.worker_slots NC nn c nn).
  set (mfc := fst (ParFacts.best Fitness (GaPar.entities m) slots neg_inf None)).
  assert (Hmfc : (mfc <? Fitness x) = false).
  { unfold mfc. eapply best_tops; [| apply neg_inf_ordered | | exact Hi].
    - intros j Hj. apply ParFacts.worker_slots_in in Hj. lia.
    - unfold slots, c. apply ParFacts.worker_slots_cover; [exact HNC|lia]. }
  assert (Hmfo : (mfc <=? mfc) = true)
    by (apply best_ordered, neg_inf_ordered).
  assert (Hin : In mfc (ParFacts.mfs_of NC Fitness (GaPar.entities m) nn)).
  { unfold ParFacts.mfs_of. apply in_map_iff. exists c.
    split; [reflexivity|apply in_seq; lia]. }
  unfold ParFacts.crowned. fold nn.
  destruct (GaPar.max (ParFacts.mfs_of NC Fitness (GaPar.entities m) nn))
    as [c0 M] eqn:Emax.
  assert (HM : (M <? mfc) = false).
  { pose proof (@max_loop_tops _ _ laws order _ O O neg_inf mfc
                  neg_inf_ordered Hin) as H.
    unfold GaPar.max in Emax. now rewrite Emax in H. }
  assert (HMo : (M <=? M) = true).
  { pose proof (@max_loop_ordered _ _ laws
                  (ParFacts.mfs_of NC Fitness (GaPar.entities m) nn)
                  O O neg_inf neg_inf_ordered) as H.
    unfold GaPar.max in Emax. now rewrite Emax in H. }
  destruct (GaPar.fitness m <? M) eqn:Elt; cbn [GaPar.fitness GaPar.set_elite].
  - destruct (M <? Fitness x) eqn:E; [|reflexivity].
    pose proof (flt_ordered _ _ E) as Hxo.
    pose proof (fle_total _ _ Hmfo Hxo Hmfc) as H1.
    pose proof (fle_total _ _ HMo Hmfo HM) as H2.
    pose proof (fle_trans _ _ _ H1 H2) as H3.
    now rewrite (fle_not_flt _ _ H3) in E.
  - destruct (GaPar.fitness m <? Fitness x) eqn:E; [|reflexivity].
    pose proof (flt_ordered _ _ E) as Hxo.
    pose proof (fle_total _ _ Hmfo Hxo Hmfc) as H1.
    pose proof (fle_total _ _ HMo Hmfo HM) as H2.
    pose proof (fle_total _ _ Ho HMo Elt) as H3.
    pose proof (fle_trans _ _ _ (fle_trans _ _ _ H1 H2) H3) as H4.
    now rewrite (fle_not_flt _ _ H4) in E.
Qed.

(** What a fork-join engine keeps between generations. *)
Definition par_crowned (m : @GaPar.GA F Entity) : Prop :=
  ParFacts.wf m /\
  (GaPar.fitness m <=? GaPar.fitness m) = true /\
  elite_matches (GaPar.elite m) (GaPar.fitness m) /\
  tops (GaPar.fitness m) (GaPar.entities m).

Lemma adjust_result_crowned (m : @GaPar.GA F Entity) :
  ParFacts.wf m ->
  ParFacts.wf (ParFacts.adjust_result Exp NC Fitness m) ->
  (GaPar.fitness m <=? GaPar.fitness m) = true ->
  elite_matches (GaPar.elite m) (GaPar.fitness m) ->
  par_crowned (ParFacts.adjust_result Exp NC Fitness m).
Proof using HNC laws order.
  intros Hwf Hwf' Ho Hm. split; [exact Hwf'|].
  destruct (adjust_result_elite Exp NC Fitness m) as [Ef Ee].
  destruct (adjust_result_frame Exp NC Fitness m) as (_ & Hents & _).
  rewrite Ef, Ee, Hents.
  split; [apply (par_elite_step NC Fitness m Ho)|].
  split; [now apply crowned_matches|now apply crowned_tops].
Qed.

Lemma par_crowned_New nn g seeds m :
  GaPar.New Exp NC Fitness nn g seeds = Some m -> par_crowned m.
Proof using HNC laws order.
  intros HN. pose proof (ParFacts.par_New_wf _ HNC _ _ _ _ HN) as Hwf.
  rewrite (ParFacts.par_New_spec _ HNC) in HN.
  destruct (Z.ltb_spec nn 0) as [|Hnn]; [discriminate|].
  inversion HN; subst m.
  destruct (@adjust_result_crowned (ParFacts.New_blank nn g seeds))
    as (_ & H1 & H2 & H3).
  - now apply ParFacts.par_New_blank_wf.
  - destruct Hwf as (Hn & Hf & Ht). repeat split; assumption.
  - apply neg_inf_ordered.
  - reflexivity.
  - split; [exact Hwf|]. split; [exact H1|]. split; [exact H2|exact H3].
Qed.

Lemma par_Next_result_wf_buffers (m : @GaPar.GA F Entity) zs :
  ParFacts.wf m ->
  map Some zs = ParFacts.offspring Mutate CrossoverW m ->
  ParFacts.wf (GaPar.set_buffers
                 (GaPar.set_rnd m (fun g => GaPar.rnd m (S g))) zs
                 (map Some (GaPar.entities m))).
Proof.
  intros (Hn & Hf & Ht) Hz. unfold ParFacts.wf.
  cbn [GaPar.n GaPar.entities GaPar.fentities GaPar.tentities
       GaPar.set_buffers GaPar.set_rnd].
  assert (Hl : length zs = length (GaPar.entities m)).
  { rewrite <- (length_map Some zs), Hz. unfold ParFacts.offspring.
    now rewrite length_map, length_seq. }
  rewrite length_map. repeat split; congruence.
Qed.

Lemma par_crowned_Next m e f m' :
  par_crowned m ->
  GaPar.Next Exp NC Fitness Mutate CrossoverW m = Some (e, f, m') ->
  par_crowned m'.
Proof using HNC laws order.
  intros (Hwf & Ho & Hm & _) HN.
  destruct (ParFacts.par_Next_total Exp HNC Fitness Mutate CrossoverW Hwf)
    as (zs & Hz & HN' & Hwf').
  rewrite HN' in HN. inversion HN; subst m'.
  apply adjust_result_crowned; try assumption.
  now apply par_Next_result_wf_buffers.
Qed.

(** X9. In every generation of an engine built by [New]: the elite fitness
    is the fitness of the elite (and minus infinity while the elite is
    nil), and no entity of the current population has a fitness above the
    elite fitness. Both engines, from the laws of the order of
    [float64]. *)
Theorem elite_tops_the_population
        (nn : Z) (g : nat -> Entity) (seed : nat -> F)
        (seeds : nat -> nat -> F * F * F) (k : nat) :
  (0 <= nn)%Z ->
  (exists m0 m,
      GaSeq.New Exp Fitness nn g seed = Some m0 /\
      seq_gens k m0 = Some m /\
      elite_matches (SeqApi.Elite m) (SeqApi.Felite m) /\
      tops (SeqApi.Felite m) (GaSeq.entities m)) /\
  (exists m0 m,
      GaPar.New Exp NC Fitness nn g seeds = Some m0 /\
      par_gens k m0 = Some m /\
      elite_matches (ParApi.Elite m) (ParApi.Fitness m) /\
      tops (ParApi.Fitness m) (GaPar.entities m)).
Proof using HNC laws order.
  intros Hnn. split.
  - assert (Hgen : forall k m0, seq_crowned m0 ->
              exists m, seq_gens k m0 = Some m /\ seq_crowned m).
    { clear - laws order. induction k as [|k IH]; intros m0 H0; simpl; [eauto|].
      destruct (SeqFacts.seq_Next_total Exp Fitness Mutate Crossover
                  same (proj1 H0)) as (zs & _ & HN & _).
      rewrite HN. apply IH. eapply seq_crowned_Next; eauto. }
    rewrite SeqFacts.seq_New_spec.
    destruct (Z.ltb_spec nn 0) as [|_]; [lia|].
    eexists.
    destruct (Hgen k _ (@seq_crowned_New nn g seed _
                          ltac:(rewrite SeqFacts.seq_New_spec;
                                destruct (Z.ltb_spec nn 0); [lia|reflexivity])))
      as (m & Hm & (_ & _ & H1 & H2)).
    exists m. split; [reflexivity|]. split; [exact Hm|].
    split; [exact H1|exact H2].
  - assert (Hgen : forall k m0, par_crowned m0 ->
              exists m, par_gens k m0 = Some m /\ par_crowned m).
    { clear - HNC laws order.
      induction k as [|k IH]; intros m0 H0; simpl; [eauto|].
      destruct (ParFacts.par_Next_total Exp HNC Fitness Mutate
                  CrossoverW (proj1 H0)) as (zs & _ & HN & _).
      rewrite HN. apply IH. eapply par_crowned_Next; eauto. }
    rewrite (ParFacts.par_New_spec _ HNC).
    destruct (Z.ltb_spec nn 0) as [|_]; [lia|].
    eexists.
    destruct (Hgen k _ (@par_crowned_New nn g seeds _
                          ltac:(rewrite (ParFacts.par_New_spec _ HNC);
                                destruct (Z.ltb_spec nn 0); [lia|reflexivity])))
      as (m & Hm & (_ & _ & H1 & H2)).
    exists m. split; [reflexivity|]. split; [exact Hm|].
    split; [exact H1|exact H2].
Qed.

(** ** What [Evolve] of the fork-join engine returns *)

Lemma par_Next_fitness (m : @GaPar.GA F Entity) x f m1 :
  ParFacts.wf m ->
  GaPar.Next Exp NC Fitness Mutate CrossoverW m = Some (x, f, m1) ->
  ParFacts.wf m1 /\ x = GaPar.elite m1 /\ f = GaPar.fitness m1 /\
  (GaPar.fitness m1 = GaPar.fitness m \/
   (GaPar.fitness m <? GaPar.fitness m1) = true).
Proof using HNC laws.
  intros Hwf HN.
  destruct (ParFacts.par_Next_total Exp HNC Fitness Mutate CrossoverW Hwf)
    as (zs & Hz & HN' & Hwf').
  rewrite HN' in HN. inversion HN; subst. clear HN.
  split; [exact Hwf'|]. split; [reflexivity|]. split; [reflexivity|].
  unfold ParFacts.Next_result.
  set (mb := GaPar.set_buffers
               (GaPar.set_rnd m (fun g => GaPar.rnd m (S g))) zs
               (map Some (GaPar.entities m))).
  destruct (adjust_result_elite Exp NC Fitness mb) as [Ef _]. rewrite Ef.
  destruct (EliteFacts.crowned_cases Fitness NC mb) as [E|(e & _ & Hlt & E)];
    rewrite E.
  - left. reflexivity.
  - right. exact Hlt.
Qed.

Lemma par_loop_returns_fitness (fuel : nat) :
  forall k max i j fit (m : @GaPar.GA F Entity) r,
    ParFacts.wf m -> fit = GaPar.fitness m ->
    GaPar.Evolve_loop Exp NC Fitness Mutate CrossoverW fuel k max i j fit m
      = Some r ->
    GaPar.run_fitness r = GaPar.fitness (GaPar.run_ga r).
Proof using HNC laws.
  induction fuel as [|fuel IH]; intros k max i j fit m r Hwf Hfit;
    cbn [GaPar.Evolve_loop];
    destruct ((i <? k)%Z && (j <? max)%Z);
    try discriminate;
    try (intros E; inversion E; subst; reflexivity).
  destruct (GaPar.Next Exp NC Fitness Mutate CrossoverW m)
    as [[[x f] m1]|] eqn:HN; [|discriminate].
  destruct (par_Next_fitness Hwf HN) as (Hwf1 & _ & Hf & Hcmp).
  destruct (fit <? f) eqn:E; apply IH; try assumption.
  destruct Hcmp as [Heq|Hlt]; [congruence|].
  subst fit f. congruence.
Qed.

(** X10. [src/unnamed/part_000]: the elite and the fitness [Evolve] returns
    are those of the engine it leaves, what [Elite()] and [Fitness()] then
    return: the local copy of the fitness that the loop compares with is
    never out of date. *)
Theorem Evolve_returns_elite_and_fitness
        (k max : Z) (mp : @GaPar.GA F Entity) :
  ParFacts.wf mp ->
  exists e f b m',
    GaPar.Evolve Exp NC Fitness Mutate CrossoverW k max mp
      = Some (e, f, b, m') /\
    e = ParApi.Elite m' /\ f = ParApi.Fitness m'.
Proof using HNC laws.
  intros Hp.
  destruct (ParFacts.par_Evolve_run_total Exp HNC Fitness Mutate CrossoverW
              k max Hp) as (r & Hr & _).
  unfold GaPar.Evolve. rewrite Hr. eexists. eexists. eexists. eexists.
  split; [reflexivity|]. split; [reflexivity|].
  unfold GaPar.Evolve_run in Hr.
  eapply par_loop_returns_fitness; [exact Hp|reflexivity|exact Hr].
Qed.

End EliteInvariant.

(* ================================================================== *)
(** * Selection in exact arithmetic *)
(* ================================================================== *)

Section ExactRoulette.
Variable NC : nat.
Hypothesis HNC : (1 <= NC)%nat.
Variable Entity : Type.
Variable Fit : Entity -> R.        (* the real fitness of an entity *)

Local Open Scope R_scope.
Local Abbreviation Fitness := (fun e : Entity => XFin (Fit e)).

Lemma Rsum_nonneg (l : list R) :
  (forall x, In x l -> 0 < x) -> 0 <= ExactFacts.Rsum l.
Proof.
  induction l as [|a l IH]; intros H; simpl; [lra|].
  pose proof (H a (or_introl eq_refl)).
  assert (0 <= ExactFacts.Rsum l) by (apply IH; intros; apply H; now right).
  unfold ExactFacts.Rsum in *. lra.
Qed.

(** A target that does not exceed the sum of the weights is always hit. *)
Lemma first_hit_exact (ws : list R) :
  forall i t,
    ws <> [] -> t <= ExactFacts.Rsum ws ->
    exists pre w rest,
      ws = pre ++ w :: rest /\
      first_hit (map XFin ws) i (XFin t) =
        Some ((i + length pre)%nat, XFin (t - ExactFacts.Rsum pre), XFin w,
              map XFin rest).
Proof. clear HNC.
  induction ws as [|a ws IH]; intros i t Hne Ht; [congruence|].
  cbn [map first_hit]. cbn [fleb exact Exact.leb].
  destruct (Rle_dec t a) as [Hle|Hgt].
  - rewrite (proj2 (ExactFacts.Rleb_true _ _) Hle).
    exists [], a, ws. split; [reflexivity|].
    unfold ExactFacts.Rsum. cbn [length fold_right]. rewrite Nat.add_0_r.
    replace (t - 0) with t by lra. reflexivity.
  - rewrite (proj2 (ExactFacts.Rleb_false _ _) Hgt).
    cbn [fsub exact Exact.sub Exact.neg Exact.add].
    assert (Hws : ws <> []).
    { intros ->. cbn in Ht. lra. }
    destruct (IH (S i) (t + - a) Hws) as (pre & w & rest & E & Hf).
    { cbn [ExactFacts.Rsum fold_right] in Ht. unfold ExactFacts.Rsum. lra. }
    exists (a :: pre), w, rest. split; [now rewrite E|].
    rewrite Hf. unfold ExactFacts.Rsum. cbn [length fold_right].
    replace (S i + length pre)%nat with (i + S (length pre))%nat by lia.
    replace (t + - a - fold_right Rplus 0 pre)
      with (t - (a + fold_right Rplus 0 pre)) by lra.
    reflexivity.
Qed.

Lemma nth_error_middle {A : Type} (ents : list A) (n : nat) :
  (n < length ents)%nat -> exists x, nth_error ents n = Some x.
Proof. clear HNC.
  intros H. destruct (nth_error ents n) eqn:E; [eauto|].
  apply nth_error_None in E. lia.
Qed.

(** With positive weights, their sum for [fsum] and two numbers
    [0 <= r1 <= r2 <= 1], both scans of the selection hit, unless the first
    hit is at the last index. *)
Lemma roulette_exact (ents : list Entity) (ws : list R)
      (first last : Entity) (r1 r2 : R) :
  length ents = length ws -> ws <> [] ->
  (forall w, In w ws -> 0 < w) ->
  0 <= r1 -> r1 <= r2 -> r2 <= 1 ->
  exists ix x y wx wy,
    roulette ents (map XFin ws) (XFin (ExactFacts.Rsum ws)) first last
             (XFin r1) (XFin r2) = Some (x, y, XFin wx, XFin wy) /\
    nth_error ents ix = Some x /\ 0 < wx /\
    ((S ix = length ents /\ y = last /\ wy = 0) \/
     (exists iy, (ix < iy)%nat /\ nth_error ents iy = Some y /\ 0 < wy)).
Proof. clear HNC.
  intros Hlen Hne Hpos H1 H12 H2.
  pose proof (Rsum_nonneg ws Hpos) as Hs.
  unfold roulette. cbn [fmul exact Exact.mul].
  destruct (@first_hit_exact ws O (ExactFacts.Rsum ws * r1) Hne)
    as (pre & wx & rest & E & Hf); [nra|].
  rewrite Hf. cbn [Nat.add].
  assert (Hix : (length pre < length ents)%nat).
  { rewrite Hlen, E, length_app. simpl. lia. }
  destruct (nth_error_middle ents Hix) as [x Hx]. rewrite Hx.
  assert (Hwx : 0 < wx) by (apply Hpos; rewrite E; apply in_elt).
  assert (Hsum : ExactFacts.Rsum ws =
                 ExactFacts.Rsum pre + wx + ExactFacts.Rsum rest).
  { rewrite E, ExactFacts.Rsum_app. cbn [ExactFacts.Rsum fold_right].
    unfold ExactFacts.Rsum. lra. }
  assert (Hpre : 0 <= ExactFacts.Rsum pre).
  { apply Rsum_nonneg. intros w Hw. apply Hpos. rewrite E.
    apply in_or_app. now left. }
  assert (Hrest : 0 <= ExactFacts.Rsum rest).
  { apply Rsum_nonneg. intros w Hw. apply Hpos. rewrite E.
    apply in_or_app. right. now right. }
  cbn [fadd fsub fmul exact Exact.mul Exact.add Exact.sub Exact.neg].
  destruct rest as [|w0 rest'] eqn:Erest.
  - cbn [map first_hit].
    exists (length pre), x, last, wx, 0.
    split; [reflexivity|]. split; [exact Hx|]. split; [exact Hwx|].
    left. split; [|split; reflexivity].
    rewrite Hlen, E, length_app. simpl. lia.
  - rewrite <- Erest in *.
    match goal with
    | |- context [first_hit (map XFin rest) ?i (XFin ?t)] =>
        destruct (@first_hit_exact rest i t) as (pre2 & wy & rest2 & E2 & Hf2)
    end.
    { rewrite Erest. discriminate. }
    { nra. }
    rewrite Hf2.
    assert (Hiy : (S (length pre) + length pre2 < length ents)%nat).
    { rewrite Hlen, E, length_app. simpl. rewrite E2, length_app. simpl. lia. }
    destruct (nth_error_middle ents Hiy) as [y Hy]. rewrite Hy.
    exists (length pre), x, y, wx, wy.
    split; [reflexivity|]. split; [exact Hx|]. split; [exact Hwx|].
    right. exists (S (length pre) + length pre2)%nat.
    split; [lia|]. split; [exact Hy|].
    apply Hpos. rewrite E. apply in_or_app. right. right.
    rewrite E2. apply in_elt.
Qed.


End ExactRoulette.

(* ================================================================== *)
(** * The selection of the sequential engine *)
(* ================================================================== *)

Section SeqRoulette.
Context {F : Type} {num : FloatOps F}.
Variable Entity : Type.
Variable same : Entity -> Entity -> bool.

Local Open Scope fl_scope.

(** The two numbers [select2] draws, the smaller first. *)
Definition sorted_draws (m : @GaSeq.GA F Entity) : F * F :=
  if GaSeq.rnd m 1%nat <? GaSeq.rnd m 0%nat
  then (GaSeq.rnd m 1%nat, GaSeq.rnd m 0%nat)
  else (GaSeq.rnd m 0%nat, GaSeq.rnd m 1%nat).

(** The parents of the selection of the specification, without their
    weights. *)
Definition roulette_parents (m : @GaSeq.GA F Entity) (e0 last : Entity)
  : option (Entity * Entity) :=
  match roulette (GaSeq.entities m) (GaSeq.fentities m) (GaSeq.fsum m) e0 last
                 (fst (sorted_draws m)) (snd (sorted_draws m)) with
  | Some (x, y, _, _) => Some (x, y)
  | None => None
  end.

Lemma seq_second_phase (m : @GaSeq.GA F Entity) (e0 : Entity) (ws : list F) :
  nth_error (GaSeq.entities m) O = Some e0 ->
  forall i t d r2 x y,
    same x e0 = false ->
    GaSeq.select2_loop same m ws i t d r2 x y =
    match first_hit ws i t with
    | None => Some (x, y)
    | Some (iy, _, _, _) =>
        match nth_error (GaSeq.entities m) iy with
        | None => None
        | Some yi => Some (x, yi)
        end
    end.
Proof.
  intros H0.
  induction ws as [|w ws IH]; intros i t d r2 x y Hx;
    cbn [GaSeq.select2_loop first_hit]; [reflexivity|].
  destruct (t <=? w); [|now apply IH].
  rewrite H0, Hx. reflexivity.
Qed.

Lemma seq_first_phase (m : @GaSeq.GA F Entity) (e0 : Entity) (ws : list F) :
  nth_error (GaSeq.entities m) O = Some e0 ->
  same e0 e0 = true ->
  forall i t d r2 y,
    GaSeq.select2_loop same m ws i t d r2 e0 y =
    match first_hit ws i t with
    | None => Some (e0, y)
    | Some (ix, tx, wx, rest) =>
        match nth_error (GaSeq.entities m) ix with
        | None => None
        | Some xi =>
            GaSeq.select2_loop same m rest (S ix) (tx + d - wx * r2) d r2 xi y
        end
    end.
Proof.
  intros H0 Hrefl.
  induction ws as [|w ws IH]; intros i t d r2 y;
    cbn [GaSeq.select2_loop first_hit]; [reflexivity|].
  destruct (t <=? w); [|now apply IH].
  rewrite H0, Hrefl. reflexivity.
Qed.

(** X12. [src/ga.go]: provided [==] holds between the first member and
    itself, [select2] returns the parents of the roulette selection (first
    hit of the target [fsum * r1], then first later hit of the re-based
    target, the first and the last member without a hit) whenever the
    entity at the first hit is not [==] to the first member
    [m.entities[0]], or there is no hit at all. *)
Theorem select2_is_roulette_off_the_first_member
        (m : @GaSeq.GA F Entity) (e0 last : Entity) :
  nth_error (GaSeq.entities m) O = Some e0 ->
  index (GaSeq.entities m) (GaSeq.n m - 1) = Some last ->
  same e0 e0 = true ->
  (forall ix tx wx rest xi,
      first_hit (GaSeq.fentities m) O (GaSeq.fsum m * fst (sorted_draws m))
        = Some (ix, tx, wx, rest) ->
      nth_error (GaSeq.entities m) ix = Some xi ->
      same xi e0 = false) ->
  GaSeq.select2 same m =
  match roulette_parents m e0 last with
  | Some (x, y) =>
      Some (x, y, GaSeq.set_rnd m (fun k => GaSeq.rnd m (S (S k))))
  | None => None
  end.
Proof.
  intros H0 Hl Hrefl Hoff.
  rewrite SeqFacts.select2_spec.
  assert (E : SeqFacts.parents same m (GaSeq.rnd m 0%nat) (GaSeq.rnd m 1%nat)
              = roulette_parents m e0 last).
  { unfold SeqFacts.parents, roulette_parents, roulette.
    unfold sorted_draws in *.
    destruct (GaSeq.rnd m 1%nat <? GaSeq.rnd m 0%nat); cbn [fst snd] in *;
      rewrite H0, Hl, (seq_first_phase m _ H0 Hrefl);
      (destruct (first_hit _ _ _) as [[[[ix tx] wx] rest]|] eqn:Eh;
       [|reflexivity]);
      (destruct (nth_error (GaSeq.entities m) ix) as [xi|] eqn:Ex;
       [|reflexivity]);
      rewrite (seq_second_phase m _ H0 _ _ _ _ _ (Hoff _ _ _ _ _ eq_refl Ex));
      (destruct (first_hit rest _ _) as [[[[iy ty] wy] rest']|];
       [|reflexivity]);
      destruct (nth_error (GaSeq.entities m) iy); reflexivity. }
  rewrite E. destruct (roulette_parents m e0 last) as [[x y]|]; reflexivity.
Qed.

End SeqRoulette.

(** On binary64: three entities of weight 1/2 and the numbers 1/2 and 3/4;
    the first hit is at index 1. *)
Lemma select2_is_roulette_off_the_first_member_witness :
  option_map fst
    (GaSeq.select2 Nat.eqb
       (GaSeq.set_rnd Binary64Runs.seq_engine
          (fun k => match k with O => 0.5 | _ => 0.75 end)%float))
  = Some (11%nat, 12%nat).
Proof.
  rewrite (@select2_is_roulette_off_the_first_member float binary64 nat
             Nat.eqb
             (GaSeq.set_rnd Binary64Runs.seq_engine
                (fun k => match k with O => 0.5 | _ => 0.75 end)%float)
             10%nat 12%nat eq_refl eq_refl eq_refl).
  - reflexivity.
  - intros ix tx wx rest xi H1 H2. vm_compute in H1.
    inversion H1; subst. vm_compute in H2. inversion H2. reflexivity.
Defined.

(* ================================================================== *)
(** * Statistics and weights in exact arithmetic, continued *)
(* ================================================================== *)

Module AffineFacts.

Local Open Scope R_scope.

Local Abbreviation Rsum := ExactFacts.Rsum.
Local Abbreviation Rmean := ExactFacts.Rmean.
Local Abbreviation Rvariance := ExactFacts.Rvariance.
Local Abbreviation Rstd := ExactFacts.Rstd.
Local Abbreviation Rweight := ExactFacts.Rweight.

(** The fitness values [a * f + c]. *)
Definition affine (a c : R) (l : list R) : list R :=
  map (fun x => a * x + c) l.

Definition squares (l : list R) : list R := map (fun x => x * x) l.

Lemma INR_length_pos {A : Type} (l : list A) : l <> [] -> 0 < INR (length l).
Proof.
  intros H. destruct l; [congruence|]. apply lt_0_INR. simpl. lia.
Qed.

Lemma Rsum_affine a c l :
  Rsum (affine a c l) = a * Rsum l + c * INR (length l).
Proof.
  induction l as [|x l IH]; [simpl; lra|].
  unfold affine in *. cbn [map length]. rewrite S_INR.
  unfold ExactFacts.Rsum in *. cbn [fold_right]. rewrite IH. lra.
Qed.

Lemma Rsum_squares_affine a c l :
  Rsum (squares (affine a c l)) =
  a * a * Rsum (squares l) + 2 * a * c * Rsum l + c * c * INR (length l).
Proof.
  induction l as [|x l IH]; [simpl; lra|].
  unfold affine, squares in *. cbn [map length]. rewrite S_INR.
  unfold ExactFacts.Rsum in *. cbn [fold_right]. rewrite IH. lra.
Qed.

Lemma affine_length a c l : length (affine a c l) = length l.
Proof. apply length_map. Qed.

Lemma Rmean_affine a c l :
  l <> [] -> Rmean (affine a c l) = a * Rmean l + c.
Proof.
  intros H. pose proof (INR_length_pos H) as Hn.
  unfold ExactFacts.Rmean. rewrite Rsum_affine, affine_length.
  field. lra.
Qed.

Lemma squares_length l : length (squares l) = length l.
Proof. apply length_map. Qed.

Lemma Rvariance_affine a c l :
  l <> [] -> Rvariance (affine a c l) = a * a * Rvariance l.
Proof.
  intros H. pose proof (INR_length_pos H) as Hn.
  unfold ExactFacts.Rvariance.
  change (map (fun x => x * x) (affine a c l)) with (squares (affine a c l)).
  change (map (fun x => x * x) l) with (squares l).
  unfold ExactFacts.Rmean.
  rewrite Rsum_squares_affine, Rsum_affine, !squares_length, !affine_length.
  field. lra.
Qed.

(** The variance is the mean of the squared deviations. *)
Lemma Rvariance_deviations l :
  l <> [] ->
  INR (length l) * Rvariance l =
  Rsum (map (fun x => (x - Rmean l) * (x - Rmean l)) l).
Proof.
  intros H. pose proof (INR_length_pos H) as Hn.
  assert (G : forall mu l0,
             Rsum (map (fun x => (x - mu) * (x - mu)) l0) =
             Rsum (squares l0) - 2 * mu * Rsum l0 + mu * mu * INR (length l0)).
  { intros mu l0. induction l0 as [|x l0 IH]; [simpl; lra|].
    unfold squares in *. cbn [map length]. rewrite S_INR.
    unfold ExactFacts.Rsum in *. cbn [fold_right]. rewrite IH. lra. }
  rewrite G. unfold ExactFacts.Rvariance, ExactFacts.Rmean.
  change (map (fun x => x * x) l) with (squares l).
  rewrite squares_length. field. lra.
Qed.

Lemma Rsum_squares_zero (l : list R) (mu : R) :
  Rsum (map (fun x => (x - mu) * (x - mu)) l) <= 0 ->
  forall x, In x l -> x = mu.
Proof.
  induction l as [|y l IH]; intros H x Hx; [contradiction|].
  cbn [map] in H. unfold ExactFacts.Rsum in *. cbn [fold_right] in H.
  assert (Hy : 0 <= (y - mu) * (y - mu)) by apply Rle_0_sqr.
  assert (Hl : 0 <= fold_right Rplus 0 (map (fun x => (x - mu) * (x - mu)) l)).
  { clear. induction l as [|z l IH]; simpl; [lra|].
    pose proof (Rle_0_sqr (z - mu)) as Hz. unfold Rsqr in Hz. lra. }
  destruct Hx as [<-|Hx].
  - assert (E : (y - mu) * (y - mu) = 0) by lra.
    apply Rmult_integral in E. destruct E; lra.
  - apply IH; [lra|exact Hx].
Qed.

Lemma Rvariance_degenerate l :
  Rvariance l <= 0 -> forall x, In x l -> x = Rmean l.
Proof.
  intros H x Hx.
  assert (Hne : l <> []) by (intros ->; contradiction).
  pose proof (INR_length_pos Hne) as Hn.
  apply (Rsum_squares_zero l); [|exact Hx].
  rewrite <- (Rvariance_deviations Hne). nra.
Qed.

Lemma Rweight_shape mu sd f mu' sd' f' :
  (mu - f) / sd = (mu' - f') / sd' -> Rweight mu sd f = Rweight mu' sd' f'.
Proof. unfold ExactFacts.Rweight. now intros ->. Qed.

(** The weights depend on the fitness values only through their standard
    scores. *)
Lemma weights_affine a c l :
  0 < a ->
  map (Rweight (Rmean (affine a c l)) (Rstd (affine a c l))) (affine a c l) =
  map (Rweight (Rmean l) (Rstd l)) l.
Proof.
  intros Ha. destruct l as [|x0 l0] eqn:El; [reflexivity|].
  rewrite <- El.
  assert (Hne : l <> []) by (rewrite El; discriminate).
  unfold affine at 3. rewrite map_map. apply map_ext_in. intros f Hf.
  apply Rweight_shape.
  rewrite (Rmean_affine a c Hne).
  unfold ExactFacts.Rstd. rewrite (Rvariance_affine a c Hne).
  assert (Haa : 0 < a * a) by now apply Rmult_lt_0_compat.
  destruct (Rlt_dec 0 (Rvariance l)) as [Hv|Hv].
  - assert (Hav : 0 < a * a * Rvariance l) by now apply Rmult_lt_0_compat.
    destruct (Rlt_dec 0 (a * a * Rvariance l)) as [_|]; [|contradiction].
    rewrite sqrt_mult by lra. rewrite sqrt_square by lra.
    assert (Hs : 0 < R_sqrt.sqrt (Rvariance l)) by now apply sqrt_lt_R0.
    field. lra.
  - assert (Hav : ~ 0 < a * a * Rvariance l).
    { intros Hc. apply Hv. apply (Rmult_lt_reg_l (a * a)); [exact Haa|].
      now rewrite Rmult_0_r. }
    destruct (Rlt_dec 0 (a * a * Rvariance l)) as [|_]; [contradiction|].
    assert (E : f = Rmean l) by (apply Rvariance_degenerate; [lra|exact Hf]).
    rewrite E. field.
Qed.

Lemma Rweight_increasing mu sd f g :
  0 < sd -> f < g -> Rweight mu sd f < Rweight mu sd g.
Proof.
  intros Hsd Hfg. unfold ExactFacts.Rweight.
  assert (Hlt : (mu - g) / sd < (mu - f) / sd).
  { unfold Rdiv. apply Rmult_lt_compat_r; [now apply Rinv_0_lt_compat|lra]. }
  apply exp_increasing in Hlt.
  pose proof (exp_pos ((mu - g) / sd)).
  unfold Rdiv at 1 3. rewrite !Rmult_1_l.
  apply Rinv_lt_contravar; [nra|lra].
Qed.

Lemma Rweight_above_mean mu sd f :
  0 < sd -> mu < f -> 1 / 2 < Rweight mu sd f.
Proof.
  intros Hsd Hf. unfold ExactFacts.Rweight.
  assert (Hlt : (mu - f) / sd < 0).
  { unfold Rdiv. assert (0 < / sd) by now apply Rinv_0_lt_compat. nra. }
  apply exp_increasing in Hlt. rewrite exp_0 in Hlt.
  pose proof (exp_pos ((mu - f) / sd)).
  unfold Rdiv. rewrite !Rmult_1_l.
  apply Rinv_lt_contravar; [nra|lra].
Qed.

End AffineFacts.

Section ExactWeights.
Variable NC : nat.
Hypothesis HNC : (1 <= NC)%nat.
Variable Entity : Type.
Variable Fit : Entity -> R.        (* the real fitness of an entity *)

Local Open Scope R_scope.
Local Abbreviation Fitness := (fun e : Entity => XFin (Fit e)).

(** The weights and their sum, as both engines compute them in exact
    arithmetic. *)
Definition Rweights (rs : list R) : list R :=
  map (ExactFacts.Rweight (ExactFacts.Rmean rs) (ExactFacts.Rstd rs)) rs.

Lemma seq_fitness_exact (ms : @GaSeq.GA xreal Entity) :
  length (GaSeq.fentities ms) = length (GaSeq.entities ms) ->
  exists m',
    GaSeq.fitness Exact.exp Fitness ms = Some m' /\
    GaSeq.std m' = XFin (ExactFacts.Rstd (map Fit (GaSeq.entities ms))) /\
    GaSeq.fentities m' = map XFin (Rweights (map Fit (GaSeq.entities ms))) /\
    GaSeq.fsum m' =
      XFin (ExactFacts.Rsum (Rweights (map Fit (GaSeq.entities ms)))).
Proof.
  intros Hlen. rewrite SeqFacts.fitness_spec by assumption.
  eexists. split; [reflexivity|].
  cbn [GaSeq.std GaSeq.fentities GaSeq.fsum SeqFacts.fitness_result].
  split; [apply ExactFacts.std_of_exact|].
  split; [apply ExactFacts.weights_of_exact|apply ExactFacts.fsum_of_exact].
Qed.

Lemma par_adjust_exact (mp : @GaPar.GA xreal Entity) :
  ParFacts.wf mp ->
  exists m',
    GaPar.adjust Exact.exp NC Fitness mp =
      Some (XFin (ExactFacts.Rstd (map Fit (GaPar.entities mp))), m') /\
    GaPar.fentities m' = map XFin (Rweights (map Fit (GaPar.entities mp))) /\
    GaPar.fsum m' =
      XFin (ExactFacts.Rsum (Rweights (map Fit (GaPar.entities mp)))).
Proof using HNC.
  intros Hwf. rewrite (ParFacts.adjust_spec Exact.exp HNC) by assumption.
  destruct Hwf as (Hn & _). rewrite Hn.
  rewrite (ExactFacts.par_std_exact HNC).
  eexists. split; [reflexivity|].
  unfold ParFacts.adjust_result.
  cbn [GaPar.fentities GaPar.fsum GaPar.set_fsum GaPar.set_fentities].
  rewrite Hn.
  split; [apply (ExactFacts.par_weights_exact HNC)
         |apply (ExactFacts.par_fsum_exact HNC)].
Qed.


Lemma Rweights_order (ents : list Entity) i j a b :
  nth_error ents i = Some a -> nth_error ents j = Some b ->
  exists wa wb,
    nth_error (map XFin (Rweights (map Fit ents))) i = Some (XFin wa) /\
    nth_error (map XFin (Rweights (map Fit ents))) j = Some (XFin wb) /\
    (Fit a < Fit b -> wa < wb) /\
    (Fit a = Fit b -> wa = wb) /\
    (ExactFacts.Rmean (map Fit ents) < Fit a -> 1 / 2 < wa).
Proof.
  intros Ha Hb. unfold Rweights.
  rewrite !nth_error_map, Ha, Hb. cbn [option_map].
  eexists. eexists. split; [reflexivity|]. split; [reflexivity|].
  split; [|split].
  - apply AffineFacts.Rweight_increasing, ExactFacts.Rstd_pos.
  - now intros ->.
  - apply AffineFacts.Rweight_above_mean, ExactFacts.Rstd_pos.
Qed.


Lemma Rweights_affine (a c : R) (ents : list Entity) :
  0 < a ->
  Rweights (map (fun e => a * Fit e + c) ents) = Rweights (map Fit ents).
Proof.
  intros Ha. unfold Rweights.
  replace (map (fun e => a * Fit e + c) ents)
    with (AffineFacts.affine a c (map Fit ents))
    by (unfold AffineFacts.affine; now rewrite map_map).
  rewrite (AffineFacts.weights_affine c (map Fit ents) Ha). reflexivity.
Qed.

End ExactWeights.

Section ExactInvariance.
Variable NC : nat.
Hypothesis HNC : (1 <= NC)%nat.
Variable Entity : Type.
Variable Fit : Entity -> R.        (* the real fitness of an entity *)

Local Open Scope R_scope.


End ExactInvariance.

(* ================================================================== *)
(** * The mutation probability in exact arithmetic, continued *)
(* ================================================================== *)

Section ExactControl.
Variable NC : nat.
Hypothesis HNC : (1 <= NC)%nat.
Variable Entity : Type.
Variable Fit : Entity -> R.        (* the real fitness of an entity *)
Variable Mutate : Entity -> Entity.
Variable Crossover : Entity -> Entity -> Entity.
Variable CrossoverW : Entity -> Entity -> xreal -> Entity.
Variable same : Entity -> Entity -> bool.

Local Open Scope R_scope.
Local Abbreviation Fitness := (fun e : Entity => XFin (Fit e)).
Local Abbreviation seq_gens :=
  (seq_generations Exact.exp Fitness Mutate Crossover same).
Local Abbreviation par_gens :=
  (par_generations Exact.exp NC Fitness Mutate CrossoverW).

(** ** The sequential engine *)

(** The engine holds the standard deviation of its population, and for
    baseline the real [s0]. *)
Definition seq_baselined (s0 : R) (m : @GaSeq.GA xreal Entity) : Prop :=
  SeqFacts.wf m /\
  GaSeq.std m = XFin (ExactFacts.Rstd (map Fit (GaSeq.entities m))) /\
  GaSeq.std0 m = XFin s0.

Lemma seq_baselined_Next s0 m e m' :
  seq_baselined s0 m ->
  GaSeq.Next Exact.exp Fitness Mutate Crossover same m = Some (e, m') ->
  seq_baselined s0 m'.
Proof.
  intros (Hwf & Hs & Hs0) HN.
  destruct (SeqFacts.seq_Next_total Exact.exp Fitness Mutate Crossover same Hwf)
    as (zs & _ & HN' & Hwf').
  rewrite HN' in HN. inversion HN; subst m'. split; [exact Hwf'|].
  unfold SeqFacts.Next_result.
  cbn [GaSeq.std GaSeq.std0 SeqFacts.fitness_result GaSeq.set_buffers
       GaSeq.set_rnd GaSeq.entities].
  split; [apply ExactFacts.std_of_exact|exact Hs0].
Qed.

Lemma seq_probability_exact s0 m :
  0 < s0 -> seq_baselined s0 m ->
  GaSeq.mutation_probability Exact.exp m =
  XFin (exp (-10 * ExactFacts.Rstd (map Fit (GaSeq.entities m)) / s0)).
Proof.
  intros Hpos (_ & Hs & Hs0).
  unfold GaSeq.mutation_probability. rewrite Hs, Hs0.
  cbn [fmul exact Exact.mul of_int].
  rewrite ExactFacts.div_fin by lra. reflexivity.
Qed.


(** ** The fork-join engine *)

Lemma smoothed_step (m : @GaPar.GA xreal Entity) (p b s : R) :
  GaPar.pm m = XFin p -> 1 / 10000 <= p <= 1 / 10 ->
  GaPar.base m = XFin b -> 0 < b -> 0 < s ->
  exists p',
    GaPar.pm (GaPar.adjust_pm Exact.exp m (XFin s)) = XFin p' /\
    1 / 10000 <= p' <= 1 / 10 /\
    9 / 10 * p <= p' <= 11 / 10 * p.
Proof.
  intros Hp Hr Hb Hb0 Hs. unfold GaPar.adjust_pm. rewrite Hb, Hp.
  change (@f0 xreal exact) with (XFin 0).
  cbn [fltb exact Exact.ltb].
  rewrite (proj2 (ExactFacts.Rltb_true _ _) Hb0).
  assert (E1 : @c0_1 xreal exact = XFin (1 / 10))
    by (unfold c0_1; cbn [of_int exact]; apply ExactFacts.div_fin; lra).
  assert (E2 : @c0_0001 xreal exact = XFin (1 / 10000))
    by (unfold c0_0001; cbn [of_int exact]; apply ExactFacts.div_fin; lra).
  assert (E3 : @c0_2 xreal exact = XFin (2 / 10))
    by (unfold c0_2; cbn [of_int exact]; apply ExactFacts.div_fin; lra).
  assert (E4 : @c0_9 xreal exact = XFin (9 / 10))
    by (unfold c0_9; cbn [of_int exact]; apply ExactFacts.div_fin; lra).
  rewrite E1, E2, E3, E4.
  cbn [fmul fadd exact Exact.mul Exact.add of_int].
  rewrite ExactFacts.div_fin by lra.
  cbn [Exact.exp Exact.mul Exact.add Exact.ltb].
  set (x := exp (IZR (-5) * s / b)).
  assert (Hx : 0 < x < 1).
  { split; [apply exp_pos|]. unfold x. rewrite <- exp_0.
    apply exp_increasing.
    assert (0 < s / b) by (apply Rdiv_lt_0_compat; assumption).
    replace (IZR (-5) * s / b) with (- (5 * (s / b))) by (field; lra).
    lra. }
  set (q := p * (2 / 10 * x + 9 / 10)).
  assert (Hq : 9 / 10 * p < q < 11 / 10 * p) by (unfold q; nra).
  destruct (Rlt_dec (1 / 10) q) as [H1|H1].
  - rewrite (proj2 (ExactFacts.Rltb_true _ _) H1).
    exists (1 / 10). split; [reflexivity|lra].
  - rewrite (proj2 (ExactFacts.Rltb_false _ _) H1).
    destruct (Rlt_dec q (1 / 10000)) as [H2|H2].
    + rewrite (proj2 (ExactFacts.Rltb_true _ _) H2).
      exists (1 / 10000). split; [reflexivity|lra].
    + rewrite (proj2 (ExactFacts.Rltb_false _ _) H2).
      exists q. split; [reflexivity|lra].
Qed.

(** The engine holds a mutation probability in its range, and for base
    the real [b0]. *)
Definition par_based (b0 : R) (m : @GaPar.GA xreal Entity) : Prop :=
  ParFacts.wf m /\
  (exists p, GaPar.pm m = XFin p /\ 1 / 10000 <= p <= 1 / 10) /\
  GaPar.base m = XFin b0.

Lemma par_based_Next b0 m :
  0 < b0 -> par_based b0 m ->
  exists e f m' p p',
    GaPar.Next Exact.exp NC Fitness Mutate CrossoverW m = Some (e, f, m') /\
    par_based b0 m' /\
    GaPar.pm m = XFin p /\ GaPar.pm m' = XFin p' /\
    9 / 10 * p <= p' <= 11 / 10 * p.
Proof using HNC.
  intros Hb0 (Hwf & (p & Hp & Hr) & Hb).
  destruct (ParFacts.par_Next_total Exact.exp HNC Fitness Mutate CrossoverW Hwf)
    as (zs & Hz & HN & Hwf').
  rewrite HN.
  unfold ParFacts.Next_result in *.
  set (mb := GaPar.set_buffers
               (GaPar.set_rnd m (fun g => GaPar.rnd m (S g))) zs
               (map Some (GaPar.entities m))) in *.
  assert (Hwfb : ParFacts.wf mb)
    by (eapply par_Next_result_wf_buffers; eauto).
  destruct (ParFacts.crowned_frame NC Fitness mb) as (_ & Cp & Cb & _).
  destruct (@smoothed_step (ParFacts.crowned NC Fitness mb) p b0
              (ExactFacts.Rstd (map Fit (GaPar.entities mb))))
    as (p' & Hp' & Hr' & Hstep).
  { rewrite Cp. exact Hp. }
  { exact Hr. }
  { rewrite Cb. exact Hb. }
  { exact Hb0. }
  { apply ExactFacts.Rstd_pos. }
  assert (Hpm : GaPar.pm (ParFacts.adjust_result Exact.exp NC Fitness mb)
                = XFin p').
  { unfold ParFacts.adjust_result.
    cbn [GaPar.pm GaPar.set_fsum GaPar.set_fentities].
    destruct Hwfb as (Hn & _). rewrite Hn.
    rewrite (ExactFacts.par_std_exact HNC). exact Hp'. }
  exists (GaPar.elite (ParFacts.adjust_result Exact.exp NC Fitness mb)),
         (GaPar.fitness (ParFacts.adjust_result Exact.exp NC Fitness mb)),
         (ParFacts.adjust_result Exact.exp NC Fitness mb), p, p'.
  split; [reflexivity|]. split.
  { split; [exact Hwf'|]. split; [exists p'; split; assumption|].
    destruct (adjust_result_frame Exact.exp NC Fitness mb)
      as (_ & _ & _ & _ & Hbase).
    rewrite Hbase. exact Hb. }
  split; [exact Hp|]. split; [exact Hpm|exact Hstep].
Qed.


End ExactControl.

(* ================================================================== *)
(** * The empty population *)
(* ================================================================== *)

Section EmptyPopulation.
Context {F : Type} {num : FloatOps F} {laws : @CmpLaws F num}.
Variable Exp : F -> F.
Variable NC : nat.
Hypothesis HNC : (1 <= NC)%nat.
Variable Entity : Type.
Variable Fitness : Entity -> F.
Variable Mutate : Entity -> Entity.
Variable Crossover : Entity -> Entity -> Entity.
Variable CrossoverW : Entity -> Entity -> F -> Entity.
Variable same : Entity -> Entity -> bool.

Local Open Scope fl_scope.

(** An engine without entities and without elite. *)
Definition seq_empty (m : @GaSeq.GA F Entity) : Prop :=
  SeqFacts.wf m /\ GaSeq.entities m = [] /\ GaSeq.elite m = None.

Definition par_empty (m : @GaPar.GA F Entity) : Prop :=
  ParFacts.wf m /\ GaPar.entities m = [] /\
  GaPar.elite m = None /\ GaPar.fitness m = neg_inf.

Lemma seq_empty_Next m :
  seq_empty m ->
  exists m',
    GaSeq.Next Exp Fitness Mutate Crossover same m = Some (None, m') /\
    seq_empty m'.
Proof.
  intros (Hwf & He & Hel).
  destruct (SeqFacts.seq_Next_total Exp Fitness Mutate Crossover same Hwf)
    as (zs & Hz & HN & Hwf').
  assert (Hzs : zs = []).
  { destruct Hwf as (_ & _ & Ht). rewrite Ht, He in Hz. simpl in Hz.
    now inversion Hz. }
  subst zs. rewrite HN.
  assert (Hel' : GaSeq.elite (SeqFacts.Next_result Exp Fitness m []) = None).
  { unfold SeqFacts.Next_result, SeqFacts.fitness_result.
    cbn [GaSeq.elite GaSeq.entities GaSeq.set_buffers GaSeq.set_rnd
         SeqFacts.champion fst].
    exact Hel. }
  rewrite Hel'. eexists. split; [reflexivity|].
  split; [exact Hwf'|]. split; [reflexivity|exact Hel'].
Qed.

Lemma par_empty_Next m :
  par_empty m ->
  exists m',
    GaPar.Next Exp NC Fitness Mutate CrossoverW m = Some (None, neg_inf, m') /\
    par_empty m'.
Proof using HNC laws.
  intros (Hwf & He & Hel & Hf).
  destruct (ParFacts.par_Next_total Exp HNC Fitness Mutate CrossoverW Hwf)
    as (zs & Hz & HN & Hwf').
  assert (Hzs : zs = []).
  { unfold ParFacts.offspring in Hz. rewrite He in Hz. simpl in Hz.
    destruct zs; [reflexivity|discriminate]. }
  subst zs. rewrite HN.
  unfold ParFacts.Next_result in *.
  set (mb := GaPar.set_buffers
               (GaPar.set_rnd m (fun g => GaPar.rnd m (S g))) []
               (map Some (GaPar.entities m))) in *.
  destruct (adjust_result_elite Exp NC Fitness mb) as [Ef Ee].
  destruct (adjust_result_frame Exp NC Fitness mb) as (_ & Hents & _).
  assert (Hc : ParFacts.crowned NC Fitness mb = mb).
  { destruct (EliteFacts.crowned_cases Fitness NC mb)
      as [E|(e & Hin & _)]; [exact E|contradiction]. }
  rewrite Hc in Ef, Ee. rewrite Ef, Ee.
  cbn [GaPar.elite GaPar.fitness GaPar.set_buffers GaPar.set_rnd mb].
  rewrite Hel, Hf. eexists. split; [reflexivity|].
  split; [exact Hwf'|]. split; [exact Hents|].
  rewrite Ef, Ee.
  cbn [GaPar.elite GaPar.fitness GaPar.set_buffers GaPar.set_rnd mb].
  split; assumption.
Qed.

Lemma seq_empty_loop (fuel : nat) :
  forall k max j (m : @GaSeq.GA F Entity),
    seq_empty m -> (0 <= j <= Z.min k max)%Z ->
    (max <= j + Z.of_nat fuel)%Z ->
    exists m',
      GaSeq.Evolve_loop Exp Fitness Mutate Crossover same fuel k max j j None m
        = Some (GaSeq.mkRun (Z.min k max) (Z.min k max) None m') /\
      seq_empty m'.
Proof. clear HNC.
  induction fuel as [|fuel IH]; intros k max j m Hm Hj Hfuel;
    cbn [GaSeq.Evolve_loop].
  - destruct (Z.ltb_spec j k); destruct (Z.ltb_spec j max); cbn [andb];
      try lia; exists m; (split; [|exact Hm]); do 2 f_equal; lia.
  - destruct (Z.ltb_spec j k); destruct (Z.ltb_spec j max); cbn [andb];
      try (exists m; (split; [|exact Hm]); do 2 f_equal; lia).
    destruct (seq_empty_Next Hm) as (m1 & HN & Hm1).
    rewrite HN. cbn [GaSeq.differs]. apply IH; [exact Hm1|lia|lia].
Qed.

Lemma par_empty_loop (fuel : nat) :
  forall k max j (m : @GaPar.GA F Entity),
    par_empty m -> (0 <= j <= Z.min k max)%Z ->
    (max <= j + Z.of_nat fuel)%Z ->
    exists m',
      GaPar.Evolve_loop Exp NC Fitness Mutate CrossoverW fuel k max j j
                        neg_inf m
        = Some (GaPar.mkRun (Z.min k max) (Z.min k max) neg_inf m') /\
      par_empty m'.
Proof using HNC laws.
  induction fuel as [|fuel IH]; intros k max j m Hm Hj Hfuel;
    cbn [GaPar.Evolve_loop].
  - destruct (Z.ltb_spec j k); destruct (Z.ltb_spec j max); cbn [andb];
      try lia; exists m; (split; [|exact Hm]); do 2 f_equal; lia.
  - destruct (Z.ltb_spec j k); destruct (Z.ltb_spec j max); cbn [andb];
      try (exists m; (split; [|exact Hm]); do 2 f_equal; lia).
    destruct (par_empty_Next Hm) as (m1 & HN & Hm1).
    rewrite HN, flt_neg_inf. apply IH; [exact Hm1|lia|lia].
Qed.

(** X18. With a population of size 0 nothing faults: [New(0, g)] returns
    an engine without elite, and on it [Evolve(k, max)] with [k > 0] and
    [max >= 0] runs [min(k, max)] generations, every one of which leaves
    the elite nil, and reports convergence exactly when [k <= max]; the
    entity it returns is nil. Both engines. *)
Theorem Evolve_on_an_empty_population
        (k max : Z) (g : nat -> Entity) (seed : nat -> F)
        (seeds : nat -> nat -> F * F * F) :
  (0 < k)%Z -> (0 <= max)%Z ->
  (exists m0 r,
      GaSeq.New Exp Fitness 0 g seed = Some m0 /\
      SeqApi.Elite m0 = None /\
      GaSeq.Evolve_run Exp Fitness Mutate Crossover same k max m0 = Some r /\
      GaSeq.run_j r = Z.min k max /\
      GaSeq.Evolve Exp Fitness Mutate Crossover same k max m0
        = Some (None, (k <=? max)%Z, GaSeq.run_ga r)) /\
  (exists m0 r,
      GaPar.New Exp NC Fitness 0 g seeds = Some m0 /\
      ParApi.Elite m0 = None /\
      GaPar.Evolve_run Exp NC Fitness Mutate CrossoverW k max m0 = Some r /\
      GaPar.run_j r = Z.min k max /\
      GaPar.Evolve Exp NC Fitness Mutate CrossoverW k max m0
        = Some (None, neg_inf, (k <=? max)%Z, GaPar.run_ga r)).
Proof using HNC laws.
  intros Hk Hmax. split.
  - destruct (GaSeq.New Exp Fitness 0 g seed) as [m0|] eqn:HN.
    2:{ rewrite SeqFacts.seq_New_spec in HN. discriminate. }
    assert (H0 : seq_empty m0).
    { split; [eapply SeqFacts.seq_New_wf; eauto|].
      rewrite SeqFacts.seq_New_spec in HN. cbn [Z.ltb Z.compare] in HN.
      injection HN as E. rewrite <- E. split; reflexivity. }
    destruct (@seq_empty_loop (Z.to_nat max) k max 0%Z m0 H0)
      as (m' & Hr & _); [lia|lia|].
    eexists. eexists. split; [reflexivity|]. split; [apply H0|].
    unfold GaSeq.Evolve, GaSeq.Evolve_run.
    rewrite (proj2 (proj2 H0)), Hr. cbn [GaSeq.run_i GaSeq.run_j
      GaSeq.run_elite GaSeq.run_ga].
    split; [reflexivity|]. split; [reflexivity|].
    do 3 f_equal.
    destruct (Z.leb_spec k max); destruct (Z.leb_spec k (Z.min k max));
      try reflexivity; lia.
  - destruct (GaPar.New Exp NC Fitness 0 g seeds) as [m0|] eqn:HN.
    2:{ rewrite (ParFacts.par_New_spec _ HNC) in HN. discriminate. }
    assert (H0 : par_empty m0).
    { split; [eapply (ParFacts.par_New_wf _ HNC); eauto|].
      rewrite (ParFacts.par_New_spec _ HNC) in HN. cbn [Z.ltb Z.compare] in HN.
      injection HN as E. rewrite <- E.
      cbn [GaPar.entities GaPar.elite GaPar.fitness GaPar.set_base].
      destruct (adjust_result_elite Exp NC Fitness
                  (ParFacts.New_blank 0 g seeds)) as [Ef Ee].
      destruct (adjust_result_frame Exp NC Fitness
                  (ParFacts.New_blank 0 g seeds)) as (_ & Hents & _).
      assert (Hc : ParFacts.crowned NC Fitness (ParFacts.New_blank 0 g seeds)
                   = ParFacts.New_blank 0 g seeds).
      { destruct (EliteFacts.crowned_cases Fitness NC
                    (ParFacts.New_blank 0 g seeds))
          as [E'|(e & Hin & _)]; [exact E'|contradiction]. }
      rewrite Hc in Ef, Ee. rewrite Ef, Ee, Hents. repeat split. }
    destruct (@par_empty_loop (Z.to_nat max) k max 0%Z m0 H0)
      as (m' & Hr & (_ & _ & Hel' & _)); [lia|lia|].
    destruct H0 as (_ & _ & Hel & Hf).
    eexists. eexists. split; [reflexivity|]. split; [exact Hel|].
    unfold GaPar.Evolve, GaPar.Evolve_run.
    rewrite Hf, Hr. cbn [GaPar.run_i GaPar.run_j GaPar.run_fitness
      GaPar.run_ga].
    split; [reflexivity|]. split; [reflexivity|].
    rewrite Hel'. do 3 f_equal.
    destruct (Z.leb_spec k max); destruct (Z.leb_spec k (Z.min k max));
      try reflexivity; lia.
Qed.

End EmptyPopulation.

(* ================================================================== *)
(** * The elite among equals in the fork-join engine *)
(* ================================================================== *)

Section WorkerTies.
Context {F : Type} {num : FloatOps F}.
Context {laws : @CmpLaws F num} {order : @OrderLaws F num}.
Variable Exp : F -> F.
Variable NC : nat.
Hypothesis HNC : (1 <= NC)%nat.
Variable Entity : Type.
Variable Fitness : Entity -> F.

Local Open Scope fl_scope.

(** In a strictly increasing list the smaller element comes first. *)
Lemma sorted_positions (l : list nat) :
  Sorted lt l ->
  forall p q a b,
    nth_error l p = Some a -> nth_error l q = Some b ->
    (a < b)%nat -> (p < q)%nat.
Proof. clear HNC.
  intros Hs. apply Sorted_StronglySorted in Hs;
    [|intros x y z; apply Nat.lt_trans].
  induction Hs as [|x l Hs IH Hall]; intros p q a b Hp Hq Hab.
  - destruct p; discriminate.
  - destruct p as [|p]; destruct q as [|q]; simpl in Hp, Hq.
    + inversion Hp; inversion Hq; subst. lia.
    + lia.
    + inversion Hq; subst. apply nth_error_In in Hp.
      rewrite Forall_forall in Hall. specialize (Hall _ Hp). lia.
    + apply -> Nat.succ_lt_mono. eapply IH; eauto.
Qed.

(** A worker keeps what it was given, or takes the first entity of its
    slots that is above it and that no later entity of its slots exceeds. *)
Lemma best_first (ents : list Entity) (slots : list nat) :
  (forall i, In i slots -> (i < length ents)%nat) ->
  forall mf me,
    (mf <=? mf) = true ->
    ParFacts.best Fitness ents slots mf me = (mf, me) \/
    exists pos i x,
      nth_error slots pos = Some i /\ nth_error ents i = Some x /\
      ParFacts.best Fitness ents slots mf me = (Fitness x, Some x) /\
      (Fitness x <=? mf) = false /\
      forall pos' i' y,
        (pos' < pos)%nat -> nth_error slots pos' = Some i' ->
        nth_error ents i' = Some y -> (Fitness x <=? Fitness y) = false.
Proof using laws order. clear HNC.
  induction slots as [|a slots IH]; intros Hin mf me Hmf; [now left|].
  cbn [ParFacts.best].
  assert (Ha : exists e, nth_error ents a = Some e).
  { destruct (nth_error ents a) eqn:E; [eauto|].
    apply nth_error_None in E. specialize (Hin a (or_introl eq_refl)). lia. }
  destruct Ha as [e He]. rewrite He.
  assert (Hin' : forall j, In j slots -> (j < length ents)%nat)
    by (intros; apply Hin; now right).
  destruct (mf <? Fitness e) eqn:E.
  - right. pose proof (flt_ordered _ _ E) as Heo.
    destruct (IH Hin' (Fitness e) (Some e) Heo)
      as [H|(pos & i & x & Hpos & Hx & Hr & Hxe & Hfirst)].
    + exists O, a, e. rewrite H.
      split; [reflexivity|]. split; [exact He|]. split; [reflexivity|].
      split; [now apply flt_not_fle|]. intros pos' i' y Hlt; lia.
    + exists (S pos), i, x.
      split; [exact Hpos|]. split; [exact Hx|]. split; [exact Hr|].
      split.
      * destruct (Fitness x <=? mf) eqn:Exm; [|reflexivity].
        pose proof (fle_flt_trans _ _ _ Exm E). congruence.
      * intros [|pos'] i' y Hlt Hi' Hy; simpl in Hi'.
        -- inversion Hi'; subst i'. rewrite He in Hy. inversion Hy; subst y.
           exact Hxe.
        -- apply (Hfirst pos' i' y); [lia|exact Hi'|exact Hy].
  - destruct (IH Hin' mf me Hmf)
      as [H|(pos & i & x & Hpos & Hx & Hr & Hxm & Hfirst)]; [now left|].
    right. exists (S pos), i, x.
    split; [exact Hpos|]. split; [exact Hx|]. split; [exact Hr|].
    split; [exact Hxm|].
    intros [|pos'] i' y Hlt Hi' Hy; simpl in Hi'.
    + inversion Hi'; subst i'. rewrite He in Hy. inversion Hy; subst y.
      destruct (Fitness x <=? Fitness e) eqn:Exy; [|reflexivity].
      destruct (fle_ordered _ _ Exy) as [_ Hyo].
      pose proof (fle_total _ _ Hmf Hyo E) as Hym.
      pose proof (fle_trans _ _ _ Exy Hym). congruence.
    + apply (Hfirst pos' i' y); [lia|exact Hi'|exact Hy].
Qed.

(** X19. [src/unnamed/part_000], [adjust]: when the elite fitness is a
    number, [adjust] either keeps the elite and its fitness, or makes elite
    an entity of the population of greatest fitness, and among the entities
    of that fitness the one that the lowest-numbered worker met first: no
    entity of a slot of a lower-numbered worker, and no entity of an
    earlier slot of the same worker, has a fitness as large. With several
    workers this need not be the first such entity of the population. *)
Theorem adjust_crowns_the_best_of_the_first_worker (m : @GaPar.GA F Entity) :
  ParFacts.wf m ->
  (GaPar.fitness m <=? GaPar.fitness m) = true ->
  exists s m',
    GaPar.adjust Exp NC Fitness m = Some (s, m') /\
    (forall y, In y (GaPar.entities m) ->
               (ParApi.Fitness m' <? Fitness y) = false) /\
    ((ParApi.Elite m' = GaPar.elite m /\ ParApi.Fitness m' = GaPar.fitness m) \/
     exists k x,
       nth_error (GaPar.entities m) k = Some x /\
       ParApi.Elite m' = Some x /\ ParApi.Fitness m' = Fitness x /\
       (GaPar.fitness m <? Fitness x) = true /\
       forall j y,
         nth_error (GaPar.entities m) j = Some y ->
         (j mod NC < k mod NC \/ (j mod NC = k mod NC /\ j < k))%nat ->
         (Fitness x <=? Fitness y) = false).
Proof using HNC laws order.
  intros Hwf Ho.
  rewrite (ParFacts.adjust_spec Exp HNC) by assumption.
  eexists. eexists. split; [reflexivity|].
  destruct (adjust_result_elite Exp NC Fitness m) as [Ef Ee].
  unfold ParApi.Fitness, ParApi.Elite. rewrite Ef, Ee.
  split; [exact (crowned_tops HNC Fitness Hwf Ho)|].
  destruct Hwf as (Hn & _).
  unfold ParFacts.crowned.
  set (nn := Z.to_nat (GaPar.n m)).
  assert (Hnn : nn = length (GaPar.entities m)) by (unfold nn; lia).
  set (mfs := ParFacts.mfs_of NC Fitness (GaPar.entities m) nn).
  set (mes := ParFacts.mes_of NC Fitness (GaPar.entities m) nn).
  assert (Hrange : forall c i, In i (GaPar.worker_slots NC nn c nn) ->
                               (i < length (GaPar.entities m))%nat).
  { intros c i Hi. apply ParFacts.worker_slots_in in Hi. lia. }
  assert (Hmfs : forall c, (c < NC)%nat ->
            nth_error mfs c =
            Some (fst (ParFacts.best Fitness (GaPar.entities m)
                         (GaPar.worker_slots NC nn c nn) neg_inf None))).
  { intros c Hc. unfold mfs, ParFacts.mfs_of.
    rewrite nth_error_map, nth_error_seq.
    destruct (Nat.ltb_spec c NC); [reflexivity|lia]. }
  destruct (GaPar.max mfs) as [c M] eqn:Emax.
  destruct (GaPar.fitness m <? M) eqn:Elt; [|left; split; reflexivity].
  right. cbn [GaPar.elite GaPar.fitness GaPar.set_elite].
  unfold GaPar.max in Emax.
  destruct (@max_loop_first _ _ laws order mfs O O neg_inf neg_inf_ordered)
    as [H|(c' & M' & HM & Hr & _ & Hfirst)]; rewrite Emax in *.
  { inversion H; subst. now rewrite flt_neg_inf in Elt. }
  inversion Hr; subst c' M'. clear Hr. cbn [Nat.add] in *.
  assert (Hc : (c < NC)%nat).
  { assert (Hl : length mfs = NC)
      by (unfold mfs, ParFacts.mfs_of; now rewrite length_map, length_seq).
    rewrite <- Hl. apply nth_error_Some. congruence. }
  rewrite (Hmfs c Hc) in HM. inversion HM as [HMc]. clear HM.
  assert (Hmes : nth c mes None =
                 snd (ParFacts.best Fitness (GaPar.entities m)
                        (GaPar.worker_slots NC nn c nn) neg_inf None)).
  { apply nth_error_nth. unfold mes, ParFacts.mes_of.
    rewrite nth_error_map, nth_error_seq.
    destruct (Nat.ltb_spec c NC); [reflexivity|lia]. }
  rewrite Hmes.
  destruct (@best_first (GaPar.entities m) (GaPar.worker_slots NC nn c nn)
              (Hrange c) neg_inf None neg_inf_ordered)
    as [Hb|(pos & k & x & Hpos & Hx & Hb & _ & Hbfirst)];
    rewrite Hb in *; cbn [fst snd] in *.
  { subst M. now rewrite flt_neg_inf in Elt. }
  subst M. exists k, x.
  split; [exact Hx|]. split; [reflexivity|]. split; [reflexivity|].
  split; [exact Elt|].
  assert (Hk : In k (GaPar.worker_slots NC nn c nn))
    by (eapply nth_error_In; eauto).
  assert (Hkc : (k mod NC = c)%nat)
    by (eapply ParFacts.worker_slots_mod; eauto).
  intros j y Hy Hj.
  assert (Hjn : (j < nn)%nat).
  { rewrite Hnn. apply nth_error_Some. congruence. }
  pose proof (ParFacts.worker_slots_cover HNC Hjn) as Hjs.
  destruct Hj as [Hlow|[Hsame Hlt]].
  - (* a lower-numbered worker *)
    set (c0 := (j mod NC)%nat) in *.
    assert (Hc0 : (c0 < NC)%nat) by lia.
    destruct (Fitness x <=? Fitness y) eqn:Exy; [|reflexivity].
    destruct (fle_ordered _ _ Exy) as [_ Hyo].
    set (mf0 := fst (ParFacts.best Fitness (GaPar.entities m)
                       (GaPar.worker_slots NC nn c0 nn) neg_inf None)).
    assert (Htop : (mf0 <? Fitness y) = false).
    { unfold mf0. eapply best_tops; eauto. apply neg_inf_ordered. }
    assert (Hmf0 : (mf0 <=? mf0) = true)
      by (apply best_ordered, neg_inf_ordered).
    pose proof (fle_total _ _ Hmf0 Hyo Htop) as Hle.
    pose proof (fle_trans _ _ _ Exy Hle) as Hxm.
    rewrite (Hfirst c0 mf0) in Hxm; [discriminate|lia|].
    now apply Hmfs.
  - (* an earlier slot of the same worker *)
    rewrite Hsame, Hkc in Hjs.
    apply In_nth_error in Hjs. destruct Hjs as [pos' Hpos'].
    apply (Hbfirst pos' j y); [|exact Hpos'|exact Hy].
    exact (@sorted_positions (GaPar.worker_slots NC nn c nn)
             (@worker_slots_sorted NC HNC nn nn c) pos' pos j k
             Hpos' Hpos Hlt).
Qed.

End WorkerTies.

(* ================================================================== *)
(** * The further properties on concrete engines *)
(* ================================================================== *)

(** Selection on the concrete engines of two entities. *)
Lemma select2_returns_members_witness :
  (exists x y,
      In x (GaSeq.entities Demo.seq_engine) /\
      In y (GaSeq.entities Demo.seq_engine) /\
      GaSeq.select2 Demo.same Demo.seq_engine =
        Some (x, y, GaSeq.set_rnd Demo.seq_engine
                      (fun k => GaSeq.rnd Demo.seq_engine (S (S k))))) /\
  (exists x y w,
      GaPar.select2 Demo.par_engine (XFin (1 / 2)) (XFin (1 / 2))
        = Some (x, y, w) /\
      In x (GaPar.entities Demo.par_engine) /\
      In y (GaPar.entities Demo.par_engine)).
Proof.
  destruct (@select2_returns_members xreal exact Demo.Entity Demo.same
              Demo.seq_engine Demo.par_engine (XFin (1 / 2)) (XFin (1 / 2))
              Demo.seq_engine_wf Demo.par_engine_wf)
    as (H1 & _ & H2 & _).
  split.
  - destruct H1 as (x & y & Hs & Hx & Hy); [discriminate|].
    exists x, y. split; [exact Hx|]. split; [exact Hy|exact Hs].
  - destruct H2 as (x & y & w & Hs & Hx & Hy); [discriminate|].
    exists x, y, w. split; [exact Hs|]. split; [exact Hx|exact Hy].
Defined.

(** Two generations of a sequential engine of four entities: 24 numbers
    are drawn. *)
Lemma Next_draws_three_numbers_per_slot_witness :
  exists m0 m,
    DemoRuns.seq_New 4 Demo.factory Demo.seed = Some m0 /\
    seq_generations Exact.exp Demo.Fitness Demo.Mutate Demo.Crossover
                    Demo.same 2 m0 = Some m /\
    length (GaSeq.entities m) = 4%nat /\
    forall j, GaSeq.rnd m j = Demo.seed (24 + j)%nat.
Proof.
  destruct (@Next_draws_three_numbers_per_slot xreal exact Exact.exp
              Demo.Entity Demo.Fitness Demo.Mutate Demo.Crossover Demo.same
              4%Z Demo.factory Demo.seed 2%nat)
    as (m0 & m & H1 & H2 & H3 & H4); [lia|].
  exists m0, m. split; [exact H1|]. split; [exact H2|].
  split; [exact H3|exact H4].
Defined.

(** [Evolve(3, 2)] on the concrete engines. *)
Lemma Evolve_is_iterated_Next_witness :
  (exists j e b m',
      DemoRuns.seq_Evolve 3 2 Demo.seq_engine = Some (e, b, m') /\
      seq_generations Exact.exp Demo.Fitness Demo.Mutate Demo.Crossover
                      Demo.same j Demo.seq_engine = Some m' /\
      (Z.of_nat j <= 2)%Z) /\
  (exists j e f b m',
      DemoRuns.par_Evolve 3 2 Demo.par_engine = Some (e, f, b, m') /\
      par_generations Exact.exp Demo.NC Demo.Fitness Demo.Mutate
                      Demo.CrossoverW j Demo.par_engine = Some m' /\
      (Z.of_nat j <= 2)%Z).
Proof.
  destruct (@Evolve_is_iterated_Next xreal exact Exact.exp Demo.NC
              Demo.NC_pos Demo.Entity Demo.Fitness Demo.Mutate Demo.Crossover
              Demo.CrossoverW Demo.same 3 2 Demo.seq_engine Demo.par_engine
              Demo.seq_engine_wf Demo.par_engine_wf)
    as [(j & e & b & m' & H1 & H2 & H3 & _)
        (j' & e' & f' & b' & m'' & H1' & H2' & H3' & _)].
  split.
  - exists j, e, b, m'. split; [exact H1|]. split; [exact H2|exact H3].
  - exists j', e', f', b', m''. split; [exact H1'|]. split; [exact H2'|exact H3'].
Defined.

(** [Evolve(3, 5)] on the concrete sequential engine, whose entities are
    integers compared by value. *)
Lemma Evolve_returns_the_elite_witness :
  exists e b m',
    DemoRuns.seq_Evolve 3 5 Demo.seq_engine = Some (e, b, m') /\
    GaSeq.differs Demo.same (SeqApi.Elite m') e = false.
Proof.
  exact (@Evolve_returns_the_elite xreal exact Exact.exp Demo.Entity
           Demo.Fitness Demo.Mutate Demo.Crossover Demo.same 3 5
           Demo.seq_engine Z.eqb_refl Demo.seq_engine_wf).
Defined.

(** [fitness] on the concrete sequential engine, whose elite fitness is
    minus infinity. *)
Lemma fitness_crowns_the_first_best_witness :
  exists m',
    GaSeq.fitness Exact.exp Demo.Fitness Demo.seq_engine = Some m' /\
    tops Demo.Fitness (SeqApi.Felite m') (GaSeq.entities Demo.seq_engine).
Proof.
  destruct (@fitness_crowns_the_first_best xreal exact exact_laws exact_order
              Exact.exp Demo.Entity Demo.Fitness Demo.seq_engine
              eq_refl eq_refl)
    as (m' & H1 & H2 & _).
  exists m'. split; [exact H1|exact H2].
Defined.

(** Three generations of the concrete engines of four entities. *)
Lemma elite_tops_the_population_witness :
  (exists m0 m,
      DemoRuns.seq_New 4 Demo.factory Demo.seed = Some m0 /\
      seq_generations Exact.exp Demo.Fitness Demo.Mutate Demo.Crossover
                      Demo.same 3 m0 = Some m /\
      tops Demo.Fitness (SeqApi.Felite m) (GaSeq.entities m)) /\
  (exists m0 m,
      DemoRuns.par_New 4 Demo.factory Demo.seeds = Some m0 /\
      par_generations Exact.exp Demo.NC Demo.Fitness Demo.Mutate
                      Demo.CrossoverW 3 m0 = Some m /\
      tops Demo.Fitness (ParApi.Fitness m) (GaPar.entities m)).
Proof.
  destruct (@elite_tops_the_population xreal exact exact_laws exact_order
              Exact.exp Demo.NC Demo.NC_pos Demo.Entity Demo.Fitness
              Demo.Mutate Demo.Crossover Demo.CrossoverW Demo.same
              4%Z Demo.factory Demo.seed Demo.seeds 3%nat)
    as [(m0 & m & H1 & H2 & _ & H3) (m0' & m' & H1' & H2' & _ & H3')]; [lia|].
  split.
  - exists m0, m. split; [exact H1|]. split; [exact H2|exact H3].
  - exists m0', m'. split; [exact H1'|]. split; [exact H2'|exact H3'].
Defined.

(** [Evolve(3, 5)] on the concrete fork-join engine. *)
Lemma Evolve_returns_elite_and_fitness_witness :
  exists e f b m',
    DemoRuns.par_Evolve 3 5 Demo.par_engine = Some (e, f, b, m') /\
    e = ParApi.Elite m' /\ f = ParApi.Fitness m'.
Proof.
  exact (@Evolve_returns_elite_and_fitness xreal exact exact_laws Exact.exp
           Demo.NC Demo.NC_pos Demo.Entity Demo.Fitness Demo.Mutate
           Demo.CrossoverW 3 5 Demo.par_engine Demo.par_engine_wf).
Defined.







(** [Evolve(3, 5)] and [Evolve(5, 3)] on engines of size 0. *)
Lemma Evolve_on_an_empty_population_witness :
  (exists m0 r,
      DemoRuns.seq_New 0 Demo.factory Demo.seed = Some m0 /\
      DemoRuns.seq_Evolve 3 5 m0 = Some (None, true, GaSeq.run_ga r) /\
      GaSeq.run_j r = 3%Z) /\
  (exists m0 r,
      DemoRuns.par_New 0 Demo.factory Demo.seeds = Some m0 /\
      DemoRuns.par_Evolve 5 3 m0
        = Some (None, XNegInf, false, GaPar.run_ga r) /\
      GaPar.run_j r = 3%Z).
Proof.
  split.
  - destruct (@Evolve_on_an_empty_population xreal exact exact_laws Exact.exp
                Demo.NC Demo.NC_pos Demo.Entity Demo.Fitness Demo.Mutate
                Demo.Crossover Demo.CrossoverW Demo.same 3%Z 5%Z
                Demo.factory Demo.seed Demo.seeds)
      as [(m0 & r & H1 & _ & _ & H2 & H3) _]; [lia|lia|].
    exists m0, r. split; [exact H1|]. split; [exact H3|exact H2].
  - destruct (@Evolve_on_an_empty_population xreal exact exact_laws Exact.exp
                Demo.NC Demo.NC_pos Demo.Entity Demo.Fitness Demo.Mutate
                Demo.Crossover Demo.CrossoverW Demo.same 5%Z 3%Z
                Demo.factory Demo.seed Demo.seeds)
      as [_ (m0 & r & H1 & _ & _ & H2 & H3)]; [lia|lia|].
    exists m0, r. split; [exact H1|]. split; [exact H3|exact H2].
Defined.

(** [adjust] on the concrete fork-join engine, whose elite fitness is minus
    infinity. *)
Lemma adjust_crowns_the_best_of_the_first_worker_witness :
  exists s m',
    GaPar.adjust Exact.exp Demo.NC Demo.Fitness Demo.par_engine
      = Some (s, m') /\
    forall y, In y (GaPar.entities Demo.par_engine) ->
              fltb (ParApi.Fitness m') (Demo.Fitness y) = false.
Proof.
  destruct (@adjust_crowns_the_best_of_the_first_worker xreal exact
              exact_laws exact_order Exact.exp Demo.NC Demo.NC_pos
              Demo.Entity Demo.Fitness Demo.par_engine
              Demo.par_engine_wf eq_refl)
    as (s & m' & H1 & H2 & _).
  exists s, m'. split; [exact H1|exact H2].
Defined.

(** [Evolve(1, 7)] on the concrete engines. *)
Lemma Evolve_with_k_one_stops_at_once_witness :
  (exists e m', DemoRuns.seq_Evolve 1 7 Demo.seq_engine = Some (e, true, m')) /\
  (exists e f m',
      DemoRuns.par_Evolve 1 7 Demo.par_engine = Some (e, f, true, m')).
Proof.
  destruct (@Evolve_with_k_one_stops_at_once xreal exact Exact.exp Demo.NC
              Demo.NC_pos Demo.Entity Demo.Fitness Demo.Mutate Demo.Crossover
              Demo.CrossoverW Demo.same 7%Z Demo.seq_engine Demo.par_engine
              ltac:(lia) Demo.seq_engine_wf Demo.par_engine_wf)
    as [(_ & e & m' & _ & H) (e' & _ & f' & m'' & _ & H')].
  split.
  - exists e, m'. exact H.
  - exists e', f', m''. exact H'.
Defined.
